(** * DivertScan QuickBooks export (divertscan_quickbooks_export.js)

    A shallow embedding of the export module and the properties of its
    load resolver, normalizer, weight resolver, grouping and the two
    serializers (IIF and CSV).

    Conventions of the embedding.
    - A JavaScript string is a Rocq [string]; a character stands for one
      code unit below 256.
    - A JavaScript number is [NaN], an infinity or a finite binary64
      value, known by the rational it denotes ([Fin q]).  Every
      operation rounds its exact result to the nearest binary64 value,
      ties to even ([round64]), overflowing to an infinity.  Negative
      zero is identified with zero: the module never divides by a zero
      and never prints the sign of one.
    - Raw records are association lists of JSON-like values.
    - What ECMAScript leaves to the host (the clock, the time zone, the
      parsing of date strings outside the ISO format, locale formatting)
      is a field of [Host].
    - A function that can throw returns a [result]. *)

From Stdlib Require Import ZArith NArith QArith Qround Qabs List String Ascii Bool Lia.
Import ListNotations.
From Stdlib Require Import Permutation.
From Stdlib Require Import Qpower.

Local Open Scope string_scope.
Local Open Scope Z_scope.

(** ** Exceptions *)

Inductive error :=
| TypeError (msg : string)
| Error (msg : string).

Inductive result (A : Type) :=
| Ok (a : A)
| Throw (e : error).
Arguments Ok {A} a.
Arguments Throw {A} e.

Definition bind {A B} (m : result A) (k : A -> result B) : result B :=
  match m with
  | Ok a => k a
  | Throw e => Throw e
  end.

Notation "x <- m ;; k" := (bind m (fun x => k))
  (at level 61, m at next level, right associativity).

(** [try { body } catch { handler }] *)
Definition try_catch {A} (body : result A) (handler : error -> A) : A :=
  match body with
  | Ok a => a
  | Throw e => handler e
  end.

(** [for (const x of xs) st = step st x], stopping at the first throw. *)
Fixpoint foldM {A S} (step : S -> A -> result S) (xs : list A) (st : S) : result S :=
  match xs with
  | [] => Ok st
  | x :: xs' => st' <- step st x ;; foldM step xs' st'
  end.

(** ** Strings *)

Definition chr (n : nat) : string := String (ascii_of_nat n) EmptyString.

Definition TAB : string := chr 9.
Definition LF : string := chr 10.
Definition CR : string := chr 13.
Definition CRLF : string := CR ++ LF.
Definition DQUOTE : string := chr 34.

(** [Array.prototype.join] on an array of strings. *)
Definition join (sep : string) (xs : list string) : string := String.concat sep xs.

(** WhiteSpace and LineTerminator code units below 256: TAB, LF, VT, FF, CR,
    SP and NBSP.  This is the class [\s] and what [trim] removes. *)
Definition is_space (c : ascii) : bool :=
  let n := nat_of_ascii c in
  ((9 <=? n) && (n <=? 13) || (n =? 32) || (n =? 160))%nat.

Definition is_digit (c : ascii) : bool :=
  let n := nat_of_ascii c in ((48 <=? n) && (n <=? 57))%nat.

Definition is_alpha (c : ascii) : bool :=
  let n := nat_of_ascii c in
  ((65 <=? n) && (n <=? 90) || (97 <=? n) && (n <=? 122))%nat.

Fixpoint trimStart (s : string) : string :=
  match s with
  | String c s' => if is_space c then trimStart s' else s
  | EmptyString => EmptyString
  end.

Fixpoint trimEnd (s : string) : string :=
  match s with
  | String c s' =>
      match trimEnd s' with
      | EmptyString => if is_space c then EmptyString else String c EmptyString
      | t => String c t
      end
  | EmptyString => EmptyString
  end.

Definition trim (s : string) : string := trimEnd (trimStart s).

(** [s.replace(/[class]/g, by)] for a character class given as a predicate. *)
Fixpoint replace_class (cls : ascii -> bool) (by_ : string) (s : string) : string :=
  match s with
  | String c s' =>
      (if cls c then by_ else String c EmptyString) ++ replace_class cls by_ s'
  | EmptyString => EmptyString
  end.

Fixpoint repeat_string (n : nat) (s : string) : string :=
  match n with
  | O => EmptyString
  | S n' => s ++ repeat_string n' s
  end.

(** [s.padStart(n, '0')] *)
Definition padStart0 (n : nat) (s : string) : string :=
  repeat_string (n - String.length s) "0" ++ s.

(** [s.substring(0, n)] *)
Definition substring0 (n : nat) (s : string) : string := String.substring 0 n s.

(** ** Decimal digits *)

Definition digit_char (d : N) : ascii := ascii_of_N (48 + d).
Definition digit_val (c : ascii) : N := N_of_ascii c - 48.

Fixpoint digits_loop (fuel : nat) (n : N) (acc : string) : string :=
  match fuel with
  | O => acc
  | S fuel' =>
      let acc' := String (digit_char (n mod 10)) acc in
      if (n / 10 =? 0)%N then acc' else digits_loop fuel' (n / 10)%N acc'
  end.

(** The decimal digits of a natural number, without leading zeros. *)
Definition N_digits (n : N) : string :=
  digits_loop (S (N.to_nat (N.log2 n))) n EmptyString.

Definition Z_to_string (z : Z) : string :=
  if z <? 0 then "-" ++ N_digits (Z.abs_N z) else N_digits (Z.abs_N z).

(** Reads the longest run of digits at the head of [s]: the number they
    denote after [acc], how many were read, and the rest of the string. *)
Fixpoint read_digits (s : string) (acc : N) (cnt : nat) : N * nat * string :=
  match s with
  | String c s' =>
      if is_digit c then read_digits s' (10 * acc + digit_val c)%N (S cnt)
      else (acc, cnt, s)
  | EmptyString => (acc, cnt, s)
  end.

(** ** Numbers *)

Inductive number :=
| NaN
| PosInf
| NegInf
| Fin (q : Q).

Definition pow10 (n : nat) : Z := 10 ^ Z.of_nat n.

(** 10^z as a rational, for any integer z. *)
Definition Qpow10 (z : Z) : Q :=
  if z <? 0 then (1 # Pos.pow 10 (Z.to_pos (- z)))%Q else inject_Z (10 ^ z).

Definition Qsign (q : Q) : Z := Z.sgn (Qnum q).

Definition num_neg (x : number) : number :=
  match x with
  | NaN => NaN
  | PosInf => NegInf
  | NegInf => PosInf
  | Fin q => Fin (Qopp q)
  end.

(** *** Rounding to binary64 *)

(** 2^z as a rational, for any integer z. *)
Definition Qpow2 (z : Z) : Q :=
  if z <? 0 then (1 # Pos.pow 2 (Z.to_pos (- z)))%Q else inject_Z (2 ^ z).

(** The binary exponent e of a positive rational: 2^e <= q < 2^(e+1). *)
Definition binary_exponent (q : Q) : Z :=
  let e0 := Z.log2 (Qnum q) - Z.log2 (Zpos (Qden q)) in
  if Qle_bool (Qpow2 e0) q then e0 else e0 - 1.

(** The integer nearest to x, the even one on a tie. *)
Definition round_half_even (x : Q) : Z :=
  let f := Qfloor x in
  match Qcompare (x - inject_Z f) (1 # 2) with
  | Lt => f
  | Gt => f + 1
  | Eq => if Z.even f then f else f + 1
  end.

(** The binary64 value nearest to q > 0.  A value with binary exponent e
    has 53 significant bits: it is a multiple of 2^(e-52), and of 2^-1074
    below the normal range; what rounds to 2^1024 or above is +Infinity. *)
Definition round64_pos (q : Q) : number :=
  let e := binary_exponent q in
  let p := Z.max (e - 52) (-1074) in
  let v := (inject_Z (round_half_even (q / Qpow2 p)) * Qpow2 p)%Q in
  if Qle_bool (Qpow2 1024) v then PosInf else Fin (Qred v).

(** The binary64 value nearest to q, ties to even. *)
Definition round64 (q : Q) : number :=
  match Qsign q with
  | 0 => Fin 0
  | Zpos _ => round64_pos q
  | Zneg _ => num_neg (round64_pos (- q))
  end.

(** *** Arithmetic *)

Definition num_add (x y : number) : number :=
  match x, y with
  | NaN, _ | _, NaN => NaN
  | PosInf, NegInf | NegInf, PosInf => NaN
  | PosInf, _ | _, PosInf => PosInf
  | NegInf, _ | _, NegInf => NegInf
  | Fin a, Fin b => round64 (a + b)
  end.

Definition inf_of_sign (z : Z) : number :=
  if z =? 0 then NaN else if z <? 0 then NegInf else PosInf.

Definition num_sign (x : number) : Z :=
  match x with
  | NaN => 0
  | PosInf => 1
  | NegInf => -1
  | Fin q => Qsign q
  end.

Definition num_mul (x y : number) : number :=
  match x, y with
  | NaN, _ | _, NaN => NaN
  | Fin a, Fin b => round64 (a * b)
  | _, _ => inf_of_sign (num_sign x * num_sign y)
  end.

Definition num_div (x y : number) : number :=
  match x, y with
  | NaN, _ | _, NaN => NaN
  | Fin a, Fin b =>
      if Qsign b =? 0 then inf_of_sign (Qsign a) else round64 (a / b)
  | Fin _, _ => Fin 0
  | _, Fin b => inf_of_sign (num_sign x * (if Qsign b =? 0 then 1 else Qsign b))
  | _, _ => NaN
  end.

(** [x > y]; false as soon as one side is NaN. *)
Definition num_gt (x y : number) : bool :=
  match x, y with
  | NaN, _ | _, NaN => false
  | PosInf, PosInf => false
  | PosInf, _ => true
  | _, PosInf => false
  | NegInf, _ => false
  | _, NegInf => true
  | Fin a, Fin b => negb (Qle_bool a b)
  end.

Definition num_of_Z (z : Z) : number := Fin (inject_Z z).

(** *** Number::toString *)

Fixpoint strip_zeros_fuel (fuel : nat) (s : N) : N :=
  match fuel with
  | O => s
  | S fuel' =>
      if ((s mod 10 =? 0) && negb (s =? 0))%N then strip_zeros_fuel fuel' (s / 10)%N else s
  end.

(** The decimal exponent n of a positive rational: 10^(n-1) <= q < 10^n. *)
Definition decimal_exponent (q : Q) : Z :=
  let da := Z.of_nat (String.length (N_digits (Z.abs_N (Qnum q)))) in
  let db := Z.of_nat (String.length (N_digits (Npos (Qden q)))) in
  if Qle_bool (Qpow10 (da - db)) q then da - db + 1 else da - db.

(** At most 17 significant digits are printed. *)
Definition SIGNIFICANT : Z := 17.

(** The digits [s] at the decimal exponent [n], [k] of them, denote a
    number that reads back as the binary64 value [q]. *)
Definition reads_back (q : Q) (n k s : Z) : bool :=
  match round64 (inject_Z s * Qpow10 (n - k)) with
  | Fin q' => Qeq_bool q' q
  | _ => false
  end.

(** The [k] digits nearest to q that read back as q, when there are any:
    one of the two integers around q * 10^(k-n). *)
Definition digits_at (q : Q) (n k : Z) : option Z :=
  let x := (q * Qpow10 (k - n))%Q in
  let lo := Qfloor x in
  let hi := lo + 1 in
  match reads_back q n k lo, reads_back q n k hi with
  | true, true =>
      match Qcompare (x - inject_Z lo) (inject_Z hi - x) with
      | Lt => Some lo
      | Gt => Some hi
      | Eq => Some (if Z.even lo then lo else hi)
      end
  | true, false => Some lo
  | false, true => Some hi
  | false, false => None
  end.

(** The shortest digits that read back as q, trying 1, 2, ... digits;
    q rounded to [SIGNIFICANT] digits when none does. *)
Fixpoint shortest_digits (fuel : nat) (q : Q) (n k : Z) : Z * Z :=
  match fuel with
  | O => (Qfloor (q * Qpow10 (SIGNIFICANT - n) + (1 # 2))%Q, SIGNIFICANT)
  | S fuel' =>
      match digits_at q n k with
      | Some s => (s, k)
      | None => shortest_digits fuel' q n (k + 1)
      end
  end.

(** For q > 0: the digits s (no trailing zero), their count k and the
    exponent n with s * 10^(n-k) the shortest decimal that reads back as
    q, as Number::toString asks. *)
Definition scientific (q : Q) : N * nat * Z :=
  let n0 := decimal_exponent q in
  let '(s0, k0) := shortest_digits (Z.to_nat SIGNIFICANT) q n0 1 in
  let '(s1, n) := if 10 ^ k0 <=? s0 then (s0 / 10, n0 + 1) else (s0, n0) in
  let s := strip_zeros_fuel (Z.to_nat SIGNIFICANT) (Z.to_N s1) in
  (s, String.length (N_digits s), n).

Definition exponent_suffix (e : Z) : string :=
  "e" ++ (if e <? 0 then "-" else "+") ++ N_digits (Z.abs_N e).

Definition positive_to_string (q : Q) : string :=
  let '(s, k, n) := scientific q in
  let ds := N_digits s in
  let kz := Z.of_nat k in
  if (kz <=? n) && (n <=? 21) then
    ds ++ repeat_string (Z.to_nat (n - kz)) "0"
  else if (0 <? n) && (n <=? 21) then
    String.substring 0 (Z.to_nat n) ds ++ "." ++ String.substring (Z.to_nat n) (k - Z.to_nat n) ds
  else if (-6 <? n) && (n <=? 0) then
    "0." ++ repeat_string (Z.to_nat (- n)) "0" ++ ds
  else if (k =? 1)%nat then
    ds ++ exponent_suffix (n - 1)
  else
    String.substring 0 1 ds ++ "." ++ String.substring 1 (k - 1) ds ++ exponent_suffix (n - 1).

Definition Number_toString (x : number) : string :=
  match x with
  | NaN => "NaN"
  | PosInf => "Infinity"
  | NegInf => "-Infinity"
  | Fin q =>
      match Qsign q with
      | 0 => "0"
      | Zneg _ => "-" ++ positive_to_string (Qopp q)
      | Zpos _ => positive_to_string q
      end
  end.

(** *** Number.prototype.toFixed *)

(** The integer n for which n / 10^f - q is closest to zero, the larger one
    on a tie (q >= 0). *)
Definition nearest_scaled (f : nat) (q : Q) : Z :=
  Qfloor (q * inject_Z (pow10 f) + (1 # 2))%Q.

Definition fixed_digits (f : nat) (n : Z) : string :=
  let m := N_digits (Z.to_N n) in
  match f with
  | O => m
  | _ =>
      let m' := repeat_string (S f - String.length m) "0" ++ m in
      let k := String.length m' in
      String.substring 0 (k - f) m' ++ "." ++ String.substring (k - f) f m'
  end.

Definition toFixed (f : nat) (x : number) : string :=
  match x with
  | Fin q =>
      if Qle_bool (inject_Z (10 ^ 21)) (Qabs q) then Number_toString x
      else if Qsign q <? 0 then "-" ++ fixed_digits f (nearest_scaled f (Qopp q))
      else fixed_digits f (nearest_scaled f q)
  | _ => Number_toString x
  end.

(** *** StrDecimalLiteral, parseFloat and Number(string) *)

Definition starts_with (p s : string) : bool := String.prefix p s.

Definition drop (n : nat) (s : string) : string :=
  String.substring n (String.length s - n) s.

(** An optional sign: the factor and the rest. *)
Definition read_sign (s : string) : Z * string :=
  match s with
  | String "-" s' => (-1, s')
  | String "+" s' => (1, s')
  | _ => (1, s)
  end.

(** An optional ExponentPart: e or E, an optional sign and at least one
    digit.  When none is there the exponent is 0 and nothing is consumed. *)
Definition read_exponent (s : string) : Z * string :=
  match s with
  | String c s' =>
      if (Ascii.eqb c "e" || Ascii.eqb c "E")%bool then
        let '(sg, s1) := read_sign s' in
        let '(e, cnt, rest) := read_digits s1 0%N O in
        match cnt with
        | O => (0, s)
        | _ => (sg * Z.of_N e, rest)
        end
      else (0, s)
  | EmptyString => (0, s)
  end.

(** The longest prefix of [s] that is a StrUnsignedDecimalLiteral: digits
    with an optional fraction, or a fraction alone, then an optional exponent. *)
Definition read_unsigned (s : string) : option (number * string) :=
  if starts_with "Infinity" s then Some (PosInf, drop 8 s)
  else
    let '(ip, icnt, s1) := read_digits s 0%N O in
    let '(fp, fcnt, s2) :=
      match s1 with
      | String "." s1' =>
          let '(fp, fcnt, s2) := read_digits s1' 0%N O in
          match icnt, fcnt with
          | O, O => (0%N, O, s1)
          | _, _ => (fp, fcnt, s2)
          end
      | _ => (0%N, O, s1)
      end in
    match icnt, fcnt with
    | O, O => None
    | _, _ =>
        let '(e, rest) := read_exponent s2 in
        let mant := (Z.of_N ip * pow10 fcnt + Z.of_N fp) in
        Some (round64 (inject_Z mant * Qpow10 (e - Z.of_nat fcnt)), rest)
    end.

Definition read_decimal (s : string) : option (number * string) :=
  let '(sg, s1) := read_sign s in
  match read_unsigned s1 with
  | Some (x, rest) => Some (if sg <? 0 then num_neg x else x, rest)
  | None => None
  end.

(** [parseFloat(s)]: leading white space is skipped, then the longest
    prefix that is a decimal literal is read; NaN when there is none. *)
Definition parseFloat_string (s : string) : number :=
  match read_decimal (trimStart s) with
  | Some (x, _) => x
  | None => NaN
  end.

(** [Number(s)] for decimal literals: the whole trimmed string must be one
    (hexadecimal, octal and binary literals are not modelled). *)
Definition Number_of_string (s : string) : number :=
  match trim s with
  | EmptyString => Fin 0
  | t =>
      match read_decimal t with
      | Some (x, EmptyString) => x
      | _ => NaN
      end
  end.

(** ** Values *)

(** The values a raw record can hold.  [VObject str] is an array or an
    object, known by the string its ToString conversion gives. *)
Inductive value :=
| VUndefined
| VNull
| VBool (b : bool)
| VNumber (n : number)
| VString (s : string)
| VObject (str : string).

Definition ToBoolean (v : value) : bool :=
  match v with
  | VUndefined | VNull => false
  | VBool b => b
  | VNumber NaN => false
  | VNumber (Fin q) => negb (Qsign q =? 0)
  | VNumber _ => true
  | VString EmptyString => false
  | VString _ => true
  | VObject _ => true
  end.

Definition ToString (v : value) : string :=
  match v with
  | VUndefined => "undefined"
  | VNull => "null"
  | VBool true => "true"
  | VBool false => "false"
  | VNumber n => Number_toString n
  | VString s => s
  | VObject str => str
  end.

(** [a || b] *)
Definition or_else (a b : value) : value := if ToBoolean a then a else b.
Declare Scope js_scope.
Delimit Scope js_scope with js.
Notation "a || b" := (or_else a b) (at level 50, left associativity) : js_scope.

(** [a ?? b] *)
Definition nullish_else (a b : value) : value :=
  match a with
  | VUndefined | VNull => b
  | _ => a
  end.

(** [parseFloat(v)] converts its argument to a string first. *)
Definition parseFloat (v : value) : number := parseFloat_string (ToString v).

(** Strict equality of a value with a string literal. *)
Definition is_string (v : value) (s : string) : bool :=
  match v with
  | VString t => String.eqb t s
  | _ => false
  end.

(** A raw record: the own properties of a plain object. *)
Definition record := list (string * value).

(** [load.name]: the first own property of that name, else undefined. *)
Fixpoint get (r : record) (name : string) : value :=
  match r with
  | [] => VUndefined
  | (k, v) :: r' => if String.eqb k name then v else get r' name
  end.

(** ** Dates *)

Definition msPerDay : Z := 86400000.

(** Day number (days since 1970-01-01) to year, month (1..12) and day of
    the month, in the proleptic Gregorian calendar. *)
Definition civil_from_days (days : Z) : Z * Z * Z :=
  let z := days + 719468 in
  let era := z / 146097 in
  let doe := z - era * 146097 in
  let yoe := (doe - doe / 1460 + doe / 36524 - doe / 146096) / 365 in
  let doy := doe - (365 * yoe + yoe / 4 - yoe / 100) in
  let mp := (5 * doy + 2) / 153 in
  let d := doy - (153 * mp + 2) / 5 + 1 in
  let m := if mp <? 10 then mp + 3 else mp - 9 in
  ((yoe + era * 400) + (if m <=? 2 then 1 else 0), m, d).

(** MakeDay, for a month in 1..12. *)
Definition days_from_civil (y m d : Z) : Z :=
  let y' := if m <=? 2 then y - 1 else y in
  let era := y' / 400 in
  let yoe := y' - era * 400 in
  let doy := (153 * (if 2 <? m then m - 3 else m + 9) + 2) / 5 + d - 1 in
  let doe := yoe * 365 + yoe / 4 - yoe / 100 + doy in
  era * 146097 + doe - 719468.

Definition Day (t : Z) : Z := t / msPerDay.
Definition TimeWithinDay (t : Z) : Z := t mod msPerDay.

(** What the host decides. *)
Record Host := {
  (** the time value [new Date()] reads *)
  Date_now : Z;
  (** LocalTZA(t, isUTC): the offset of local time in milliseconds *)
  LocalTZA : Z -> bool -> Z;
  (** Date.parse on a string that is not in the ISO format *)
  Date_parse_fallback : string -> option Z;
  (** toLocaleDateString(locale) on a valid time value *)
  Date_toLocaleDateString : option string -> Z -> string;
}.

(** A Date object: its time value, [None] for NaN (an Invalid Date). *)
Definition Date := option Z.

Definition TimeClip (t : Z) : Date :=
  if Z.abs t <=? 8640000000000000 then Some t else None.

Definition LocalTime (h : Host) (t : Z) : Z := t + LocalTZA h t true.
Definition UTC (h : Host) (t : Z) : Z := t - LocalTZA h t false.

(** Exactly [n] digits at the head of [s]. *)
Fixpoint take_digits (n : nat) (s : string) (acc : Z) : option (Z * string) :=
  match n with
  | O => Some (acc, s)
  | S n' =>
      match s with
      | String c s' =>
          if is_digit c then take_digits n' s' (10 * acc + Z.of_N (digit_val c)) else None
      | EmptyString => None
      end
  end.

Definition is_leap (y : Z) : bool :=
  ((y mod 4 =? 0) && negb (y mod 100 =? 0)) || (y mod 400 =? 0).

Definition days_in_month (y m : Z) : Z :=
  if m =? 2 then (if is_leap y then 29 else 28)
  else if (m =? 4) || (m =? 6) || (m =? 9) || (m =? 11) then 30 else 31.

(** The optional part [-NN] of an ISO date; 1 when it is left out. *)
Definition iso_dash_field (s : string) : option (Z * string) :=
  match s with
  | String "-" s' => take_digits 2 s' 0
  | _ => Some (1, s)
  end.

(** [HH:mm], [HH:mm:ss] or [HH:mm:ss.sss]: milliseconds in the day. *)
Definition iso_time (s : string) : option (Z * string) :=
  match take_digits 2 s 0 with
  | Some (hh, String ":" s1) =>
      match take_digits 2 s1 0 with
      | Some (mi, s2) =>
          let sec :=
            match s2 with
            | String ":" s3 =>
                match take_digits 2 s3 0 with
                | Some (ss, String "." s4) =>
                    match take_digits 3 s4 0 with
                    | Some (ms, s5) => Some (ss, ms, s5)
                    | None => None
                    end
                | Some (ss, s4) => Some (ss, 0, s4)
                | None => None
                end
            | _ => Some (0, 0, s2)
            end in
          match sec with
          | Some (ss, ms, rest) =>
              if ((hh <=? 23) && (mi <=? 59) && (ss <=? 59))
                 || ((hh =? 24) && (mi =? 0) && (ss =? 0) && (ms =? 0))
              then Some (((hh * 60 + mi) * 60 + ss) * 1000 + ms, rest)
              else None
          | None => None
          end
      | None => None
      end
  | _ => None
  end.

(** The time zone designator: [Z] or [+HH:mm] / [-HH:mm], as the offset to
    subtract in milliseconds; [None] inside when there is no designator. *)
Definition iso_zone (s : string) : option (option Z) :=
  match s with
  | EmptyString => Some None
  | String "Z" EmptyString => Some (Some 0)
  | String c s' =>
      if (Ascii.eqb c "+" || Ascii.eqb c "-")%bool then
        match take_digits 2 s' 0 with
        | Some (hh, String ":" s1) =>
            match take_digits 2 s1 0 with
            | Some (mi, EmptyString) =>
                if (hh <=? 23) && (mi <=? 59) then
                  Some (Some ((if Ascii.eqb c "-" then -1 else 1) * (hh * 60 + mi) * 60000))
                else None
            | _ => None
            end
        | _ => None
        end
      else None
  end.

(** Date.parse on the ECMAScript date-time string format.  A date alone is
    UTC; a date and time without a zone designator is local time. *)
Definition parse_iso (h : Host) (s : string) : option Z :=
  let year :=
    match s with
    | String "+" s' => take_digits 6 s' 0
    | String "-" s' =>
        match take_digits 6 s' 0 with
        | Some (0, _) => None
        | Some (y, rest) => Some (- y, rest)
        | None => None
        end
    | _ => take_digits 4 s 0
    end in
  match year with
  | Some (y, s1) =>
      match iso_dash_field s1 with
      | Some (m, s2) =>
          match (match s1 with String "-" _ => iso_dash_field s2 | _ => Some (1, s2) end) with
          | Some (d, s3) =>
              if (1 <=? m) && (m <=? 12) && (1 <=? d) && (d <=? days_in_month y m) then
                let day := days_from_civil y m d in
                match s3 with
                | EmptyString => Some (day * msPerDay)
                | String "T" s4 =>
                    match iso_time s4 with
                    | Some (ms, s5) =>
                        match iso_zone s5 with
                        | Some (Some off) => Some (day * msPerDay + ms - off)
                        | Some None => Some (UTC h (day * msPerDay + ms))
                        | None => None
                        end
                    | None => None
                    end
                | _ => None
                end
              else None
          | None => None
          end
      | None => None
      end
  | None => None
  end.

Definition Date_parse (h : Host) (s : string) : Date :=
  match (match parse_iso h s with
         | Some t => Some t
         | None => Date_parse_fallback h s
         end) with
  | Some t => TimeClip t
  | None => None
  end.

(** ToIntegerOrInfinity on a finite number: truncation towards zero. *)
Definition Qtrunc (q : Q) : Z := Z.quot (Qnum q) (Zpos (Qden q)).

(** [new Date(v)] *)
Definition Date_new (h : Host) (v : value) : Date :=
  match v with
  | VString s => Date_parse h s
  | VObject str => Date_parse h str
  | VNumber (Fin q) => TimeClip (Qtrunc q)
  | VNumber _ => None
  | VUndefined => None
  | VNull => TimeClip 0
  | VBool b => TimeClip (if b then 1 else 0)
  end.

(** [new Date()] *)
Definition Date_current (h : Host) : Date := Some (Date_now h).

Definition date_field (h : Host) (f : Z * Z * Z -> Z) (d : Date) : number :=
  match d with
  | Some t => num_of_Z (f (civil_from_days (Day (LocalTime h t))))
  | None => NaN
  end.

(** [d.getMonth()], from 0 *)
Definition getMonth (h : Host) (d : Date) : number :=
  date_field h (fun '(_, m, _) => m - 1) d.
Definition getDate (h : Host) (d : Date) : number :=
  date_field h (fun '(_, _, dd) => dd) d.
Definition getFullYear (h : Host) (d : Date) : number :=
  date_field h (fun '(y, _, _) => y) d.

(** [d.setDate(d.getDate() + n)]: n days later at the same local time. *)
Definition addDays (h : Host) (n : Z) (d : Date) : Date :=
  match d with
  | Some t =>
      match TimeClip (UTC h (LocalTime h t + n * msPerDay)) with
      | Some t' => Some t'
      | None => None
      end
  | None => None
  end.

(** [d.toLocaleDateString(locale)] *)
Definition toLocaleDateString (h : Host) (locale : option string) (d : Date) : string :=
  match d with
  | Some t => Date_toLocaleDateString h locale t
  | None => "Invalid Date"
  end.

Definition pad_int (n : nat) (z : Z) : string := padStart0 n (Z_to_string z).

(** [new Date().toISOString()], on the time value the host reads. *)
Definition toISOString (t : Z) : string :=
  let '(y, m, d) := civil_from_days (Day t) in
  let ms := TimeWithinDay t in
  let year :=
    if (0 <=? y) && (y <=? 9999) then pad_int 4 y
    else (if y <? 0 then "-" else "+") ++ pad_int 6 (Z.abs y) in
  year ++ "-" ++ pad_int 2 m ++ "-" ++ pad_int 2 d ++ "T"
    ++ pad_int 2 (ms / 3600000) ++ ":" ++ pad_int 2 (ms / 60000 mod 60) ++ ":"
    ++ pad_int 2 (ms / 1000 mod 60) ++ "." ++ pad_int 3 (ms mod 1000) ++ "Z".

(** ** The export module *)

(** *** CONFIG *)

Module CONFIG.
Definition INCOME_ACCOUNT : string := "LEED Compliance Services".
Definition AR_ACCOUNT : string := "Accounts Receivable".
Definition CLASS_PREFIX : string := "LEED-".
Definition RATE_PER_TON : number := Fin 125.
Definition COMPANY_NAME : string := "DalMex Recycling & Pallets".
Definition TAX_CODE : string := "Non".
Definition TERMS : string := "Net 30".
Definition MEMO_PREFIX : string := "DivertScan Load".
Definition IIF_VERSION : string := "1".
End CONFIG.

(** *** Canonical loads and the normalizer *)

Module Canonical.
Record load := {
  id : value;
  date : value;
  ticketNumber : value;
  hauler : value;
  truckId : value;
  weightTons : number;
  weightLbs : number;
  materialType : value;
  carbonSaved : number;
  hash : value;
  projectId : value;
  projectName : value;
  notes : value;
}.
End Canonical.

Definition ZERO : value := VNumber (Fin 0).

Definition normalizeLoad (h : Host) (load : record) : Canonical.load :=
  let f := get load in
  ({| Canonical.id := f "id" || f "loadId" || f "load_id" || VString "N/A";
     Canonical.date :=
       f "date" || f "loadDate" || f "load_date" || f "created_at"
         || VString (toISOString (Date_now h));
     Canonical.ticketNumber :=
       f "ticketNumber" || f "ticket_number" || f "ticket" || VString EmptyString;
     Canonical.hauler :=
       f "hauler" || f "haulerName" || f "hauler_name" || VString EmptyString;
     Canonical.truckId :=
       f "truckId" || f "truck_id" || f "vehicle" || VString EmptyString;
     Canonical.weightTons :=
       parseFloat (f "weightTons" || f "weight_tons" || f "net_weight_tons"
                     || f "netWeightTons" || ZERO);
     Canonical.weightLbs :=
       parseFloat (f "weightLbs" || f "weight_lbs" || f "net_weight_lbs" || ZERO);
     Canonical.materialType :=
       f "materialType" || f "material_type" || f "material" || VString "Mixed C&D";
     Canonical.carbonSaved :=
       parseFloat (f "carbonSaved" || f "carbon_saved" || f "co2e_savings" || ZERO);
     Canonical.hash :=
       f "hash" || f "sha256Hash" || f "sha256_hash" || VString EmptyString;
     Canonical.projectId := f "projectId" || f "project_id" || VString "UNASSIGNED";
     Canonical.projectName :=
       f "projectName" || f "project_name" || VString "Unassigned Project";
     Canonical.notes := f "notes" || VString EmptyString |})%js.

(** *** The date formatter *)

Definition toQBDate (h : Host) (isoString : value) : string :=
  try_catch
    (let d := Date_new h isoString in
     let mm := padStart0 2 (Number_toString (num_add (getMonth h d) (Fin 1))) in
     let dd := padStart0 2 (Number_toString (getDate h d)) in
     let yyyy := getFullYear h d in
     Ok (mm ++ "/" ++ dd ++ "/" ++ Number_toString yyyy))
    (fun _ => toLocaleDateString h (Some "en-US") (Date_current h)).

(** *** The weight resolver *)

Definition resolveWeightTons (load : Canonical.load) : number :=
  if num_gt (Canonical.weightTons load) (Fin 0) then Canonical.weightTons load
  else if num_gt (Canonical.weightLbs load) (Fin 0) then
    Number_of_string (toFixed 4 (num_div (Canonical.weightLbs load) (Fin 2000)))
  else Fin 0.

(** ** Plain objects used as maps *)

(** The property names every plain object inherits from Object.prototype. *)
Definition Object_prototype_names : list string :=
  [ "constructor"; "__defineGetter__"; "__defineSetter__"; "hasOwnProperty";
    "__lookupGetter__"; "__lookupSetter__"; "isPrototypeOf"; "propertyIsEnumerable";
    "toString"; "valueOf"; "__proto__"; "toLocaleString" ].

Definition inherited (key : string) : bool :=
  existsb (String.eqb key) Object_prototype_names.

(** An object literal [{}] filled by assignment: its own properties in the
    order they were created. *)
Definition object (A : Type) := list (string * A).

(** What [obj[key]] finds: an own property, a property of Object.prototype
    (a function or an object, so truthy, and none of the module's data), or
    nothing (undefined). *)
Inductive slot (A : Type) :=
| Own (a : A)
| Inherited
| Absent.
Arguments Own {A} a.
Arguments Inherited {A}.
Arguments Absent {A}.

Fixpoint own {A} (o : object A) (key : string) : option A :=
  match o with
  | [] => None
  | (k, a) :: o' => if String.eqb k key then Some a else own o' key
  end.

Definition lookup {A} (o : object A) (key : string) : slot A :=
  match own o key with
  | Some a => Own a
  | None => if inherited key then Inherited else Absent
  end.

(** Mutation of the object held under an own property. *)
Fixpoint update {A} (o : object A) (key : string) (f : A -> A) : object A :=
  match o with
  | [] => []
  | (k, a) :: o' =>
      if String.eqb k key then (k, f a) :: o' else (k, a) :: update o' key f
  end.

(** [obj[key] = a] for a key that is not yet an own property. *)
Definition define {A} (o : object A) (key : string) (a : A) : object A :=
  (o ++ [(key, a)])%list.

(** A property key that is an array index: the canonical decimal form of an
    integer from 0 to 2^32 - 2. *)
Definition array_index (key : string) : option N :=
  let '(n, cnt, rest) := read_digits key 0%N O in
  match cnt, rest with
  | S _, EmptyString =>
      if (String.eqb (N_digits n) key && (n <=? 4294967294)%N)%bool then Some n else None
  | _, _ => None
  end.

Fixpoint insert_index {A} (i : N) (e : string * A) (l : list (N * (string * A)))
  : list (N * (string * A)) :=
  match l with
  | [] => [(i, e)]
  | (j, e') :: l' =>
      if (i <? j)%N then (i, e) :: l else (j, e') :: insert_index i e l'
  end.

Fixpoint index_entries {A} (o : object A) : list (N * (string * A)) :=
  match o with
  | [] => []
  | e :: o' =>
      match array_index (fst e) with
      | Some i => insert_index i e (index_entries o')
      | None => index_entries o'
      end
  end.

Definition is_index (key : string) : bool :=
  match array_index key with Some _ => true | None => false end.

(** [Object.entries(obj)]: array-index keys in ascending order, then the
    other keys in creation order. *)
Definition Object_entries {A} (o : object A) : list (string * A) :=
  (map snd (index_entries o) ++ filter (fun e => negb (is_index (fst e))) o)%list.

(** *** Project grouping *)

Module Group.
Record t := {
  projectId : value;
  projectName : value;
  loads : list record;
}.
(** [group.loads.push(load)] *)
Definition push (load : record) (g : t) : t :=
  {| projectId := projectId g; projectName := projectName g;
     loads := (loads g ++ [load])%list |}.
End Group.

Definition project_key (load : record) : value :=
  (get load "projectId" || get load "project_id" || VString "UNASSIGNED")%js.

(** One call of the reducer of [groupByProject]. *)
Definition groupByProject_step (acc : object Group.t) (load : record)
  : result (object Group.t) :=
  let key := project_key load in
  let name := ToString key in
  let acc :=
    match lookup acc name with
    | Absent =>
        define acc name
          {| Group.projectId := key;
             Group.projectName :=
               (get load "projectName" || get load "project_name" || key)%js;
             Group.loads := [] |}
    | _ => acc
    end in
  match lookup acc name with
  | Own _ => Ok (update acc name (Group.push load))
  | Inherited => Throw (TypeError "Cannot read properties of undefined (reading 'push')")
  | Absent => Throw (TypeError "Cannot read properties of undefined (reading 'loads')")
  end.

Definition groupByProject (loads : list record) : result (object Group.t) :=
  foldM groupByProject_step loads [].

(** ** The load resolver *)

(** What the local store answers. *)
Inductive local_source :=
| IndexedDB_unavailable           (* the open request fails *)
| No_object_store                 (* neither a loads nor a scans store *)
| Read_failed                     (* the getAll request fails *)
| Stored (all : list record).

(** What the remote service answers: a failure (network error, abort after
    the timeout, a status that is not OK, a body that is not JSON), an object
    with a [loads] array, or a bare array. *)
Inductive remote_response :=
| Remote_failed
| Remote_loads (loads : list record)
| Remote_array (loads : list record).

Record Sources := {
  local : local_source;
  onLine : bool;
  remote : value -> remote_response;
}.

(** The queries a call makes, in order. *)
Inductive event :=
| LocalQuery
| RemoteQuery (projectId : value).

(** An asynchronous function: it adds its queries to the log and settles
    with a value or a rejection. *)
Definition async (A : Type) := list event -> list event * result A.

Definition resolve {A} (a : A) : async A := fun log => (log, Ok a).
Definition reject {A} (e : error) : async A := fun log => (log, Throw e).
Definition emit (ev : event) : async unit := fun log => ((log ++ [ev])%list, Ok tt).

(** [await] *)
Definition await {A B} (m : async A) (k : A -> async B) : async B :=
  fun log =>
    match m log with
    | (log', Ok a) => k a log'
    | (log', Throw e) => (log', Throw e)
    end.

Notation "x <~ m ;; k" := (await m (fun x => k))
  (at level 61, m at next level, right associativity).

(** [promise.catch(handler)] *)
Definition catch {A} (m : async A) (handler : error -> A) : async A :=
  fun log =>
    match m log with
    | (log', Ok a) => (log', Ok a)
    | (log', Throw e) => (log', Ok (handler e))
    end.

Definition confirmed (l : record) : bool :=
  negb (is_string (get l "status") "draft")
  && negb (is_string (get l "status") "pending_upload").

Definition in_scope (projectId : value) (l : record) : bool :=
  String.eqb (ToString (get l "projectId")) (ToString projectId).

Definition getLoadsFromDB (src : Sources) (projectId : value) : async (list record) :=
  _ <~ emit LocalQuery ;;
  match local src with
  | IndexedDB_unavailable => reject (Error "IndexedDB unavailable")
  | No_object_store => resolve []
  | Read_failed => reject (Error "Failed to read loads from IndexedDB")
  | Stored all =>
      let loads := all in
      let loads := if ToBoolean projectId then filter (in_scope projectId) loads else loads in
      let loads := filter confirmed loads in
      resolve loads
  end.

(** [None] is the [null] that signals a failed request. *)
Definition getLoadsFromAPI (src : Sources) (projectId : value)
  : async (option (list record)) :=
  _ <~ emit (RemoteQuery projectId) ;;
  match remote src projectId with
  | Remote_failed => resolve None
  | Remote_loads loads => resolve (Some loads)
  | Remote_array loads => resolve (Some loads)
  end.

Definition NO_DATA : string := "No confirmed loads found. Check that loads are synced.".

Definition is_empty {A} (l : list A) : bool :=
  match l with [] => true | _ => false end.

Definition resolveLoads (src : Sources) (projectId : value) : async (list record) :=
  loads <~ catch (getLoadsFromDB src projectId) (fun _ => []) ;;
  loads <~ (if is_empty loads && onLine src then
              apiLoads <~ getLoadsFromAPI src projectId ;;
              match apiLoads with
              | Some l => if negb (is_empty l) then resolve l else resolve loads
              | None => resolve loads
              end
            else resolve loads) ;;
  if is_empty loads then reject (Error NO_DATA) else resolve loads.

(** ** The serializers *)

(** One reducer call of the grouping by invoice date. *)
Definition byDate_step (h : Host) (acc : object (list Canonical.load))
  (l : Canonical.load) : result (object (list Canonical.load)) :=
  let dateKey := toQBDate h (Canonical.date l) in
  let acc :=
    match lookup acc dateKey with
    | Absent => define acc dateKey []
    | _ => acc
    end in
  match lookup acc dateKey with
  | Own _ => Ok (update acc dateKey (fun dayLoads => dayLoads ++ [l])%list)
  | _ => Throw (TypeError "acc[dateKey].push is not a function")
  end.

Definition byDate (h : Host) (loads : list Canonical.load)
  : result (object (list Canonical.load)) :=
  foldM (byDate_step h) loads [].

(** [s.replace(...)] exists on strings only. *)
Definition as_string (what : string) (v : value) : result string :=
  match v with
  | VString s => Ok s
  | _ => Throw (TypeError (what ++ " is not a function"))
  end.

(** [array.filter(Boolean).join(sep)] on an array of values. *)
Definition filter_join (sep : string) (xs : list value) : string :=
  join sep (map ToString (filter ToBoolean xs)).

(** The amount of one load before formatting: tons times the rate. *)
Definition line_value (l : Canonical.load) : number :=
  num_mul (resolveWeightTons l) CONFIG.RATE_PER_TON.

(** A document number bound by a serializer: the project key, the invoice
    date and the number.  The serializers keep this list beside their
    output lines; it is how properties speak of the numbering and takes no
    part in the output. *)
Definition issue := (string * string * string)%type.

(** The state of a serializer loop: the invoice counter, the lines pushed
    so far and the document numbers bound so far. *)
Definition builder := (Z * list string * list issue)%type.

(** *** Format A: IIF *)

Definition IIF_HEADER : list string :=
  [ join TAB ["!TRNS"; "TRNSTYPE"; "DATE"; "ACCNT"; "NAME"; "CLASS"; "AMOUNT"; "DOCNUM";
              "MEMO"; "CLEAR"; "TOPRINT"; "TERMS"];
    join TAB ["!SPL"; "TRNSTYPE"; "DATE"; "ACCNT"; "NAME"; "CLASS"; "AMOUNT"; "DOCNUM";
              "MEMO"; "CLEAR"; "QNTY"; "PRICE"; "INVITEM"];
    "!ENDTRNS" ].

(** The regular expression [[^a-zA-Z0-9\s\-]]. *)
Definition iif_stripped (c : ascii) : bool :=
  negb (is_alpha c || is_digit c || is_space c || Ascii.eqb c "-").

Definition iif_class (projectName : string) : string :=
  CONFIG.CLASS_PREFIX ++ trim (replace_class iif_stripped EmptyString projectName).

(** [dayLoads.reduce((sum, l) => sum + tons(l) * rate, 0)] *)
Definition batch_value (dayLoads : list Canonical.load) : number :=
  fold_left (fun sum l => num_add sum (line_value l)) dayLoads (Fin 0).

Definition iif_total (dayLoads : list Canonical.load) : string :=
  toFixed 2 (batch_value dayLoads).

Definition iif_line_amount (load : Canonical.load) : string :=
  toFixed 2 (line_value load).

Definition iif_memo (load : Canonical.load) : result string :=
  sha <- (if ToBoolean (Canonical.hash load) then
            s <- as_string "load.hash.substring" (Canonical.hash load) ;;
            Ok ("| SHA:" ++ substring0 8 s)
          else Ok EmptyString) ;;
  Ok (filter_join " "
        [ VString (CONFIG.MEMO_PREFIX ++ " #"
                     ++ ToString (Canonical.ticketNumber load || Canonical.id load)%js);
          Canonical.materialType load;
          VString (if ToBoolean (Canonical.hauler load)
                   then "| " ++ ToString (Canonical.hauler load) else EmptyString);
          VString sha ]).

Definition iif_spl (projectName qbClass invoiceDate docNum : string)
  (lines : list string) (load : Canonical.load) : result (list string) :=
  let tons := resolveWeightTons load in
  let lineAmount := iif_line_amount load in
  memo <- iif_memo load ;;
  let line :=
    join TAB [ "SPL"; "INVOICE"; invoiceDate; CONFIG.INCOME_ACCOUNT; projectName;
               qbClass; "-" ++ lineAmount; docNum; memo; "N"; toFixed 4 tons;
               toFixed 2 CONFIG.RATE_PER_TON; "LEED Compliance Documentation" ] in
  Ok (lines ++ [line])%list.

Definition iif_trns (projectName qbClass invoiceDate docNum invoiceTotal : string) : string :=
  join TAB [ "TRNS"; "INVOICE"; invoiceDate; CONFIG.AR_ACCOUNT; projectName; qbClass;
             invoiceTotal; docNum; "LEED Compliance Documentation - " ++ projectName;
             "N"; "Y"; CONFIG.TERMS ].

(** The body of the loop over the invoice dates of one project. *)
Definition iif_invoice (projectId projectName qbClass : string) (st : builder)
  (entry : string * list Canonical.load) : result builder :=
  let '(invoiceNumber, lines, issued) := st in
  let '(invoiceDate, dayLoads) := entry in
  let docNum := "DS-" ++ Z_to_string invoiceNumber in
  let invoiceNumber := invoiceNumber + 1 in
  let invoiceTotal := iif_total dayLoads in
  let lines := (lines ++ [iif_trns projectName qbClass invoiceDate docNum invoiceTotal])%list in
  lines <- foldM (iif_spl projectName qbClass invoiceDate docNum) dayLoads lines ;;
  Ok (invoiceNumber, (lines ++ ["ENDTRNS"])%list,
      (issued ++ [(projectId, invoiceDate, docNum)])%list).

(** The body of the loop over the projects. *)
Definition iif_project (h : Host) (st : builder) (entry : string * Group.t)
  : result builder :=
  let '(projectId, group) := entry in
  projectName <- as_string "projectName.replace" (Group.projectName group) ;;
  let qbClass := iif_class projectName in
  let loads := map (normalizeLoad h) (Group.loads group) in
  dates <- byDate h loads ;;
  foldM (iif_invoice projectId projectName qbClass) (Object_entries dates) st.

Definition buildIIF_run (h : Host) (projectGroups : object Group.t) : result builder :=
  foldM (iif_project h) (Object_entries projectGroups) (1000, IIF_HEADER, []).

Definition buildIIF (h : Host) (projectGroups : object Group.t) : result string :=
  st <- buildIIF_run h projectGroups ;;
  let '(_, lines, _) := st in Ok (join CRLF lines).

(** *** Format B: CSV *)

Definition CSV_HEADER : string :=
  join "," [ "InvoiceNo"; "Customer"; "InvoiceDate"; "DueDate"; "Terms"; "ItemName";
             "ItemDescription"; "Qty"; "Rate"; "Amount"; "Class"; "Memo";
             "SHA256_Audit_Hash"; "LoadTicket"; "MaterialType"; "Hauler"; "TruckID";
             "CarbonSavedTons" ].

(** The character class of the regular expression in [buildCSV]: a comma,
    a double quote or a line feed. *)
Definition csv_replaced (c : ascii) : bool :=
  let n := nat_of_ascii c in ((n =? 44) || (n =? 34) || (n =? 10))%nat.

Definition csv_class (projectName : string) : string :=
  CONFIG.CLASS_PREFIX ++ trim (replace_class csv_replaced " " projectName).

(** [safe(val)]: the value as a string in double quotes, each inner double
    quote doubled. *)
Definition safe (val : value) : string :=
  DQUOTE
    ++ replace_class (fun c => (nat_of_ascii c =? 34)%nat) (DQUOTE ++ DQUOTE)
         (ToString (nullish_else val (VString EmptyString)))
    ++ DQUOTE.

Definition csv_dueDate (h : Host) (invoiceDate : string) : string :=
  try_catch
    (let d := Date_new h (VString invoiceDate) in
     let d := addDays h 30 d in
     Ok (toLocaleDateString h (Some "en-US") d))
    (fun _ => EmptyString).

(** [x || 0] on numbers *)
Definition num_or_zero (x : number) : number :=
  if ToBoolean (VNumber x) then x else Fin 0.

Definition csv_row (h : Host) (projectName qbClass invoiceDate dueDate docNum : string)
  (load : Canonical.load) : string :=
  let tons := resolveWeightTons load in
  let amount := toFixed 2 (line_value load) in
  let ticket := (Canonical.ticketNumber load || Canonical.id load)%js in
  let description :=
    filter_join " | "
      [ VString "LEED v5 MRp2 Compliance Documentation";
        VString ("Load #" ++ ToString ticket);
        VString (ToString (Canonical.materialType load));
        VString (if ToBoolean (Canonical.hauler load)
                 then "Hauler: " ++ ToString (Canonical.hauler load) else EmptyString) ] in
  join ","
    [ safe (VString docNum); safe (VString projectName); safe (VString invoiceDate);
      safe (VString dueDate); safe (VString CONFIG.TERMS);
      safe (VString "LEED Compliance Documentation"); safe (VString description);
      toFixed 4 tons; toFixed 2 CONFIG.RATE_PER_TON; amount; safe (VString qbClass);
      safe (VString ("DivertScan Export | "
                       ++ toLocaleDateString h None (Date_current h)));
      safe (Canonical.hash load || VString EmptyString)%js; safe ticket;
      safe (Canonical.materialType load); safe (Canonical.hauler load);
      safe (Canonical.truckId load);
      toFixed 4 (num_or_zero (Canonical.carbonSaved load)) ].

Definition csv_invoice (h : Host) (projectId projectName qbClass : string) (st : builder)
  (entry : string * list Canonical.load) : result builder :=
  let '(invoiceNumber, rows, issued) := st in
  let '(invoiceDate, dayLoads) := entry in
  let docNum := "DS-" ++ Z_to_string invoiceNumber in
  let invoiceNumber := invoiceNumber + 1 in
  let dueDate := csv_dueDate h invoiceDate in
  let rows :=
    fold_left
      (fun rows load =>
         rows ++ [csv_row h projectName qbClass invoiceDate dueDate docNum load])%list
      dayLoads rows in
  Ok (invoiceNumber, rows, (issued ++ [(projectId, invoiceDate, docNum)])%list).

Definition csv_project (h : Host) (st : builder) (entry : string * Group.t)
  : result builder :=
  let '(projectId, group) := entry in
  projectName <- as_string "projectName.replace" (Group.projectName group) ;;
  let qbClass := csv_class projectName in
  let loads := map (normalizeLoad h) (Group.loads group) in
  dates <- byDate h loads ;;
  foldM (csv_invoice h projectId projectName qbClass) (Object_entries dates) st.

Definition buildCSV_run (h : Host) (projectGroups : object Group.t) : result builder :=
  foldM (csv_project h) (Object_entries projectGroups) (1000, [CSV_HEADER], []).

Definition buildCSV (h : Host) (projectGroups : object Group.t) : result string :=
  st <- buildCSV_run h projectGroups ;;
  let '(_, rows, _) := st in Ok (join CRLF rows).

(** The document numbers a run bound, in order. *)
Definition issued_by (run : result builder) : result (list issue) :=
  st <- run ;; let '(_, _, issued) := st in Ok issued.

(** ** File names, summaries and the public operations *)

(** *** The file name builder *)

(** The regular expression [[^a-zA-Z0-9\-]]. *)
Definition filename_replaced (c : ascii) : bool :=
  negb (is_alpha c || is_digit c || Ascii.eqb c "-").

(** [s.split('T')[0]]: the text before the first T. *)
Fixpoint before_T (s : string) : string :=
  match s with
  | String c s' => if Ascii.eqb c "T" then EmptyString else String c (before_T s')
  | EmptyString => EmptyString
  end.

Definition buildFilename (h : Host) (projectName : value) (ext : string) : result string :=
  let date := before_T (toISOString (Date_now h)) in
  name <- as_string "(projectName || 'AllProjects').replace"
            (projectName || VString "AllProjects")%js ;;
  let cleaned := replace_class filename_replaced "_" name in
  Ok ("DivertScan_QB_" ++ cleaned ++ "_" ++ date ++ "." ++ ext).

(** *** Summary statistics *)

Module Summary.
Record t := {
  projectName : value;
  loadCount : nat;
  totalTons : string;
  totalRevenue : string;
  totalCarbonSaved : string;
}.
End Summary.

(** The label after the emissions total: [ tons CO2e] with a subscript two,
    held as the three bytes of its UTF-8 form. *)
Definition CARBON_UNIT : string := " tons CO" ++ chr 226 ++ chr 130 ++ chr 130 ++ "e".

(** [obj[key] = a] on a plain object: a new own property goes last, an
    existing one keeps its place, and the key __proto__ reaches the setter
    of Object.prototype, which adds no own property. *)
Definition assign {A} (o : object A) (key : string) (a : A) : object A :=
  if String.eqb key "__proto__" then o
  else
    match own o key with
    | Some _ => update o key (fun _ => a)
    | None => define o key a
    end.

Definition summarize (h : Host) (group : Group.t) : Summary.t :=
  let loads := map (normalizeLoad h) (Group.loads group) in
  let totalTons := fold_left (fun s l => num_add s (resolveWeightTons l)) loads (Fin 0) in
  let totalRevenue := num_mul totalTons CONFIG.RATE_PER_TON in
  let totalCarbon :=
    fold_left (fun s l => num_add s (num_or_zero (Canonical.carbonSaved l))) loads (Fin 0) in
  {| Summary.projectName := Group.projectName group;
     Summary.loadCount := List.length loads;
     Summary.totalTons := toFixed 2 totalTons;
     Summary.totalRevenue := "$" ++ toFixed 2 totalRevenue;
     Summary.totalCarbonSaved := toFixed 2 totalCarbon ++ CARBON_UNIT |}.

Definition buildSummary (h : Host) (projectGroups : object Group.t) : object Summary.t :=
  fold_left (fun summary entry => assign summary (fst entry) (summarize h (snd entry)))
    (Object_entries projectGroups) [].

(** *** The public operations *)

(** [err.message] *)
Definition error_message (e : error) : string :=
  match e with
  | TypeError msg => msg
  | Error msg => msg
  end.

(** One call of [triggerDownload]. *)
Record download := {
  content : string;
  filename : string;
  mimeType : string;
}.

(** What an export returns: [{ success: true, summary, format, filename }] or
    [{ success: false, error }]. *)
Inductive export_result :=
| Success (summary : object Summary.t) (format filename : string)
| Failure (message : string).

(** What a call of an export did and returned: the queries to the sources,
    the downloads it triggered and its result.  The lines written to the
    console are left out. *)
Definition export_run := (list event * list download * export_result)%type.

(** [projectId ? (Object.values(groups)[0]?.projectName || projectId) : null] *)
Definition export_name (projectId : value) (groups : object Group.t) : value :=
  if ToBoolean projectId then
    ((match Object_entries groups with
      | (_, g) :: _ => Group.projectName g
      | [] => VUndefined
      end) || projectId)%js
  else VNull.

(** The part of an export after the loads are resolved, for one format: its
    serializer, its extension and its MIME type.  A throw before the
    download leaves no download; one after it would leave the download. *)
Definition export_body (h : Host)
  (build : Host -> object Group.t -> result string) (format ext mime : string)
  (projectId : value) (outcome : result (list record)) : list download * export_result :=
  match
    (loads <- outcome ;;
     groups <- groupByProject loads ;;
     document <- build h groups ;;
     let summary := buildSummary h groups in
     let projectName := export_name projectId groups in
     name <- buildFilename h projectName ext ;;
     Ok (summary, projectName, {| content := document; filename := name; mimeType := mime |}))
  with
  | Throw e => ([], Failure (error_message e))
  | Ok (summary, projectName, d) =>
      match buildFilename h projectName ext with
      | Ok name => ([d], Success summary format name)
      | Throw e => ([d], Failure (error_message e))
      end
  end.

Definition generateIIF (h : Host) (src : Sources) (projectId : value)
  (log : list event) : export_run :=
  let '(log', outcome) := resolveLoads src projectId log in
  let '(downloads, returned) :=
    export_body h buildIIF "IIF" "iif" "text/plain;charset=utf-8" projectId outcome in
  (log', downloads, returned).

Definition generateCSV (h : Host) (src : Sources) (projectId : value)
  (log : list event) : export_run :=
  let '(log', outcome) := resolveLoads src projectId log in
  let '(downloads, returned) :=
    export_body h buildCSV "CSV" "csv" "text/csv;charset=utf-8" projectId outcome in
  (log', downloads, returned).




(** * Vocabulary of the properties *)

(** ** Texts and digits *)

(** Every character of the string satisfies [p]. *)
Fixpoint all_chars (p : ascii -> bool) (s : string) : bool :=
  match s with
  | String c s' => p c && all_chars p s'
  | EmptyString => true
  end.

(** The number a string of digits denotes, read after [acc]. *)
Fixpoint digits_value (s : string) (acc : N) : N :=
  match s with
  | String c s' => digits_value s' (10 * acc + digit_val c)%N
  | EmptyString => acc
  end.

Definition head_is_digit (s : string) : bool :=
  match s with
  | String c _ => is_digit c
  | EmptyString => false
  end.

(** The value of the literal [a.b] for two strings of digits. *)
Definition literal_value (a b : string) : Q :=
  Qred (inject_Z (Z.of_N (digits_value a 0) * pow10 (String.length b)
                  + Z.of_N (digits_value b 0))
        * Qpow10 (0 - Z.of_nat (String.length b))).

(** The rational [n / 10^f], in lowest terms. *)
Definition scaled (f : nat) (n : Z) : Q :=
  Qred (inject_Z n * Qpow10 (0 - Z.of_nat f)).

(** ** A sample host and sample loads *)

Module Sample.
(** [M/D/YYYY] in UTC. *)
Definition us_date (t : Z) : string :=
  let '(y, m, d) := civil_from_days (Day t) in
  Z_to_string m ++ "/" ++ Z_to_string d ++ "/" ++ Z_to_string y.

(** [MM/DD/YYYY], the one format outside ISO this host reads. *)
Definition parse_mdy (s : string) : option Z :=
  match take_digits 2 s 0 with
  | Some (m, String "/" s1) =>
      match take_digits 2 s1 0 with
      | Some (d, String "/" s2) =>
          match take_digits 4 s2 0 with
          | Some (y, EmptyString) =>
              if (1 <=? m) && (m <=? 12) && (1 <=? d) && (d <=? days_in_month y m)
              then Some (days_from_civil y m d * msPerDay) else None
          | _ => None
          end
      | _ => None
      end
  | _ => None
  end.

(** A host in UTC whose clock reads 2026-11-01T08:00:00.000Z. *)
Definition host : Host :=
  {| Date_now := 1793520000000;
     LocalTZA := fun _ _ => 0;
     Date_parse_fallback := parse_mdy;
     Date_toLocaleDateString := fun _ t => us_date t |}.

(** A canonical load known by its two weight fields. *)
Definition weighing (tons lbs : number) : Canonical.load :=
  {| Canonical.id := VString "N/A";
     Canonical.date := VString "2024-03-05";
     Canonical.ticketNumber := VString EmptyString;
     Canonical.hauler := VString EmptyString;
     Canonical.truckId := VString EmptyString;
     Canonical.weightTons := tons;
     Canonical.weightLbs := lbs;
     Canonical.materialType := VString "Mixed C&D";
     Canonical.carbonSaved := Fin 0;
     Canonical.hash := VString EmptyString;
     Canonical.projectId := VString "Alpha";
     Canonical.projectName := VString "Alpha";
     Canonical.notes := VString EmptyString |}.
End Sample.

(** ** Amounts of an invoice *)

(** The AMOUNT field of the SPL line of a load. *)
Definition spl_amount (load : Canonical.load) : string := "-" ++ iif_line_amount load.











(** ** Numeric fields of the normalizer *)








(** ** Formatted dates *)

(** The current date as the formatter prints dates. *)
Definition current_QBDate (h : Host) : string :=
  toQBDate h (VString (toISOString (Date_now h))).

(** ** Rules for the Class field *)

(** A letter, a digit, white space or a hyphen. *)
Definition class_char (c : ascii) : bool :=
  is_alpha c || is_digit c || is_space c || Ascii.eqb c "-".

(** The characters of [s] that satisfy [p], in order. *)
Fixpoint keep (p : ascii -> bool) (s : string) : string :=
  match s with
  | String c s' => if p c then String c (keep p s') else keep p s'
  | EmptyString => EmptyString
  end.

(** The rule of the specification: the prefix, then the display name with
    every character outside letters, digits, white space and hyphens
    stripped out, trimmed. *)
Definition Class_rule (projectName : string) : string :=
  "LEED-" ++ trim (keep class_char projectName).

(** What Format B does instead: each comma, double quote and line feed
    becomes a space; every other character stays. *)
Fixpoint blank_out (p : ascii -> bool) (s : string) : string :=
  match s with
  | String c s' => String (if p c then " "%char else c) (blank_out p s')
  | EmptyString => EmptyString
  end.

Definition Class_rule_csv (projectName : string) : string :=
  "LEED-" ++ trim (blank_out csv_replaced projectName).

(** ** What the two sources contribute *)

(** The records of the store within the scope of the call: all of them, or
    those of the project asked for. *)
Definition scoped (projectId : value) (all : list record) : list record :=
  if ToBoolean projectId then filter (in_scope projectId) all else all.

(** What the local source contributes: the confirmed records in scope, and
    nothing when the store cannot be read. *)
Definition local_confirmed (src : Sources) (projectId : value) : list record :=
  match local src with
  | Stored all => filter confirmed (scoped projectId all)
  | _ => []
  end.

(** What the remote source would contribute. *)
Definition remote_yield (src : Sources) (projectId : value) : list record :=
  match remote src projectId with
  | Remote_failed => []
  | Remote_loads l | Remote_array l => l
  end.

Definition load_with (projectId status : string) : record :=
  [("projectId", VString projectId); ("status", VString status)].

(** Three confirmed records and two unconfirmed ones, and a remote service
    that would answer. *)
Definition three_and_two : Sources :=
  {| local := Stored [ load_with "A" "confirmed"; load_with "A" "draft";
                       load_with "B" "confirmed"; load_with "B" "pending_upload";
                       load_with "C" "synced" ];
     onLine := true;
     remote := fun _ => Remote_loads [load_with "Z" "confirmed"] |}.

(** ** Groups as classes of records *)

(** The record belongs to the project whose property key is [name]. *)
Definition has_key (name : string) (l : record) : bool :=
  String.eqb (ToString (project_key l)) name.

(** The groups are the classes of the records by project key. *)
Definition groups_of (groups : object Group.t) (loads : list record) : Prop :=
  NoDup (map fst groups)
  /\ forall name,
       match own groups name with
       | Some g =>
           Group.loads g = filter (has_key name) loads /\ Group.loads g <> []
       | None => filter (has_key name) loads = []
       end.

(** No own property of the accumulator has a name of Object.prototype. *)
Definition no_inherited_key (acc : object Group.t) : Prop :=
  forall name, inherited name = true -> own acc name = None.

Definition constructor_loads : list record :=
  [ [("projectId", VString "Alpha")]; [("projectId", VString "constructor")] ].

(** ** Ends of documents *)

(** [s] ends with [suffix]. *)
Fixpoint ends_with (suffix s : string) : bool :=
  match s with
  | EmptyString => String.eqb suffix EmptyString
  | String _ s' => String.eqb suffix s || ends_with suffix s'
  end.

(** The last character of [s] satisfies [p]. *)
Fixpoint ends_in_char (p : ascii -> bool) (s : string) : bool :=
  match s with
  | EmptyString => false
  | String c EmptyString => p c
  | String _ s' => ends_in_char p s'
  end.

Definition not_lf (c : ascii) : bool := negb (Ascii.eqb c "010"%char).

(** Two loads of one project on one day, 2.5 and 1.0 tons. *)
Definition alpha_loads : list record :=
  [ [("projectId", VString "Alpha"); ("weightTons", VNumber (Fin (5 # 2)));
     ("date", VString "2024-03-05")];
    [("projectId", VString "Alpha"); ("weightTons", VNumber (Fin 1));
     ("date", VString "2024-03-05")] ].

Definition alpha_groups : object Group.t :=
  [("Alpha", {| Group.projectId := VString "Alpha";
                Group.projectName := VString "Alpha";
                Group.loads := alpha_loads |})].

(** The lines pushed so far end with a terminator line. *)
Definition iif_terminated (st : builder) : Prop :=
  exists l x, snd (fst st) = (l ++ [x])%list /\ (x = "!ENDTRNS" \/ x = "ENDTRNS").

(** The rows pushed so far end with a row whose last character is not a
    line feed. *)
Definition csv_terminated (st : builder) : Prop :=
  exists l x, snd (fst st) = (l ++ [x])%list /\ ends_in_char not_lf x = true.

(** ** Numbering of invoices *)


(** The document number of the k-th invoice of a run. *)
Definition nth_docNum (k : nat) : string := "DS-" ++ Z_to_string (1000 + Z.of_nat k).

(** The counter is 1000 plus the count of numbers bound, and the k-th number
    bound is DS-(1000 + k). *)
Definition numbered (st : builder) : Prop :=
  fst (fst st) = 1000 + Z.of_nat (List.length (snd st))
  /\ map snd (snd st) = map nth_docNum (seq 0 (List.length (snd st))).

(** Records of three projects; one has a date that cannot be read and one
    a numeric project identifier. *)
Definition site_loads : list record :=
  [ [("projectId", VString "Beta"); ("weightTons", VNumber (Fin 3));
     ("date", VString "2024-03-06")];
    [("projectId", VString "Alpha"); ("weightTons", VNumber (Fin (5 # 2)));
     ("date", VString "2024-03-05")];
    [("projectId", VString "Alpha"); ("weightLbs", VNumber (Fin 4000));
     ("date", VString "not a date")];
    [("project_id", VNumber (Fin 7)); ("project_name", VString "Depot 7");
     ("weight_tons", VString "1.25"); ("created_at", VString "2024-03-07T10:30:00Z")];
    [("projectId", VString "Alpha"); ("weightTons", VNumber (Fin 1));
     ("date", VString "2024-03-05")] ].

Definition site_groups : object Group.t :=
  match groupByProject site_loads with
  | Ok groups => groups
  | Throw _ => []
  end.

(** The SPL line of a load in an invoice, given its memo. *)
Definition spl_line (projectName qbClass invoiceDate docNum : string)
  (load : Canonical.load) (memo : string) : string :=
  join TAB [ "SPL"; "INVOICE"; invoiceDate; CONFIG.INCOME_ACCOUNT; projectName; qbClass;
             spl_amount load; docNum; memo; "N"; toFixed 4 (resolveWeightTons load);
             toFixed 2 CONFIG.RATE_PER_TON; "LEED Compliance Documentation" ].

(** No store, no connection and only a draft. *)
Definition only_a_draft_offline : Sources :=
  {| local := Stored [load_with "A" "draft"];
     onLine := false;
     remote := fun _ => Remote_loads [load_with "Z" "confirmed"] |}.

(** ** Batches as classes of loads *)

(** The load is invoiced on the date [key]. *)
Definition on_date (h : Host) (key : string) (l : Canonical.load) : bool :=
  String.eqb (toQBDate h (Canonical.date l)) key.

(** The batches are the classes of the loads by formatted date. *)
Definition batches_of (h : Host) (dates : object (list Canonical.load))
  (loads : list Canonical.load) : Prop :=
  NoDup (map fst dates)
  /\ forall key,
       match own dates key with
       | Some dayLoads => dayLoads = filter (on_date h key) loads /\ dayLoads <> []
       | None => filter (on_date h key) loads = []
       end.

Definition not_slash (c : ascii) : bool := negb (Ascii.eqb c "/").

(** How many loads the batches of an object hold. *)
Definition batch_sizes {A} (entries : list (string * list A)) : nat :=
  fold_right (fun e s => List.length (snd e) + s)%nat O entries.

(** How many records the groups hold. *)
Definition group_sizes (entries : list (string * Group.t)) : nat :=
  fold_right (fun e s => List.length (Group.loads (snd e)) + s)%nat O entries.

(** ** When the serializers complete *)

(** The value is a text, the only kind with [replace] and [substring]. *)
Definition is_text (v : value) : bool :=
  match v with
  | VString _ => true
  | _ => false
  end.

(** The group has a text as display name. *)
Definition named (entry : string * Group.t) : bool :=
  is_text (Group.projectName (snd entry)).



(** ** The batches of a group *)


(** ** What a canonical load always holds *)

(** The value is truthy, or it is the empty text. *)
Definition present_or_empty (v : value) : bool :=
  ToBoolean v || is_string v EmptyString.

(** A weight or an amount: a finite number that is not negative, or
    +Infinity; never NaN. *)
Definition is_weight (x : number) : bool :=
  match x with
  | Fin q => Qle_bool 0 q
  | PosInf => true
  | _ => false
  end.

(** ** Reading a CSV row back *)

(** A character that a printed number can hold: a digit, a point, a sign,
    or a letter of an exponent, of Infinity or of NaN. *)
Definition number_char (c : ascii) : bool :=
  is_digit c
  || existsb (Ascii.eqb c)
       [ "."; "-"; "+"; "e"; "I"; "n"; "f"; "i"; "t"; "y"; "N"; "a" ]%char.

Definition is_dquote (c : ascii) : bool := (nat_of_ascii c =? 34)%nat.
Definition is_comma (c : ascii) : bool := (nat_of_ascii c =? 44)%nat.

(** The text of a quoted field after its opening quote: up to the closing
    quote, a doubled quote standing for one; and what follows the field. *)
Fixpoint unquote_body (s : string) : option (string * string) :=
  match s with
  | EmptyString => None
  | String c s' =>
      if is_dquote c then
        match s' with
        | String d s'' =>
            if is_dquote d then
              match unquote_body s'' with
              | Some (x, rest) => Some (String d x, rest)
              | None => None
              end
            else Some (EmptyString, s')
        | EmptyString => Some (EmptyString, EmptyString)
        end
      else
        match unquote_body s' with
        | Some (x, rest) => Some (String c x, rest)
        | None => None
        end
  end.

(** What follows a closing quote does not start with a quote. *)
Definition no_quote_ahead (rest : string) : bool :=
  match rest with
  | String c _ => negb (is_dquote c)
  | EmptyString => true
  end.

(** A field that is not quoted: up to the next comma. *)
Fixpoint read_plain (s : string) : string * string :=
  match s with
  | EmptyString => (EmptyString, EmptyString)
  | String c s' =>
      if is_comma c then (EmptyString, s)
      else let '(x, rest) := read_plain s' in (String c x, rest)
  end.

(** One field at the head of a row, and what follows it. *)
Definition read_field (s : string) : option (string * string) :=
  match s with
  | String c s' => if is_dquote c then unquote_body s' else Some (read_plain s)
  | EmptyString => Some (EmptyString, EmptyString)
  end.

(** The fields of a row, as a reader of comma-separated values with quoted
    fields splits it; [fuel] bounds the count of fields. *)
Fixpoint read_row (fuel : nat) (s : string) : option (list string) :=
  match fuel with
  | O => None
  | S fuel' =>
      match read_field s with
      | Some (x, EmptyString) => Some [x]
      | Some (x, String c rest) =>
          if is_comma c then
            match read_row fuel' rest with
            | Some xs => Some (x :: xs)
            | None => None
            end
          else None
      | None => None
      end
  end.

(** A cell of a row before it is written: a text that goes through [safe],
    or a printed number that is written as it is. *)
Inductive cell :=
| Quoted (v : value)
| Plain (s : string).

Definition write_cell (c : cell) : string :=
  match c with
  | Quoted v => safe v
  | Plain s => s
  end.

Definition cell_text (c : cell) : string :=
  match c with
  | Quoted v => ToString (nullish_else v (VString EmptyString))
  | Plain s => s
  end.

Definition cell_ok (c : cell) : bool :=
  match c with
  | Quoted _ => true
  | Plain s => all_chars number_char s
  end.

(** The cells of the row of a load. *)
Definition csv_cells (h : Host) (projectName qbClass invoiceDate dueDate docNum : string)
  (load : Canonical.load) : list cell :=
  let ticket := (Canonical.ticketNumber load || Canonical.id load)%js in
  [ Quoted (VString docNum); Quoted (VString projectName); Quoted (VString invoiceDate);
    Quoted (VString dueDate); Quoted (VString CONFIG.TERMS);
    Quoted (VString "LEED Compliance Documentation");
    Quoted (VString
              (filter_join " | "
                 [ VString "LEED v5 MRp2 Compliance Documentation";
                   VString ("Load #" ++ ToString ticket);
                   VString (ToString (Canonical.materialType load));
                   VString (if ToBoolean (Canonical.hauler load)
                            then "Hauler: " ++ ToString (Canonical.hauler load)
                            else EmptyString) ]));
    Plain (toFixed 4 (resolveWeightTons load));
    Plain (toFixed 2 CONFIG.RATE_PER_TON);
    Plain (toFixed 2 (line_value load));
    Quoted (VString qbClass);
    Quoted (VString ("DivertScan Export | "
                       ++ toLocaleDateString h None (Date_current h)));
    Quoted (Canonical.hash load || VString EmptyString)%js;
    Quoted ticket;
    Quoted (Canonical.materialType load);
    Quoted (Canonical.hauler load);
    Quoted (Canonical.truckId load);
    Plain (toFixed 4 (num_or_zero (Canonical.carbonSaved load))) ].

(** ** File names *)

(** A letter, a digit, a hyphen or an underscore. *)
Definition filename_char (c : ascii) : bool :=
  is_alpha c || is_digit c || Ascii.eqb c "-" || Ascii.eqb c "_".

(** ** Summaries *)

(** How many loads the entries of a summary count. *)
Definition counted (summary : object Summary.t) : nat :=
  fold_right (fun e s => Summary.loadCount (snd e) + s)%nat O summary.

(** ** The head of a group *)

(** [load.projectName || load.project_name || key] *)
Definition display_name (load : record) : value :=
  (get load "projectName" || get load "project_name" || project_key load)%js.

(** The group holds the records [members], and its identifier and display
    name are those of the first of them. *)
Definition headed_by (g : Group.t) (members : list record) : Prop :=
  match members with
  | first :: _ =>
      Group.projectId g = project_key first
      /\ Group.projectName g = display_name first
      /\ Group.loads g = members
  | [] => False
  end.

(** ** Records that name their project under an alias *)

(** A confirmed record of an older version: its project is under
    [project_id]. *)
Definition legacy_record : record :=
  [("project_id", VString "A"); ("status", VString "confirmed")].

Definition legacy_store : Sources :=
  {| local := Stored [load_with "A" "confirmed"; legacy_record];
     onLine := false;
     remote := fun _ => Remote_failed |}.

(** ** Billing batches *)

(** The invoice date of a raw record: the formatted date of its canonical
    load. *)
Definition date_key (h : Host) (r : record) : string :=
  toQBDate h (Canonical.date (normalizeLoad h r)).

(** The same object with [f] applied to every value. *)
Definition omap {A B} (f : A -> B) (o : object A) : object B :=
  map (fun e => (fst e, f (snd e))) o.

(** Records collected under their key, a key in the place of its first
    record and the records of a key in their order. *)
Definition group_step (key : record -> string) (acc : object (list record)) (r : record)
  : object (list record) :=
  match own acc (key r) with
  | Some _ => update acc (key r) (fun rs => rs ++ [r])%list
  | None => define acc (key r) [r]
  end.

Definition group_raw (key : record -> string) (rs : list record) : object (list record) :=
  fold_left (group_step key) rs [].

Module Batch.
(** A billing batch: the key and the display name of its project, its
    invoice date and its raw records. *)
Record t := {
  project : string;
  customer : string;
  date : string;
  records : list record;
}.
End Batch.

(** The batches of one group, in the order of the loop over its dates. *)
Definition group_batches (h : Host) (entry : string * Group.t) : list Batch.t :=
  map (fun e => {| Batch.project := fst entry;
                   Batch.customer := ToString (Group.projectName (snd entry));
                   Batch.date := fst e;
                   Batch.records := snd e |})
    (Object_entries (group_raw (date_key h) (Group.loads (snd entry)))).

(** The batches of an export, in the order of the two loops. *)
Definition batches (h : Host) (projectGroups : object Group.t) : list Batch.t :=
  flat_map (group_batches h) (Object_entries projectGroups).

(** Batches with their place in the export, counted from [k]. *)
Definition numbered_from (k : nat) (bs : list Batch.t) : list (nat * Batch.t) :=
  combine (seq k (List.length bs)) bs.

Definition memo_text (load : Canonical.load) : string :=
  match iif_memo load with
  | Ok memo => memo
  | Throw _ => EmptyString
  end.

(** The lines of the invoice of a batch in Format A, under the number of
    its place. *)
Definition iif_block (h : Host) (nb : nat * Batch.t) : list string :=
  let '(k, b) := nb in
  let name := Batch.customer b in
  let loads := map (normalizeLoad h) (Batch.records b) in
  (iif_trns name (iif_class name) (Batch.date b) (nth_docNum k) (iif_total loads)
     :: map (fun load => spl_line name (iif_class name) (Batch.date b) (nth_docNum k)
                           load (memo_text load))
          loads
     ++ ["ENDTRNS"])%list.

(** The rows of a batch in Format B, under the number of its place. *)
Definition csv_block (h : Host) (nb : nat * Batch.t) : list string :=
  let '(k, b) := nb in
  let name := Batch.customer b in
  map (fun r => csv_row h name (csv_class name) (Batch.date b)
                  (csv_dueDate h (Batch.date b)) (nth_docNum k) (normalizeLoad h r))
    (Batch.records b).


(** The batch of a project under one of its dates. *)
Definition batch_of (projectId name : string) (e : string * list record) : Batch.t :=
  {| Batch.project := projectId; Batch.customer := name;
     Batch.date := fst e; Batch.records := snd e |}.

(** The sample host with another reading of the clock. *)
Definition host_at (now : Z) : Host :=
  {| Date_now := now;
     LocalTZA := LocalTZA Sample.host;
     Date_parse_fallback := Date_parse_fallback Sample.host;
     Date_toLocaleDateString := Date_toLocaleDateString Sample.host |}.


(** A day after the sample host: 2026-11-02T08:00:00Z. *)
Definition a_day_later : Host := host_at 1793606400000.

(** A record without a date and a record dated 2 November 2026. *)
Definition undated_record : record :=
  [("projectId", VString "P"); ("weightTons", VNumber (Fin 1))].
Definition dated_record : record :=
  [("projectId", VString "P"); ("weightTons", VNumber (Fin 1));
   ("date", VString "2026-11-02")].

Definition undated_groups : object Group.t :=
  [("P", {| Group.projectId := VString "P";
            Group.projectName := VString "P";
            Group.loads := [undated_record; dated_record] |})].

(** * Properties *)

(** ** Strings *)

Lemma append_nil_r (s : string) : s ++ EmptyString = s.
Proof. induction s as [|c s IH]; simpl; [reflexivity | now rewrite IH]. Qed.

Lemma append_assoc (a b c : string) : (a ++ b) ++ c = a ++ (b ++ c).
Proof. induction a as [|x a IH]; simpl; [reflexivity | now rewrite IH]. Qed.

Lemma length_append (a b : string) :
  String.length (a ++ b) = (String.length a + String.length b)%nat.
Proof. induction a as [|x a IH]; simpl; [reflexivity | now rewrite IH]. Qed.

Lemma length_repeat_string (n : nat) (c : ascii) :
  String.length (repeat_string n (String c EmptyString)) = n.
Proof. induction n as [|n IH]; simpl; [reflexivity | now rewrite IH]. Qed.

Lemma all_chars_append p a b :
  all_chars p (a ++ b) = all_chars p a && all_chars p b.
Proof.
  induction a as [|x a IH]; simpl; [reflexivity|].
  now rewrite IH, andb_assoc.
Qed.

Lemma all_chars_repeat p n c :
  p c = true -> all_chars p (repeat_string n (String c EmptyString)) = true.
Proof. intros H. induction n as [|n IH]; simpl; [reflexivity | now rewrite H, IH]. Qed.

Lemma all_chars_weaken (p q : ascii -> bool) s :
  (forall c, p c = true -> q c = true) -> all_chars p s = true -> all_chars q s = true.
Proof.
  intros Hpq. induction s as [|c s IH]; simpl; [reflexivity|].
  intros H. apply andb_true_iff in H as [Hc Hs]. now rewrite (Hpq _ Hc), IH.
Qed.

Lemma substring_split (n : nat) (s : string) :
  (n <= String.length s)%nat ->
  String.substring 0 n s ++ String.substring n (String.length s - n) s = s.
Proof.
  revert s. induction n as [|n IH]; intros s Hn.
  - simpl. rewrite Nat.sub_0_r.
    assert (H : forall t, String.substring 0 (String.length t) t = t).
    { induction t as [|c t IHt]; simpl; [reflexivity | now rewrite IHt]. }
    destruct s; simpl; [reflexivity | now rewrite H].
  - destruct s as [|c s]; simpl in *; [lia|].
    rewrite IH by lia. reflexivity.
Qed.

Lemma length_substring0 (n : nat) (s : string) :
  (n <= String.length s)%nat -> String.length (String.substring 0 n s) = n.
Proof.
  revert s. induction n as [|n IH]; intros s Hn.
  - destruct s; reflexivity.
  - destruct s as [|c s]; simpl in *; [lia|]. now rewrite IH by lia.
Qed.

Lemma trimEnd_no_space (s : string) :
  all_chars (fun c => negb (is_space c)) s = true -> trimEnd s = s.
Proof.
  induction s as [|c s IH]; simpl; [reflexivity|].
  intros H. apply andb_true_iff in H as [Hc Hs].
  rewrite (IH Hs). apply negb_true_iff in Hc. rewrite Hc.
  destruct s; reflexivity.
Qed.

Lemma trimStart_no_space (s : string) :
  all_chars (fun c => negb (is_space c)) s = true -> trimStart s = s.
Proof.
  destruct s as [|c s]; simpl; [reflexivity|].
  intros H. apply andb_true_iff in H as [Hc _].
  apply negb_true_iff in Hc. now rewrite Hc.
Qed.

Lemma trim_no_space (s : string) :
  all_chars (fun c => negb (is_space c)) s = true -> trim s = s.
Proof.
  intros H. unfold trim. rewrite (trimStart_no_space _ H). now apply trimEnd_no_space.
Qed.

(** ** Decimal digits *)

Lemma read_digits_append (ds rest : string) (acc : N) (cnt : nat) :
  all_chars is_digit ds = true ->
  head_is_digit rest = false ->
  read_digits (ds ++ rest) acc cnt
  = (digits_value ds acc, (cnt + String.length ds)%nat, rest).
Proof.
  revert acc cnt. induction ds as [|c ds IH]; intros acc cnt Hds Hrest; simpl.
  - rewrite Nat.add_0_r. destruct rest as [|c r]; simpl in *; [reflexivity|].
    now rewrite Hrest.
  - simpl in Hds. apply andb_true_iff in Hds as [Hc Hds].
    rewrite Hc, IH by assumption. f_equal. f_equal. lia.
Qed.

Lemma digits_value_append (a b : string) (acc : N) :
  digits_value (a ++ b) acc = digits_value b (digits_value a acc).
Proof. revert acc. induction a as [|c a IH]; intros acc; simpl; [reflexivity | apply IH]. Qed.

Lemma digits_value_shift (s : string) (acc : N) :
  digits_value s acc = (acc * 10 ^ N.of_nat (String.length s) + digits_value s 0)%N.
Proof.
  revert acc. induction s as [|c s IH]; intros acc.
  - simpl. lia.
  - cbn [digits_value String.length]. rewrite IH, (IH (10 * 0 + digit_val c)%N).
    rewrite Nat2N.inj_succ, N.pow_succ_r'. lia.
Qed.

Lemma digits_value_zeros (n : nat) (acc : N) :
  acc = 0%N -> digits_value (repeat_string n "0") acc = 0%N.
Proof.
  intros ->. induction n as [|n IH]; simpl; [reflexivity|].
  exact IH.
Qed.

Ltac small_N d :=
  destruct d as [|d]; [|do 4 (try destruct d as [d|d|]; try lia)].

Lemma digit_char_is_digit (d : N) : (d < 10)%N -> is_digit (digit_char d) = true.
Proof. intros H. small_N d; reflexivity. Qed.

Lemma digit_val_char (d : N) : (d < 10)%N -> digit_val (digit_char d) = d.
Proof. intros H. small_N d; reflexivity. Qed.

Lemma digits_loop_S (fuel : nat) (n : N) (acc : string) :
  digits_loop (S fuel) n acc
  = if (n / 10 =? 0)%N then String (digit_char (n mod 10)) acc
    else digits_loop fuel (n / 10)%N (String (digit_char (n mod 10)) acc).
Proof. reflexivity. Qed.

Lemma digits_loop_spec (fuel : nat) (n : N) (acc : string) :
  (n < 2 ^ N.of_nat (S fuel))%N ->
  exists ds, digits_loop (S fuel) n acc = ds ++ acc
             /\ all_chars is_digit ds = true
             /\ digits_value ds 0 = n
             /\ ds <> EmptyString.
Proof.
  revert n acc. induction fuel as [|fuel IH]; intros n acc Hn.
  - assert (Hd : (n / 10 = 0)%N) by (apply N.div_small; simpl in Hn; lia).
    exists (String (digit_char (n mod 10)) EmptyString).
    rewrite digits_loop_S, Hd. cbn.
    rewrite digit_char_is_digit by (apply N.mod_lt; lia).
    rewrite digit_val_char by (apply N.mod_lt; lia).
    repeat split; try discriminate.
    rewrite N.mod_small; simpl in Hn; lia.
  - rewrite digits_loop_S. destruct (N.eqb_spec (n / 10) 0) as [Hd|Hd].
    + exists (String (digit_char (n mod 10)) EmptyString). cbn.
      rewrite digit_char_is_digit by (apply N.mod_lt; lia).
      rewrite digit_val_char by (apply N.mod_lt; lia).
      repeat split; try discriminate.
      pose proof (N.div_mod n 10 ltac:(lia)). lia.
    + destruct (IH (n / 10)%N (String (digit_char (n mod 10)) acc)) as (ds & E & Hds & Hv & Hne).
      { rewrite Nat2N.inj_succ, N.pow_succ_r' in Hn.
        apply N.Div0.div_lt_upper_bound. lia. }
      exists (ds ++ String (digit_char (n mod 10)) EmptyString).
      rewrite E, append_assoc. cbn [append].
      rewrite all_chars_append, Hds. cbn [all_chars].
      rewrite digit_char_is_digit by (apply N.mod_lt; lia).
      rewrite digits_value_append, Hv. cbn [digits_value].
      rewrite digit_val_char by (apply N.mod_lt; lia).
      repeat split.
      * pose proof (N.div_mod n 10 ltac:(lia)). lia.
      * destruct ds; [congruence | discriminate].
Qed.

Lemma N_digits_spec (n : N) :
  all_chars is_digit (N_digits n) = true
  /\ digits_value (N_digits n) 0 = n
  /\ N_digits n <> EmptyString.
Proof.
  unfold N_digits.
  destruct (digits_loop_spec (N.to_nat (N.log2 n)) n EmptyString) as (ds & E & H).
  - rewrite Nat2N.inj_succ, N2Nat.id.
    destruct n as [|p]; [reflexivity|].
    apply N.log2_spec. lia.
  - rewrite E, append_nil_r. exact H.
Qed.

(** ** Rounding to binary64 *)

Lemma Qpow2_power (z : Z) : (Qpow2 z == 2 ^ z)%Q.
Proof.
  unfold Qpow2. destruct (z <? 0) eqn:E.
  - apply Z.ltb_lt in E. destruct z as [|p|p]; try lia.
    change (2 ^ Z.neg p)%Q with (/ (inject_Z 2 ^ Z.pos p))%Q.
    rewrite <- (Zpower_Qpower 2 (Zpos p)) by lia.
    cbn [Z.opp Z.to_pos]. rewrite <- Pos2Z.inj_pow. reflexivity.
  - apply Z.ltb_ge in E. change 2%Q with (inject_Z 2). now rewrite <- Zpower_Qpower.
Qed.

Lemma Qpow2_pos (z : Z) : (0 < Qpow2 z)%Q.
Proof. rewrite Qpow2_power. now apply Qpower_0_lt. Qed.

Lemma Qpow2_add (a b : Z) : (Qpow2 (a + b) == Qpow2 a * Qpow2 b)%Q.
Proof. rewrite !Qpow2_power. now apply Qpower_plus. Qed.

Lemma Qpow2_sub (a b : Z) : (Qpow2 (a - b) == Qpow2 a / Qpow2 b)%Q.
Proof.
  pose proof (Qpow2_pos b) as Hb.
  assert (E : (Qpow2 a == Qpow2 (a - b) * Qpow2 b)%Q).
  { rewrite <- Qpow2_add. now replace (a - b + b) with a by lia. }
  rewrite E. field. intros H. rewrite H in Hb. discriminate.
Qed.

Lemma Qpow2_lt (a b : Z) : a < b -> (Qpow2 a < Qpow2 b)%Q.
Proof. intros H. rewrite !Qpow2_power. now apply Qpower_lt_compat_l. Qed.

Lemma Qpow2_le (a b : Z) : a <= b -> (Qpow2 a <= Qpow2 b)%Q.
Proof. intros H. rewrite !Qpow2_power. now apply Qpower_le_compat_l. Qed.

Lemma Qpow2_lt_inv (a b : Z) : (Qpow2 a < Qpow2 b)%Q -> a < b.
Proof.
  intros H. destruct (Z_lt_le_dec a b) as [L|L]; [exact L|].
  apply Qpow2_le in L. exfalso. exact (Qlt_not_le _ _ H L).
Qed.

Lemma Qpow2_nonneg (z : Z) : 0 <= z -> Qpow2 z = inject_Z (2 ^ z).
Proof. intros H. unfold Qpow2. now replace (z <? 0) with false by (symmetry; apply Z.ltb_ge; lia). Qed.

Lemma Qpos_num (q : Q) : (0 < q)%Q <-> 0 < Qnum q.
Proof. unfold Qlt. cbn. rewrite Z.mul_1_r. reflexivity. Qed.

(** The binary exponent brackets a positive rational between two powers
    of two. *)
Lemma binary_exponent_spec (q : Q) :
  (0 < q)%Q ->
  (Qpow2 (binary_exponent q) <= q)%Q /\ (q < Qpow2 (binary_exponent q + 1))%Q.
Proof.
  intros Hq. apply Qpos_num in Hq. destruct q as [n d]. cbn [Qnum] in Hq.
  unfold binary_exponent. cbn [Qnum Qden].
  destruct (Z.log2_spec n Hq) as [Hn1 Hn2].
  destruct (Z.log2_spec (Zpos d) eq_refl) as [Hd1 Hd2].
  pose proof (Z.log2_nonneg n) as Ha. pose proof (Z.log2_nonneg (Zpos d)) as Hb.
  set (a := Z.log2 n) in *. set (b := Z.log2 (Zpos d)) in *.
  assert (Hpa : 0 < 2 ^ a) by (apply Z.pow_pos_nonneg; lia).
  assert (Hpb : 0 < 2 ^ b) by (apply Z.pow_pos_nonneg; lia).
  assert (Hqa : forall z, 0 < z -> (0 < inject_Z z)%Q)
    by (intros z Hz; change 0%Q with (inject_Z 0); now rewrite <- Zlt_Qlt).
  assert (Hhi : (n # d < Qpow2 (a - b + 1))%Q).
  { replace (a - b + 1) with (Z.succ a - b) by lia.
    rewrite Qpow2_sub, !Qpow2_nonneg by lia.
    apply Qlt_shift_div_l; [now apply Hqa|].
    unfold Qlt, Qmult, inject_Z. cbn [Qnum Qden].
    rewrite Pos.mul_1_r, Z.mul_1_r.
    apply Z.lt_le_trans with (2 ^ Z.succ a * 2 ^ b).
    - apply Z.mul_lt_mono_pos_r; assumption.
    - apply Z.mul_le_mono_nonneg_l; lia. }
  assert (Hlo : (Qpow2 (a - b - 1) <= n # d)%Q).
  { replace (a - b - 1) with (a - Z.succ b) by lia.
    rewrite Qpow2_sub, !Qpow2_nonneg by lia.
    apply Qle_shift_div_r; [now apply Hqa; apply Z.pow_pos_nonneg; lia|].
    unfold Qle, Qmult, inject_Z. cbn [Qnum Qden].
    rewrite Pos.mul_1_r, Z.mul_1_r.
    apply Z.le_trans with (2 ^ a * 2 ^ Z.succ b).
    - apply Z.mul_le_mono_nonneg_l; lia.
    - apply Z.mul_le_mono_nonneg_r; lia. }
  destruct (Qle_bool (Qpow2 (a - b)) (n # d)) eqn:E.
  - apply Qle_bool_iff in E. split; assumption.
  - split; [exact Hlo|]. replace (a - b - 1 + 1) with (a - b) by lia.
    apply Qnot_le_lt. intros L. apply Qle_bool_iff in L. congruence.
Qed.

Lemma binary_exponent_unique (q : Q) (e : Z) :
  (Qpow2 e <= q)%Q -> (q < Qpow2 (e + 1))%Q -> binary_exponent q = e.
Proof.
  intros Hlo Hhi.
  assert (Hq : (0 < q)%Q) by (apply Qlt_le_trans with (Qpow2 e); [apply Qpow2_pos | exact Hlo]).
  destruct (binary_exponent_spec q Hq) as [Blo Bhi].
  assert (H1 : binary_exponent q < e + 1)
    by (apply Qpow2_lt_inv; apply Qle_lt_trans with q; assumption).
  assert (H2 : e < binary_exponent q + 1)
    by (apply Qpow2_lt_inv; apply Qle_lt_trans with q; assumption).
  lia.
Qed.

Lemma binary_exponent_proper (q q' : Q) :
  (0 < q)%Q -> (q == q')%Q -> binary_exponent q = binary_exponent q'.
Proof.
  intros Hq E. destruct (binary_exponent_spec q Hq) as [Blo Bhi].
  symmetry. apply binary_exponent_unique; now rewrite <- E.
Qed.

Lemma round_half_even_proper (x y : Q) :
  (x == y)%Q -> round_half_even x = round_half_even y.
Proof.
  intros E. unfold round_half_even.
  assert (Ef : Qfloor x = Qfloor y) by now rewrite E.
  rewrite Ef.
  assert (Ec : ((x - inject_Z (Qfloor y) ?= 1 # 2) = (y - inject_Z (Qfloor y) ?= 1 # 2))%Q)
    by now rewrite E.
  now rewrite Ec.
Qed.


Lemma round_half_even_nonneg (x : Q) : (0 <= x)%Q -> 0 <= round_half_even x.
Proof.
  intros H. unfold round_half_even.
  assert (Hf : 0 <= Qfloor x) by (change 0 with (Qfloor 0); now apply Qfloor_resp_le).
  destruct (_ ?= _)%Q; [destruct (Z.even _)| |]; lia.
Qed.

Lemma Qsign_proper (q q' : Q) : (q == q')%Q -> Qsign q = Qsign q'.
Proof.
  unfold Qeq, Qsign. intros E.
  destruct q as [n d], q' as [n' d']. cbn [Qnum Qden] in *.
  destruct n, n'; cbn in *; try reflexivity; try lia.
Qed.

Lemma round64_pos_proper (q q' : Q) :
  (0 < q)%Q -> (q == q')%Q -> round64_pos q = round64_pos q'.
Proof.
  intros Hq E. unfold round64_pos. rewrite <- (binary_exponent_proper q q' Hq E).
  set (p := Z.max (binary_exponent q - 52) (-1074)).
  assert (Er : round_half_even (q / Qpow2 p) = round_half_even (q' / Qpow2 p))
    by (apply round_half_even_proper; now rewrite E).
  now rewrite Er.
Qed.

(** Rounding depends on the value alone, not on how the fraction is
    written. *)
Lemma round64_proper (q q' : Q) : (q == q')%Q -> round64 q = round64 q'.
Proof.
  intros E. unfold round64. rewrite <- (Qsign_proper q q' E).
  destruct (Qsign q) as [|s|s] eqn:Es; [reflexivity| |].
  - apply round64_pos_proper; [|exact E].
    apply Qpos_num. unfold Qsign in Es. destruct (Qnum q); try discriminate. reflexivity.
  - f_equal. apply round64_pos_proper; [|now rewrite E].
    apply Qpos_num. unfold Qsign in Es. cbn. destruct (Qnum q); try discriminate. reflexivity.
Qed.

(** A number that is not negative rounds to one that is not negative, or
    to +Infinity. *)
Lemma round64_nonneg (q : Q) :
  (0 <= q)%Q ->
  round64 q = PosInf \/ exists v, round64 q = Fin v /\ (0 <= v)%Q.
Proof.
  intros H. unfold round64.
  destruct (Qsign q) as [|s|s] eqn:Es.
  - right. exists 0%Q. split; [reflexivity | discriminate].
  - unfold round64_pos.
    set (p := Z.max (binary_exponent q - 52) (-1074)).
    destruct (Qle_bool _ _); [now left | right].
    eexists. split; [reflexivity|]. rewrite Qred_correct.
    apply Qmult_le_0_compat; [|apply Qlt_le_weak, Qpow2_pos].
    change 0%Q with (inject_Z 0). rewrite <- Zle_Qle.
    apply round_half_even_nonneg. apply Qle_shift_div_l; [apply Qpow2_pos|].
    now rewrite Qmult_0_l.
  - exfalso. unfold Qsign in Es. unfold Qle in H. cbn in H.
    destruct (Qnum q); try discriminate. lia.
Qed.


(** ** Reading back what [toFixed] prints *)

Ltac each_ascii c :=
  destruct c as [[] [] [] [] [] [] [] []].

Lemma digit_not_space (c : ascii) : is_digit c = true -> is_space c = false.
Proof. each_ascii c; intros H; try discriminate H; reflexivity. Qed.

Lemma read_sign_digit (c : ascii) (s : string) :
  is_digit c = true -> read_sign (String c s) = (1, String c s).
Proof. each_ascii c; intros H; try discriminate H; reflexivity. Qed.

Lemma starts_with_Infinity_digit (c : ascii) (s : string) :
  is_digit c = true -> starts_with "Infinity" (String c s) = false.
Proof. each_ascii c; intros H; try discriminate H; reflexivity. Qed.

Lemma digits_no_space (s : string) :
  all_chars is_digit s = true -> all_chars (fun c => negb (is_space c)) s = true.
Proof.
  apply all_chars_weaken. intros c H. now rewrite (digit_not_space _ H).
Qed.

Lemma read_unsigned_point (a b : string) :
  all_chars is_digit a = true -> a <> EmptyString ->
  all_chars is_digit b = true -> b <> EmptyString ->
  read_unsigned (a ++ String "." b) = Some (round64 (literal_value a b), EmptyString).
Proof.
  intros Ha Hna Hb Hnb. unfold read_unsigned.
  destruct a as [|c a]; [congruence|].
  cbn [append]. cbn [all_chars] in Ha. apply andb_true_iff in Ha as [Hc Ha].
  rewrite (starts_with_Infinity_digit _ _ Hc).
  change (String c (a ++ String "." b)) with (String c a ++ String "." b).
  rewrite read_digits_append by (cbn; rewrite ?Hc, ?Ha; reflexivity).
  rewrite <- (append_nil_r b) at 1.
  rewrite read_digits_append by (assumption || reflexivity).
  cbn [Nat.add String.length].
  destruct b as [|d b]; [congruence|].
  cbn [String.length Nat.add read_exponent].
  f_equal. f_equal. apply round64_proper. unfold literal_value.
  cbn [String.length]. now rewrite Qred_correct.
Qed.

Lemma Number_of_point (a b : string) :
  all_chars is_digit a = true -> a <> EmptyString ->
  all_chars is_digit b = true -> b <> EmptyString ->
  Number_of_string (a ++ String "." b) = round64 (literal_value a b).
Proof.
  intros Ha Hna Hb Hnb. unfold Number_of_string.
  rewrite trim_no_space.
  2:{ rewrite all_chars_append. cbn [all_chars].
      now rewrite (digits_no_space _ Ha), (digits_no_space _ Hb). }
  pose proof (read_unsigned_point a b Ha Hna Hb Hnb) as E.
  destruct a as [|c a]; [congruence|].
  cbn [append] in *. cbn [all_chars] in Ha. apply andb_true_iff in Ha as [Hc Ha].
  unfold read_decimal. rewrite (read_sign_digit _ _ Hc), E. reflexivity.
Qed.

Lemma Number_of_minus_point (a b : string) :
  all_chars is_digit a = true -> a <> EmptyString ->
  all_chars is_digit b = true -> b <> EmptyString ->
  Number_of_string ("-" ++ a ++ String "." b) = num_neg (round64 (literal_value a b)).
Proof.
  intros Ha Hna Hb Hnb. unfold Number_of_string.
  rewrite trim_no_space.
  2:{ cbn [append all_chars]. rewrite all_chars_append. cbn [all_chars].
      now rewrite (digits_no_space _ Ha), (digits_no_space _ Hb). }
  cbn [append]. unfold read_decimal. cbn [read_sign].
  rewrite (read_unsigned_point a b Ha Hna Hb Hnb). reflexivity.
Qed.

Lemma all_chars_substring p n m s :
  all_chars p s = true -> all_chars p (String.substring n m s) = true.
Proof.
  revert n m. induction s as [|c s IH]; intros n m H.
  - destruct n, m; reflexivity.
  - cbn [all_chars] in H. apply andb_true_iff in H as [Hc Hs].
    destruct n as [|n]; destruct m as [|m]; cbn [String.substring]; try reflexivity.
    + cbn [all_chars]. rewrite Hc. now apply IH.
    + now apply IH.
    + now apply IH.
Qed.

Lemma length_substring (n m : nat) (s : string) :
  (n + m <= String.length s)%nat -> String.length (String.substring n m s) = m.
Proof.
  revert n m. induction s as [|c s IH]; intros n m H; cbn [String.length] in H.
  - assert (n = O /\ m = O) as [-> ->] by lia. reflexivity.
  - destruct n as [|n]; destruct m as [|m]; cbn [String.substring String.length];
      try reflexivity.
    + rewrite IH by lia. reflexivity.
    + apply IH. lia.
    + apply IH. lia.
Qed.

(** The shape of what [toFixed] prints for a scaled integer [n]: digits, a
    point and [f] digits, which denote [n] together. *)
Lemma fixed_digits_shape (f : nat) (n : Z) :
  (0 < f)%nat -> 0 <= n ->
  exists a b,
    fixed_digits f n = a ++ String "." b
    /\ all_chars is_digit a = true /\ a <> EmptyString
    /\ all_chars is_digit b = true /\ String.length b = f
    /\ Z.of_N (digits_value a 0) * pow10 f + Z.of_N (digits_value b 0) = n.
Proof.
  intros Hf Hn. unfold fixed_digits.
  destruct f as [|f]; [lia|].
  destruct (N_digits_spec (Z.to_N n)) as (Hd & Hv & Hne).
  set (m := N_digits (Z.to_N n)) in *.
  set (m' := repeat_string (S (S f) - String.length m) "0" ++ m).
  assert (Hlen : (S (S f) <= String.length m')%nat).
  { unfold m'. rewrite length_append, length_repeat_string. lia. }
  assert (Hd' : all_chars is_digit m' = true).
  { unfold m'. rewrite all_chars_append, Hd, all_chars_repeat; reflexivity. }
  assert (Hv' : digits_value m' 0 = Z.to_N n).
  { unfold m'. rewrite digits_value_append, digits_value_zeros; auto. }
  set (k := String.length m') in *.
  pose proof (substring_split (k - S f) m' ltac:(lia)) as Hsplit.
  fold k in Hsplit. replace (k - (k - S f))%nat with (S f) in Hsplit by lia.
  set (a := String.substring 0 (k - S f) m') in *.
  set (b := String.substring (k - S f) (S f) m') in *.
  assert (Hla : String.length a = (k - S f)%nat)
    by (apply length_substring0; fold k; lia).
  assert (Hlb : String.length b = S f)
    by (apply length_substring; fold k; lia).
  exists a, b. repeat split.
  - now apply all_chars_substring.
  - intros E. rewrite E in Hla. cbn [String.length] in Hla. clearbody k. lia.
  - now apply all_chars_substring.
  - exact Hlb.
  - rewrite <- Hsplit, digits_value_append, digits_value_shift, Hlb in Hv'.
    unfold pow10. apply (f_equal Z.of_N) in Hv'. rewrite Z2N.id in Hv' by lia.
    rewrite <- Hv', N2Z.inj_add, N2Z.inj_mul, N2Z.inj_pow, nat_N_Z. reflexivity.
Qed.

Lemma Number_of_fixed (f : nat) (n : Z) :
  (0 < f)%nat -> 0 <= n ->
  Number_of_string (fixed_digits f n) = round64 (scaled f n).
Proof.
  intros Hf Hn.
  destruct (fixed_digits_shape f n Hf Hn) as (a & b & E & Ha & Hna & Hb & Hlb & Hv).
  rewrite E, Number_of_point; try assumption.
  - unfold literal_value, scaled. now rewrite Hlb, Hv.
  - intros Eb. rewrite Eb in Hlb. cbn in Hlb. lia.
Qed.

Lemma Number_of_minus_fixed (f : nat) (n : Z) :
  (0 < f)%nat -> 0 <= n ->
  Number_of_string ("-" ++ fixed_digits f n) = num_neg (round64 (scaled f n)).
Proof.
  intros Hf Hn.
  destruct (fixed_digits_shape f n Hf Hn) as (a & b & E & Ha & Hna & Hb & Hlb & Hv).
  rewrite E, Number_of_minus_point; try assumption.
  - unfold literal_value, scaled. now rewrite Hlb, Hv.
  - intros Eb. rewrite Eb in Hlb. cbn in Hlb. lia.
Qed.

Lemma Qpow10_neg (f : nat) :
  (Qpow10 (0 - Z.of_nat f) == 1 / inject_Z (pow10 f))%Q.
Proof.
  unfold Qpow10, pow10. destruct f as [|f].
  - reflexivity.
  - replace (0 - Z.of_nat (S f) <? 0) with true by (symmetry; apply Z.ltb_lt; lia).
    replace (- (0 - Z.of_nat (S f))) with (Z.of_nat (S f)) by lia.
    assert (H : 0 < 10 ^ Z.of_nat (S f)) by (apply Z.pow_pos_nonneg; lia).
    assert (E : Zpos (10 ^ Z.to_pos (Z.of_nat (S f))) = 10 ^ Z.of_nat (S f)).
    { rewrite Pos2Z.inj_pow, Z2Pos.id by lia. reflexivity. }
    unfold Qdiv. rewrite Qmult_1_l, <- E. reflexivity.
Qed.

Lemma scaled_eq (f : nat) (n : Z) :
  (scaled f n == inject_Z n / inject_Z (pow10 f))%Q.
Proof.
  unfold scaled. rewrite Qred_correct, Qpow10_neg. field.
  unfold pow10. intros H.
  assert (H' : 0 < 10 ^ Z.of_nat f) by (apply Z.pow_pos_nonneg; lia).
  unfold Qeq in H. cbn in H. lia.
Qed.

(** ** Rounding *)

Lemma pow10_pos (f : nat) : 0 < pow10 f.
Proof. unfold pow10. apply Z.pow_pos_nonneg; lia. Qed.

Lemma Qpow10_pos (f : nat) : (0 < inject_Z (pow10 f))%Q.
Proof.
  pose proof (pow10_pos f). unfold Qlt. cbn. lia.
Qed.

Lemma nearest_scaled_nonneg (f : nat) (q : Q) :
  (0 <= q)%Q -> 0 <= nearest_scaled f q.
Proof.
  intros Hq. unfold nearest_scaled.
  change 0 with (Qfloor 0). apply Qfloor_resp_le.
  pose proof (Qpow10_pos f).
  assert (0 <= q * inject_Z (pow10 f))%Q by (apply Qmult_le_0_compat; [assumption|now apply Qlt_le_weak]).
  apply Qle_trans with (q * inject_Z (pow10 f))%Q; [assumption|].
  rewrite <- Qplus_0_r at 1. apply Qplus_le_r. discriminate.
Qed.



(** ** The weight resolver *)

Lemma toFixed_nonneg (f : nat) (q : Q) :
  (0 <= q)%Q -> (q < inject_Z (10 ^ 21))%Q ->
  toFixed f (Fin q) = fixed_digits f (nearest_scaled f q).
Proof.
  intros H0 H1. unfold toFixed.
  destruct (Qle_bool (inject_Z (10 ^ 21)) (Qabs q)) eqn:E.
  - apply Qle_bool_iff in E. rewrite Qabs_pos in E by assumption.
    exfalso. exact (Qlt_not_le _ _ H1 E).
  - replace (Qsign q <? 0) with false; [reflexivity|].
    symmetry. apply Z.ltb_ge. unfold Qsign.
    unfold Qle in H0. cbn in H0. rewrite Z.mul_1_r in H0.
    destruct (Qnum q); cbn; lia.
Qed.

Lemma num_gt_zero (q : Q) : num_gt (Fin q) (Fin 0) = true <-> (0 < q)%Q.
Proof.
  cbn [num_gt]. rewrite negb_true_iff. split.
  - intros H. apply Qnot_le_lt. intros L. apply Qle_bool_iff in L. congruence.
  - intros H. destruct (Qle_bool q 0) eqn:E; [|reflexivity].
    apply Qle_bool_iff in E. exfalso. exact (Qlt_not_le _ _ H E).
Qed.

Lemma num_div_2000 (lbs : Q) : num_div (Fin lbs) (Fin 2000) = round64 (lbs / 2000).
Proof. reflexivity. Qed.

(** C6, counterexample.  7.5 pounds are 0.00375 tons, half way between
    0.0037 and 0.0038; rounded to 4 decimal places that is 0.0038, whether a
    tie goes up or to the even digit.  The quotient the code computes is the
    binary64 value just below 0.00375, and the resolver returns 0.0037. *)
Lemma seven_and_a_half_pounds :
  let load := Sample.weighing (Fin 0) (Fin (15 # 2)) in
  ((15 # 2) / 2000 == 375 # 100000)%Q
  /\ nearest_scaled 4 ((15 # 2) / 2000) = 38
  /\ round_half_even ((15 # 2) / 2000 * 10000) = 38
  /\ toFixed 4 (resolveWeightTons load) = "0.0037"
  /\ resolveWeightTons load = round64 (37 # 10000)
  /\ resolveWeightTons load <> round64 (38 # 10000).
Proof. vm_compute. repeat split; discriminate. Qed.



(** ** Header and detail amounts of an invoice (Format A) *)

Lemma iif_spl_amount projectName qbClass invoiceDate docNum lines load :
  iif_spl projectName qbClass invoiceDate docNum lines load
  = (memo <- iif_memo load ;;
     Ok (lines ++ [ join TAB [ "SPL"; "INVOICE"; invoiceDate; CONFIG.INCOME_ACCOUNT;
                               projectName; qbClass; spl_amount load; docNum; memo; "N";
                               toFixed 4 (resolveWeightTons load);
                               toFixed 2 CONFIG.RATE_PER_TON;
                               "LEED Compliance Documentation" ] ])%list).
Proof. reflexivity. Qed.

Lemma iif_trns_amount projectName qbClass invoiceDate docNum dayLoads :
  iif_trns projectName qbClass invoiceDate docNum (iif_total dayLoads)
  = join TAB [ "TRNS"; "INVOICE"; invoiceDate; CONFIG.AR_ACCOUNT; projectName; qbClass;
               toFixed 2 (batch_value dayLoads); docNum;
               "LEED Compliance Documentation - " ++ projectName; "N"; "Y";
               CONFIG.TERMS ].
Proof. reflexivity. Qed.


















(** ** The normalizer: numeric fields *)


Lemma or_else_true (a b : value) : ToBoolean a = true -> (a || b)%js = a.
Proof. unfold or_else. now intros ->. Qed.

Lemma or_else_false (a b : value) : ToBoolean a = false -> (a || b)%js = b.
Proof. unfold or_else. now intros ->. Qed.








(** ** The date formatter *)

(** C3.  For a text the host cannot read as a date, [new Date] gives an
    Invalid Date without throwing: the handler that would print the
    current date never runs and the formatter prints NaN/NaN/NaN. *)
Theorem toQBDate_unparseable (h : Host) (s : string) :
  Date_parse h s = None -> toQBDate h (VString s) = "NaN/NaN/NaN".
Proof.
  intros E. unfold toQBDate. cbn [Date_new]. rewrite E. reflexivity.
Qed.

Lemma toQBDate_unparseable_witness :
  toQBDate Sample.host (VString "not a date") = "NaN/NaN/NaN"
  /\ current_QBDate Sample.host = "11/01/2026".
Proof.
  split; [|reflexivity].
  apply (toQBDate_unparseable Sample.host "not a date"). reflexivity.
Defined.

(** ** The Class field *)

(** C5, counterexample.  For the name A&B Format A prints LEED-AB, as the
    rule says, and Format B prints LEED-A&B. *)
Lemma csv_class_keeps_ampersand :
  iif_class "A&B" = "LEED-AB"
  /\ Class_rule "A&B" = "LEED-AB"
  /\ csv_class "A&B" = "LEED-A&B"
  /\ csv_class "A&B" <> Class_rule "A&B".
Proof. repeat split. discriminate. Qed.

Lemma replace_class_keep (s : string) :
  replace_class iif_stripped EmptyString s = keep class_char s.
Proof.
  induction s as [|c s IH]; cbn [replace_class keep]; [reflexivity|].
  unfold iif_stripped at 1. fold (class_char c).
  destruct (class_char c); cbn; now rewrite IH.
Qed.

Lemma replace_class_blank (s : string) :
  replace_class csv_replaced " " s = blank_out csv_replaced s.
Proof.
  induction s as [|c s IH]; cbn [replace_class blank_out]; [reflexivity|].
  destruct (csv_replaced c); cbn; now rewrite IH.
Qed.

Lemma keep_all (p : ascii -> bool) (s : string) :
  all_chars p s = true -> keep p s = s.
Proof.
  induction s as [|c s IH]; cbn [all_chars keep]; [reflexivity|].
  intros H. apply andb_true_iff in H as [Hc Hs]. now rewrite Hc, IH.
Qed.

Lemma blank_out_none (p : ascii -> bool) (s : string) :
  all_chars (fun c => negb (p c)) s = true -> blank_out p s = s.
Proof.
  induction s as [|c s IH]; cbn [all_chars blank_out]; [reflexivity|].
  intros H. apply andb_true_iff in H as [Hc Hs].
  apply negb_true_iff in Hc. now rewrite Hc, IH.
Qed.

(** C5, amended.  Format A follows the rule: LEED- and the display name with
    every character outside letters, digits, white space and hyphens
    stripped, trimmed.  Format B replaces each comma, double quote and line
    feed by a space and trims.  The two give the same Class for a name made
    of letters, digits, hyphens and white space other than line feeds. *)
Theorem class_rules (projectName : string) :
  iif_class projectName = Class_rule projectName
  /\ csv_class projectName = Class_rule_csv projectName
  /\ (all_chars (fun c => class_char c && negb (csv_replaced c)) projectName = true ->
      csv_class projectName = iif_class projectName).
Proof.
  unfold iif_class, csv_class, Class_rule, Class_rule_csv, CONFIG.CLASS_PREFIX.
  rewrite replace_class_keep, replace_class_blank. repeat split.
  intros H. rewrite keep_all, blank_out_none; [reflexivity| |].
  - revert H. apply all_chars_weaken. intros c Hc.
    now apply andb_true_iff in Hc as [_ ->].
  - revert H. apply all_chars_weaken. intros c Hc.
    now apply andb_true_iff in Hc as [-> _].
Qed.

Lemma class_rules_witness :
  csv_class "Alpha Tower-2" = iif_class "Alpha Tower-2"
  /\ iif_class "Alpha Tower-2" = "LEED-Alpha Tower-2".
Proof.
  split; [|reflexivity].
  apply (proj2 (proj2 (class_rules "Alpha Tower-2"))). reflexivity.
Defined.

(** ** The load resolver *)

Lemma getLoadsFromDB_caught (src : Sources) (projectId : value) (log : list event) :
  catch (getLoadsFromDB src projectId) (fun _ => []) log
  = ((log ++ [LocalQuery])%list, Ok (local_confirmed src projectId)).
Proof.
  unfold catch, getLoadsFromDB, await, emit, local_confirmed, scoped.
  destruct (local src); reflexivity.
Qed.

Lemma getLoadsFromAPI_run (src : Sources) (projectId : value) (log : list event) :
  getLoadsFromAPI src projectId log
  = ((log ++ [RemoteQuery projectId])%list,
     Ok (match remote src projectId with
         | Remote_failed => None
         | Remote_loads l | Remote_array l => Some l
         end)).
Proof.
  unfold getLoadsFromAPI, await, emit. destruct (remote src projectId); reflexivity.
Qed.

(** The whole behaviour of the resolver: which queries it makes and how it
    settles. *)
Lemma resolveLoads_run (src : Sources) (projectId : value) (log : list event) :
  let found := local_confirmed src projectId in
  let asks := is_empty found && onLine src in
  let final :=
    if asks && negb (is_empty (remote_yield src projectId))
    then remote_yield src projectId else found in
  resolveLoads src projectId log
  = ((log ++ LocalQuery :: (if asks then [RemoteQuery projectId] else []))%list,
     if is_empty final then Throw (Error NO_DATA) else Ok final).
Proof.
  cbn zeta. unfold resolveLoads, await at 1.
  rewrite getLoadsFromDB_caught.
  destruct (local_confirmed src projectId) as [|l found] eqn:Ef.
  - cbn [is_empty andb]. destruct (onLine src).
    + unfold await. rewrite getLoadsFromAPI_run. unfold remote_yield.
      rewrite <- app_assoc. cbn [app].
      destruct (remote src projectId) as [|rl|rl]; try reflexivity;
        destruct rl; reflexivity.
    + reflexivity.
  - reflexivity.
Qed.

(** C7.  When the store holds, within the scope of the call, at least one
    record that is neither a draft nor a pending upload, the resolver
    returns exactly the confirmed records in scope and makes the local
    query only, whether or not the environment is on line. *)
Theorem resolveLoads_local_first
  (src : Sources) (projectId : value) (all : list record) (log : list event) :
  local src = Stored all ->
  (exists l, In l (scoped projectId all) /\ confirmed l = true) ->
  resolveLoads src projectId log
  = ((log ++ [LocalQuery])%list, Ok (filter confirmed (scoped projectId all))).
Proof.
  intros Hl (l & Hin & Hc). rewrite resolveLoads_run. cbn zeta.
  unfold local_confirmed. rewrite Hl.
  assert (Hf : In l (filter confirmed (scoped projectId all)))
    by (apply filter_In; auto).
  destruct (filter confirmed (scoped projectId all)) as [|x xs]; [destruct Hf|].
  reflexivity.
Qed.

Lemma resolveLoads_local_first_witness :
  resolveLoads three_and_two VNull []
  = ([LocalQuery],
     Ok [load_with "A" "confirmed"; load_with "B" "confirmed"; load_with "C" "synced"]).
Proof.
  apply (resolveLoads_local_first three_and_two VNull _ [] eq_refl).
  exists (load_with "A" "confirmed"). split; [left; reflexivity | reflexivity].
Defined.

(** C8.  A store that cannot be opened or read counts as an empty local
    result.  The resolver fails, with the message that asks to check that
    loads are synced, exactly when the confirmed local result is empty and
    the remote source, asked only when on line, yields nothing; it fails in
    no other way.  When
    it does not fail it returns a sequence that is not empty.  The remote
    source is asked exactly when the local result is empty and the
    environment is on line. *)
Theorem resolveLoads_no_data (src : Sources) (projectId : value) (log : list event) :
  let found := local_confirmed src projectId in
  let outcome := snd (resolveLoads src projectId log) in
  let queries := fst (resolveLoads src projectId log) in
  (local src = IndexedDB_unavailable \/ local src = Read_failed -> found = [])
  /\ (outcome = Throw (Error NO_DATA)
   <-> found = [] /\ (onLine src = false \/ remote_yield src projectId = []))
  /\ (forall e, outcome = Throw e -> e = Error NO_DATA)
  /\ (forall loads, outcome = Ok loads ->
        loads <> []
        /\ loads = if is_empty found then remote_yield src projectId else found)
  /\ (queries = (log ++ [LocalQuery; RemoteQuery projectId])%list
      \/ queries = (log ++ [LocalQuery])%list)
  /\ (queries = (log ++ [LocalQuery; RemoteQuery projectId])%list
      <-> found = [] /\ onLine src = true).
Proof.
  cbn zeta. split.
  { unfold local_confirmed. intros [-> | ->]; reflexivity. }
  rewrite resolveLoads_run. cbn zeta. cbn [fst snd].
  destruct (local_confirmed src projectId) as [|l found];
    destruct (onLine src);
    destruct (remote_yield src projectId) as [|r ry];
    cbn [is_empty andb negb];
    repeat match goal with |- _ /\ _ => split end;
    intuition (subst; try discriminate; try congruence;
               try match goal with
                 | H : (_ ++ _)%list = (_ ++ _)%list |- _ =>
                     apply app_inv_head in H; discriminate H
                 end).
Qed.

Lemma resolveLoads_no_data_witness :
  resolveLoads only_a_draft_offline VNull [] = ([LocalQuery], Throw (Error NO_DATA)).
Proof.
  pose proof (resolveLoads_no_data only_a_draft_offline VNull []) as H.
  cbn zeta in H. destruct H as (_ & [_ H] & _ & _ & _ & Hq).
  specialize (H (conj eq_refl (or_introl eq_refl))).
  destruct (resolveLoads only_a_draft_offline VNull []) as [queries outcome] eqn:E.
  cbn [fst snd] in *. rewrite H. f_equal.
  vm_compute in E. now injection E as <- _.
Defined.

(** ** Project grouping *)

Lemma own_define {A} (o : object A) (k k' : string) (a : A) :
  own (define o k a) k'
  = match own o k' with
    | Some x => Some x
    | None => if String.eqb k k' then Some a else None
    end.
Proof.
  unfold define. induction o as [|[j x] o IH]; cbn [app own].
  - reflexivity.
  - destruct (String.eqb j k'); [reflexivity | exact IH].
Qed.

Lemma own_update {A} (o : object A) (k k' : string) (f : A -> A) :
  own (update o k f) k'
  = if String.eqb k k' then option_map f (own o k') else own o k'.
Proof.
  induction o as [|[j x] o IH]; cbn [update own option_map].
  - now destruct (String.eqb k k').
  - destruct (String.eqb_spec j k) as [->|Hjk]; cbn [own].
    + destruct (String.eqb_spec k k') as [->|Hkk]; [reflexivity|].
      reflexivity.
    + destruct (String.eqb_spec j k') as [->|Hjk'].
      * destruct (String.eqb_spec k k') as [->|Hkk]; [congruence | reflexivity].
      * exact IH.
Qed.

Lemma keys_update {A} (o : object A) (k : string) (f : A -> A) :
  map fst (update o k f) = map fst o.
Proof.
  induction o as [|[j x] o IH]; cbn [update map fst]; [reflexivity|].
  destruct (String.eqb j k); cbn [map fst]; [reflexivity | now rewrite IH].
Qed.

Lemma own_None_not_key {A} (o : object A) (k : string) :
  own o k = None -> ~ In k (map fst o).
Proof.
  induction o as [|[j x] o IH]; cbn [own map fst In]; [tauto|].
  destruct (String.eqb_spec j k) as [->|Hjk]; [discriminate|].
  intros H [E|Hin]; [congruence | exact (IH H Hin)].
Qed.

Lemma lookup_cases {A} (o : object A) (k : string) :
  (exists a, own o k = Some a /\ lookup o k = Own a)
  \/ (own o k = None /\ inherited k = true /\ lookup o k = Inherited)
  \/ (own o k = None /\ inherited k = false /\ lookup o k = Absent).
Proof.
  unfold lookup. destruct (own o k) as [a|]; [left; eauto|].
  destruct (inherited k); auto.
Qed.

(** What one call of the reducer does when the project key of the record is
    not a name inherited from Object.prototype. *)
Lemma groupByProject_step_ok (acc : object Group.t) (load : record) :
  inherited (ToString (project_key load)) = false ->
  exists acc',
    groupByProject_step acc load = Ok acc'
    /\ (forall name,
          own acc' name
          = if String.eqb (ToString (project_key load)) name then
              Some (Group.push load
                      match own acc name with
                      | Some g => g
                      | None =>
                          {| Group.projectId := project_key load;
                             Group.projectName :=
                               (get load "projectName" || get load "project_name"
                                || project_key load)%js;
                             Group.loads := [] |}
                      end)
            else own acc name)
    /\ (map fst acc' = map fst acc
        \/ (own acc (ToString (project_key load)) = None
            /\ map fst acc' = (map fst acc ++ [ToString (project_key load)])%list)).
Proof.
  intros Hni. unfold groupByProject_step.
  set (key := project_key load) in *. set (name := ToString key) in *.
  destruct (lookup_cases acc name) as [(g & Eo & El)|[(Eo & Hi & El)|(Eo & Hi & El)]].
  - rewrite El, El. eexists. split; [reflexivity|]. split.
    + intros n. rewrite own_update.
      destruct (String.eqb_spec name n) as [<-|]; [now rewrite Eo | reflexivity].
    + left. apply keys_update.
  - congruence.
  - rewrite El. set (fresh := {| Group.projectId := key |}).
    assert (El' : lookup (define acc name fresh) name = Own fresh).
    { unfold lookup. now rewrite own_define, Eo, String.eqb_refl. }
    rewrite El'. eexists. split; [reflexivity|]. split.
    + intros n. rewrite own_update, own_define.
      destruct (String.eqb_spec name n) as [<-|]; [now rewrite Eo|].
      now destruct (own acc n).
    + right. split; [exact Eo|].
      rewrite keys_update. unfold define. rewrite map_app. reflexivity.
Qed.

Lemma filter_snoc {A} (p : A -> bool) (xs : list A) (x : A) :
  filter p (xs ++ [x]) = (filter p xs ++ if p x then [x] else [])%list.
Proof. rewrite filter_app. cbn [filter]. now destruct (p x). Qed.

Lemma groupByProject_from (loads seen : list record) (acc : object Group.t) :
  (forall l, In l loads -> inherited (ToString (project_key l)) = false) ->
  groups_of acc seen ->
  exists groups,
    foldM groupByProject_step loads acc = Ok groups
    /\ groups_of groups (seen ++ loads).
Proof.
  revert seen acc. induction loads as [|l loads IH]; intros seen acc Hni Hacc.
  - exists acc. rewrite app_nil_r. split; [reflexivity | assumption].
  - destruct (groupByProject_step_ok acc l (Hni l (or_introl eq_refl)))
      as (acc' & Estep & Hown & Hkeys).
    cbn [foldM]. rewrite Estep. cbn [bind].
    replace (seen ++ l :: loads)%list with ((seen ++ [l]) ++ loads)%list
      by (rewrite <- app_assoc; reflexivity).
    apply IH; [intros x Hx; apply Hni; now right|].
    destruct Hacc as [Hnd Hcls]. split.
    + destruct Hkeys as [->|[Enone ->]]; [assumption|].
      apply NoDup_app; [assumption | repeat constructor; intros [] | ].
      intros x Hx [<-|[]]. exact (own_None_not_key _ _ Enone Hx).
    + intros name. rewrite Hown, filter_snoc.
      change (has_key name l) with (String.eqb (ToString (project_key l)) name).
      specialize (Hcls name).
      destruct (String.eqb_spec (ToString (project_key l)) name) as [E|E].
      * revert Hcls. destruct (own acc name) as [g|]; intros Hcls;
          cbn [Group.push Group.loads].
        -- destruct Hcls as [-> _]. split; [reflexivity|].
           intros H. apply app_eq_nil in H as [_ H]. discriminate.
        -- rewrite Hcls. cbn [app]. split; [reflexivity | discriminate].
      * rewrite app_nil_r. exact Hcls.
Qed.

(** When no project key is a name inherited from Object.prototype, the
    grouping succeeds and partitions the records: the group under a key
    holds exactly the records with that key, in their order, every record
    is in the group of its key, and that key is the project identifier the
    normalizer gives the record. *)
Lemma groupByProject_partition (h : Host) (loads : list record) :
  (forall l, In l loads -> inherited (ToString (project_key l)) = false) ->
  exists groups,
    groupByProject loads = Ok groups
    /\ groups_of groups loads
    /\ forall l, In l loads ->
         ToString (Canonical.projectId (normalizeLoad h l)) = ToString (project_key l)
         /\ exists g, own groups (ToString (project_key l)) = Some g
                      /\ In l (Group.loads g).
Proof.
  intros Hni. unfold groupByProject.
  destruct (groupByProject_from loads [] [] Hni) as (groups & E & Hg).
  { split; [constructor | intros name; reflexivity]. }
  cbn [app] in Hg. exists groups. split; [exact E|]. split; [exact Hg|].
  intros l Hin. split; [reflexivity|].
  destruct Hg as [_ Hcls]. specialize (Hcls (ToString (project_key l))).
  assert (Hf : In l (filter (has_key (ToString (project_key l))) loads)).
  { apply filter_In. split; [assumption|]. unfold has_key. apply String.eqb_refl. }
  destruct (own groups (ToString (project_key l))) as [g|].
  - exists g. split; [reflexivity|]. destruct Hcls as [-> _]. exact Hf.
  - rewrite Hcls in Hf. destruct Hf.
Qed.

Lemma groupByProject_step_inherited (acc : object Group.t) (load : record) :
  no_inherited_key acc ->
  inherited (ToString (project_key load)) = true ->
  groupByProject_step acc load
  = Throw (TypeError "Cannot read properties of undefined (reading 'push')").
Proof.
  intros Hacc Hi.
  assert (El : lookup acc (ToString (project_key load)) = Inherited)
    by (unfold lookup; now rewrite (Hacc _ Hi), Hi).
  unfold groupByProject_step. cbn zeta. now rewrite El, El.
Qed.

Lemma groupByProject_throws_from (loads : list record) (acc : object Group.t) :
  no_inherited_key acc ->
  (exists l, In l loads /\ inherited (ToString (project_key l)) = true) ->
  exists e, foldM groupByProject_step loads acc = Throw e.
Proof.
  revert acc. induction loads as [|x loads IH]; intros acc Hacc (l & Hin & Hi).
  - destruct Hin.
  - cbn [foldM].
    destruct (inherited (ToString (project_key x))) eqn:Hx.
    + rewrite (groupByProject_step_inherited acc x Hacc Hx). cbn [bind]. eauto.
    + destruct (groupByProject_step_ok acc x Hx) as (acc' & E & Hown & _).
      rewrite E. cbn [bind]. apply IH.
      * intros name Hn. rewrite Hown.
        destruct (String.eqb_spec (ToString (project_key x)) name) as [<-|];
          [congruence | now apply Hacc].
      * destruct Hin as [->|Hin]; [congruence|]. eauto.
Qed.

(** C9.  A record whose project identifier is the name of a property that
    every object inherits (constructor, toString, __proto__ ...) finds that
    property under [acc[key]]: no group is created and the push throws.  The
    whole grouping fails and no record is placed. *)
Theorem groupByProject_throws_on_inherited_key (loads : list record) :
  (exists l, In l loads /\ inherited (ToString (project_key l)) = true) ->
  exists e, groupByProject loads = Throw e.
Proof.
  apply groupByProject_throws_from. intros name _. reflexivity.
Qed.

Lemma groupByProject_throws_on_inherited_key_witness :
  (exists e, groupByProject constructor_loads = Throw e)
  /\ groupByProject constructor_loads
     = Throw (TypeError "Cannot read properties of undefined (reading 'push')").
Proof.
  split; [|reflexivity].
  apply (groupByProject_throws_on_inherited_key constructor_loads).
  exists [("projectId", VString "constructor")]. split; [right; left; reflexivity|].
  reflexivity.
Defined.

(** ** Record separators of the two documents *)

Lemma alpha_groups_grouped : groupByProject alpha_loads = Ok alpha_groups.
Proof. reflexivity. Qed.

(** C4, counterexample.  Without any group the IIF document is its three
    header lines and the CSV document its header row; with the two loads of
    project Alpha they end with ENDTRNS and with the last field of the last
    row.  None of the four ends with CRLF. *)
Lemma documents_do_not_end_with_CRLF :
  buildIIF Sample.host [] = Ok (join CRLF IIF_HEADER)
  /\ ends_with CRLF (join CRLF IIF_HEADER) = false
  /\ buildCSV Sample.host [] = Ok CSV_HEADER
  /\ ends_with CRLF CSV_HEADER = false
  /\ (exists doc, buildIIF Sample.host alpha_groups = Ok doc
                  /\ ends_with "ENDTRNS" doc = true /\ ends_with CRLF doc = false)
  /\ (exists doc, buildCSV Sample.host alpha_groups = Ok doc
                  /\ ends_with ",0.0000" doc = true /\ ends_with CRLF doc = false).
Proof.
  split; [reflexivity|]. split; [reflexivity|].
  split; [reflexivity|]. split; [reflexivity|].
  split; eexists; (split; [vm_compute; reflexivity|]); split; vm_compute; reflexivity.
Qed.

Lemma eqb_length (s t : string) :
  String.eqb s t = true -> String.length s = String.length t.
Proof. intros H. apply String.eqb_eq in H. now subst. Qed.

Lemma ends_with_append (suffix a b : string) :
  (String.length suffix <= String.length b)%nat ->
  ends_with suffix (a ++ b) = ends_with suffix b.
Proof.
  intros Hlen. induction a as [|c a IH]; cbn [append ends_with]; [reflexivity|].
  rewrite IH. destruct (String.eqb suffix (String c (a ++ b))) eqn:E; [|reflexivity].
  apply eqb_length in E. cbn [String.length] in E. rewrite length_append in E. lia.
Qed.

Lemma ends_in_char_append (p : ascii -> bool) (a b : string) :
  b <> EmptyString -> ends_in_char p (a ++ b) = ends_in_char p b.
Proof.
  intros Hb. induction a as [|c a IH]; cbn [append]; [reflexivity|].
  cbn [ends_in_char]. rewrite IH.
  destruct (a ++ b) eqn:E; [|reflexivity].
  destruct a; cbn in E; [congruence | discriminate].
Qed.

Lemma ends_in_char_all (p : ascii -> bool) (s : string) :
  all_chars p s = true -> s <> EmptyString -> ends_in_char p s = true.
Proof.
  induction s as [|c s IH]; [congruence|].
  cbn [all_chars ends_in_char]. intros H _.
  apply andb_true_iff in H as [Hc Hs].
  destruct s; [exact Hc | apply IH; [exact Hs | discriminate]].
Qed.

(** A text whose last character is not a line feed does not end with CRLF. *)
Lemma not_lf_not_CRLF (s : string) :
  ends_in_char not_lf s = true -> ends_with CRLF s = false.
Proof.
  induction s as [|c s IH]; [reflexivity|].
  cbn [ends_in_char ends_with]. destruct s as [|d s].
  - intros _. rewrite orb_false_r.
    destruct (String.eqb CRLF (String c EmptyString)) eqn:E; [|reflexivity].
    apply String.eqb_eq in E. discriminate E.
  - intros H. rewrite (IH H), orb_false_r.
    destruct (String.eqb CRLF (String c (String d s))) eqn:E; [|reflexivity].
    apply String.eqb_eq in E. injection E as <- <- <-. discriminate H.
Qed.

Lemma join_snoc (sep : string) (xs : list string) (x : string) :
  exists prefix, join sep (xs ++ [x]) = prefix ++ x.
Proof.
  unfold join. induction xs as [|y xs IH].
  - exists EmptyString. reflexivity.
  - destruct IH as (p & E). cbn [app String.concat].
    destruct (xs ++ [x])%list eqn:Ex.
    + destruct xs; discriminate.
    + rewrite E. exists (y ++ sep ++ p). now rewrite !append_assoc.
Qed.

(** ** Loops *)

Lemma foldM_preserves {A S} (P : S -> Prop) (step : S -> A -> result S) :
  (forall st a st', P st -> step st a = Ok st' -> P st') ->
  forall xs st st', P st -> foldM step xs st = Ok st' -> P st'.
Proof.
  intros Hstep. induction xs as [|x xs IH]; intros st st' HP E; cbn [foldM] in E.
  - now injection E as <-.
  - destruct (step st x) as [st1|e] eqn:E1; [|discriminate].
    cbn [bind] in E. exact (IH _ _ (Hstep _ _ _ HP E1) E).
Qed.

Lemma bind_Ok {A B} (m : result A) (k : A -> result B) (b : B) :
  bind m k = Ok b -> exists a, m = Ok a /\ k a = Ok b.
Proof. destruct m as [a|e]; [eauto | discriminate]. Qed.

(** ** What the printed numbers are made of *)

Lemma digit_not_lf (c : ascii) : is_digit c = true -> not_lf c = true.
Proof. each_ascii c; intros H; try discriminate H; reflexivity. Qed.

Lemma N_digits_clean (n : N) :
  all_chars not_lf (N_digits n) = true /\ N_digits n <> EmptyString.
Proof.
  destruct (N_digits_spec n) as (H & _ & Hne). split; [|exact Hne].
  revert H. apply all_chars_weaken, digit_not_lf.
Qed.

Lemma append_not_empty_l (a b : string) : a <> EmptyString -> a ++ b <> EmptyString.
Proof. destruct a; [congruence | discriminate]. Qed.

Lemma append_not_empty_r (a b : string) : b <> EmptyString -> a ++ b <> EmptyString.
Proof. destruct a; [now cbn | discriminate]. Qed.

Ltac clean_chars :=
  repeat (rewrite all_chars_append || rewrite all_chars_substring
          || rewrite all_chars_repeat || cbn [all_chars]);
  repeat match goal with
    | H : all_chars not_lf ?s = true |- context [all_chars not_lf ?s] => rewrite H
    end;
  try reflexivity.

Lemma exponent_suffix_clean (e : Z) : all_chars not_lf (exponent_suffix e) = true.
Proof.
  unfold exponent_suffix. destruct (N_digits_clean (Z.abs_N e)) as [H _].
  destruct (e <? 0); clean_chars.
Qed.

Lemma positive_to_string_clean (q : Q) :
  all_chars not_lf (positive_to_string q) = true
  /\ positive_to_string q <> EmptyString.
Proof.
  unfold positive_to_string. destruct (scientific q) as [[s k] n].
  destruct (N_digits_clean s) as [H Hne].
  pose proof (exponent_suffix_clean (n - 1)) as He.
  repeat match goal with |- context [if ?b then _ else _] => destruct b end;
    (split;
     [ clean_chars
     | first [ apply append_not_empty_l; exact Hne
             | apply append_not_empty_r; discriminate
             | discriminate ] ]).
Qed.

Lemma Number_toString_clean (x : number) :
  all_chars not_lf (Number_toString x) = true /\ Number_toString x <> EmptyString.
Proof.
  destruct x as [| | |q]; cbn [Number_toString]; try (split; [reflexivity | discriminate]).
  destruct (Qsign q).
  - split; [reflexivity | discriminate].
  - exact (positive_to_string_clean q).
  - destruct (positive_to_string_clean (- q)) as [H _]. split; [|discriminate].
    clean_chars.
Qed.

Lemma fixed_digits_clean (f : nat) (n : Z) :
  all_chars not_lf (fixed_digits f n) = true /\ fixed_digits f n <> EmptyString.
Proof.
  unfold fixed_digits. destruct (N_digits_clean (Z.to_N n)) as [H Hne].
  destruct f as [|f]; [now split|].
  set (m' := repeat_string _ _ ++ _).
  assert (Hm : all_chars not_lf m' = true) by (unfold m'; clean_chars).
  split; [clean_chars | apply append_not_empty_r; discriminate].
Qed.

Lemma toFixed_clean (f : nat) (x : number) :
  all_chars not_lf (toFixed f x) = true /\ toFixed f x <> EmptyString.
Proof.
  destruct x as [| | |q]; try exact (Number_toString_clean _).
  unfold toFixed.
  destruct (Qle_bool _ _); [exact (Number_toString_clean _)|].
  destruct (Qsign q <? 0); [|exact (fixed_digits_clean _ _)].
  destruct (fixed_digits_clean f (nearest_scaled f (- q))) as [H _].
  split; [clean_chars | discriminate].
Qed.

Lemma join_last (sep : string) (xs : list string) :
  xs <> [] -> exists prefix, join sep xs = prefix ++ last xs EmptyString.
Proof.
  intros Hne.
  destruct (join_snoc sep (removelast xs) (last xs EmptyString)) as (p & E).
  exists p. rewrite <- E. f_equal. now apply app_removelast_last.
Qed.

(** ** The last line of each document *)

Lemma iif_invoice_terminated projectId projectName qbClass st entry st' :
  iif_invoice projectId projectName qbClass st entry = Ok st' -> iif_terminated st'.
Proof.
  destruct st as [[n lines] issued], entry as [invoiceDate dayLoads].
  unfold iif_invoice. intros E. apply bind_Ok in E as (lines' & _ & E).
  injection E as <-. exists lines', "ENDTRNS". cbn. auto.
Qed.

Lemma iif_project_terminated h st entry st' :
  iif_terminated st -> iif_project h st entry = Ok st' -> iif_terminated st'.
Proof.
  destruct entry as [projectId group]. unfold iif_project. intros HP E.
  apply bind_Ok in E as (projectName & _ & E).
  apply bind_Ok in E as (dates & _ & E).
  revert E. apply foldM_preserves; [|exact HP].
  intros s a s' _. apply iif_invoice_terminated.
Qed.

Lemma buildIIF_run_terminated h projectGroups st :
  buildIIF_run h projectGroups = Ok st -> iif_terminated st.
Proof.
  unfold buildIIF_run. apply foldM_preserves.
  - intros s a s'. apply iif_project_terminated.
  - exists (firstn 2 IIF_HEADER), "!ENDTRNS". cbn. auto.
Qed.

Lemma csv_row_clean h projectName qbClass invoiceDate dueDate docNum load :
  ends_in_char not_lf (csv_row h projectName qbClass invoiceDate dueDate docNum load)
  = true.
Proof.
  unfold csv_row.
  match goal with |- context [join "," ?fields] =>
    destruct (join_last "," fields ltac:(discriminate)) as (p & E)
  end.
  rewrite E. cbn [last].
  destruct (toFixed_clean 4 (num_or_zero (Canonical.carbonSaved load))) as [Hc Hne].
  rewrite ends_in_char_append by exact Hne.
  now apply ends_in_char_all.
Qed.

Lemma csv_rows_terminated h projectName qbClass invoiceDate dueDate docNum dayLoads :
  forall n rows issued n' issued',
    csv_terminated (n, rows, issued) ->
    csv_terminated
      (n',
       fold_left
         (fun rows load =>
            rows ++ [csv_row h projectName qbClass invoiceDate dueDate docNum load])%list
         dayLoads rows,
       issued').
Proof.
  induction dayLoads as [|load dayLoads IH]; intros n rows issued n' issued' HP.
  - exact HP.
  - cbn [fold_left]. apply (IH n _ issued).
    eexists rows, _. split; [reflexivity | apply csv_row_clean].
Qed.

Lemma csv_invoice_terminated h projectId projectName qbClass st entry st' :
  csv_terminated st ->
  csv_invoice h projectId projectName qbClass st entry = Ok st' -> csv_terminated st'.
Proof.
  destruct st as [[n rows] issued], entry as [invoiceDate dayLoads].
  unfold csv_invoice. intros HP E. injection E as <-.
  now apply (csv_rows_terminated _ _ _ _ _ _ _ n rows issued).
Qed.

Lemma csv_project_terminated h st entry st' :
  csv_terminated st -> csv_project h st entry = Ok st' -> csv_terminated st'.
Proof.
  destruct entry as [projectId group]. unfold csv_project. intros HP E.
  apply bind_Ok in E as (projectName & _ & E).
  apply bind_Ok in E as (dates & _ & E).
  revert E. apply foldM_preserves; [|exact HP].
  intros s a s'. apply csv_invoice_terminated.
Qed.

Lemma buildCSV_run_terminated h projectGroups st :
  buildCSV_run h projectGroups = Ok st -> csv_terminated st.
Proof.
  unfold buildCSV_run. apply foldM_preserves.
  - intros s a s'. apply csv_project_terminated.
  - exists [], CSV_HEADER. split; reflexivity.
Qed.

(** C4, amended.  Each document is the lines the serializer pushed, joined
    with CRLF: CRLF stands between consecutive records and nothing follows
    the last one.  An IIF document ends with the terminator line ENDTRNS
    (of the last invoice, or of the header) and a CSV document with the last
    character of its last row; neither ends with CRLF. *)
Theorem documents_join_lines_with_CRLF (h : Host) (projectGroups : object Group.t) :
  (forall doc, buildIIF h projectGroups = Ok doc ->
     exists n lines issued,
       buildIIF_run h projectGroups = Ok (n, lines, issued)
       /\ doc = join CRLF lines
       /\ ends_with "ENDTRNS" doc = true
       /\ ends_with CRLF doc = false)
  /\ (forall doc, buildCSV h projectGroups = Ok doc ->
        exists n rows issued,
          buildCSV_run h projectGroups = Ok (n, rows, issued)
          /\ doc = join CRLF rows
          /\ ends_with CRLF doc = false).
Proof.
  split; intros doc E.
  - unfold buildIIF in E. apply bind_Ok in E as ([[n lines] issued] & Erun & E).
    injection E as <-. exists n, lines, issued.
    split; [exact Erun|]. split; [reflexivity|].
    destruct (buildIIF_run_terminated _ _ _ Erun) as (l & x & El & Hx).
    cbn [fst snd] in El. subst lines.
    destruct (join_snoc CRLF l x) as (p & ->).
    destruct Hx as [-> | ->]; rewrite !ends_with_append by (cbn; lia); split; reflexivity.
  - unfold buildCSV in E. apply bind_Ok in E as ([[n rows] issued] & Erun & E).
    injection E as <-. exists n, rows, issued.
    split; [exact Erun|]. split; [reflexivity|].
    destruct (buildCSV_run_terminated _ _ _ Erun) as (l & x & El & Hx).
    cbn [fst snd] in El. subst rows.
    destruct (join_snoc CRLF l x) as (p & ->).
    apply not_lf_not_CRLF. rewrite ends_in_char_append; [exact Hx|].
    intros ->. discriminate Hx.
Qed.

Lemma documents_join_lines_with_CRLF_witness :
  (exists n lines issued,
     buildIIF_run Sample.host alpha_groups = Ok (n, lines, issued)
     /\ List.length lines = 7%nat
     /\ ends_with CRLF (join CRLF lines) = false)
  /\ (exists n rows issued,
        buildCSV_run Sample.host alpha_groups = Ok (n, rows, issued)
        /\ List.length rows = 3%nat
        /\ ends_with CRLF (join CRLF rows) = false).
Proof.
  split.
  - destruct (proj1 (documents_join_lines_with_CRLF Sample.host alpha_groups)
                (match buildIIF Sample.host alpha_groups with
                 | Ok d => d | Throw _ => EmptyString end) eq_refl)
      as (n & lines & issued & Erun & Edoc & _ & Hend).
    exists n, lines, issued. split; [exact Erun|].
    rewrite <- Edoc. split; [|exact Hend].
    vm_compute in Erun. injection Erun as _ <- _. reflexivity.
  - destruct (proj2 (documents_join_lines_with_CRLF Sample.host alpha_groups)
                (match buildCSV Sample.host alpha_groups with
                 | Ok d => d | Throw _ => EmptyString end) eq_refl)
      as (n & rows & issued & Erun & Edoc & Hend).
    exists n, rows, issued. split; [exact Erun|].
    rewrite <- Edoc. split; [|exact Hend].
    vm_compute in Erun. injection Erun as _ <- _. reflexivity.
Defined.

(** ** Document numbers of the two formats *)




Lemma iif_invoice_numbered projectId projectName qbClass st entry st' :
  numbered st ->
  iif_invoice projectId projectName qbClass st entry = Ok st' -> numbered st'.
Proof.
  destruct st as [[n lines] issued], entry as [invoiceDate dayLoads].
  intros [Hn Hi] E. cbn [fst snd] in Hn, Hi.
  unfold iif_invoice in E. apply bind_Ok in E as (lines' & _ & E). injection E as <-.
  unfold numbered. cbn [fst snd].
  rewrite length_app, map_app, seq_app, map_app, <- Hi. cbn [List.length map seq snd].
  split; [lia|]. f_equal. unfold nth_docNum. rewrite Nat.add_0_l, Hn. reflexivity.
Qed.

Lemma iif_project_numbered h st entry st' :
  numbered st -> iif_project h st entry = Ok st' -> numbered st'.
Proof.
  destruct entry as [projectId group]. unfold iif_project. intros HP E.
  apply bind_Ok in E as (projectName & _ & E).
  apply bind_Ok in E as (dates & _ & E).
  revert E. apply foldM_preserves; [|exact HP].
  intros s a s'. apply iif_invoice_numbered.
Qed.

(** ** The lines of one invoice *)

Lemma fold_left_snoc_map {A B} (f : A -> B) (xs : list A) (acc : list B) :
  fold_left (fun acc x => acc ++ [f x])%list xs acc = (acc ++ map f xs)%list.
Proof.
  revert acc. induction xs as [|x xs IH]; intros acc; cbn [fold_left map].
  - now rewrite app_nil_r.
  - rewrite IH, <- app_assoc. reflexivity.
Qed.

(** Format B: the rows of an invoice all carry the number that the loop
    bound for it. *)
Lemma csv_invoice_rows h projectId projectName qbClass n rows issued invoiceDate dayLoads :
  let docNum := "DS-" ++ Z_to_string n in
  csv_invoice h projectId projectName qbClass (n, rows, issued) (invoiceDate, dayLoads)
  = Ok (n + 1,
        (rows ++ map (csv_row h projectName qbClass invoiceDate
                        (csv_dueDate h invoiceDate) docNum)
                   dayLoads)%list,
        (issued ++ [(projectId, invoiceDate, docNum)])%list).
Proof.
  cbn zeta. unfold csv_invoice. now rewrite fold_left_snoc_map.
Qed.

Lemma iif_spl_lines projectName qbClass invoiceDate docNum dayLoads :
  forall lines lines',
    foldM (iif_spl projectName qbClass invoiceDate docNum) dayLoads lines = Ok lines' ->
    exists spl,
      lines' = (lines ++ spl)%list
      /\ Forall2 (fun load line =>
                    exists memo, iif_memo load = Ok memo
                                 /\ line = spl_line projectName qbClass invoiceDate
                                             docNum load memo)
           dayLoads spl.
Proof.
  induction dayLoads as [|load dayLoads IH]; intros lines lines' E; cbn [foldM] in E.
  - injection E as <-. exists []. rewrite app_nil_r. split; constructor.
  - apply bind_Ok in E as (lines1 & E1 & E).
    rewrite iif_spl_amount in E1. apply bind_Ok in E1 as (memo & Em & E1).
    injection E1 as <-.
    destruct (IH _ _ E) as (spl & -> & Hspl).
    eexists (_ :: spl). rewrite <- app_assoc. split; [reflexivity|].
    constructor; [|exact Hspl]. exists memo. split; [exact Em | reflexivity].
Qed.

(** Format A: an invoice is its TRNS line with the rounded batch total, one
    SPL line per load with the negated rounded line amount, and ENDTRNS;
    all carry the number that the loop bound for it. *)
Lemma iif_invoice_lines projectId projectName qbClass n lines issued invoiceDate dayLoads st' :
  iif_invoice projectId projectName qbClass (n, lines, issued) (invoiceDate, dayLoads)
  = Ok st' ->
  let docNum := "DS-" ++ Z_to_string n in
  exists spl,
    st' = (n + 1,
           (lines ++ iif_trns projectName qbClass invoiceDate docNum (iif_total dayLoads)
                  :: spl ++ ["ENDTRNS"])%list,
           (issued ++ [(projectId, invoiceDate, docNum)])%list)
    /\ Forall2 (fun load line =>
                  exists memo, iif_memo load = Ok memo
                               /\ line = spl_line projectName qbClass invoiceDate
                                           docNum load memo)
         dayLoads spl.
Proof.
  cbn zeta. unfold iif_invoice. intros E.
  apply bind_Ok in E as (lines' & E' & E). injection E as <-.
  destruct (iif_spl_lines _ _ _ _ _ _ _ E') as (spl & -> & Hspl).
  exists spl. split; [|exact Hspl].
  f_equal. f_equal. rewrite <- !app_assoc. reflexivity.
Qed.

(** ** Object.entries *)

Lemma insert_index_perm {A} (i : N) (e : string * A) (l : list (N * (string * A))) :
  Permutation (insert_index i e l) ((i, e) :: l).
Proof.
  induction l as [|[j e'] l IH]; cbn [insert_index]; [apply Permutation_refl|].
  destruct (i <? j)%N; [apply Permutation_refl|].
  apply Permutation_trans with ((j, e') :: (i, e) :: l); [|apply perm_swap].
  now apply perm_skip.
Qed.

Lemma index_entries_perm {A} (o : object A) :
  Permutation (map snd (index_entries o)) (filter (fun e => is_index (fst e)) o).
Proof.
  induction o as [|e o IH]; cbn [index_entries filter]; [apply Permutation_refl|].
  unfold is_index at 1. destruct (array_index (fst e)) as [i|]; [|exact IH].
  apply Permutation_trans with (map snd ((i, e) :: index_entries o)).
  - apply Permutation_map, insert_index_perm.
  - cbn [map snd]. now apply perm_skip.
Qed.

Lemma filter_split_perm {A} (p : A -> bool) (l : list A) :
  Permutation (filter p l ++ filter (fun x => negb (p x)) l) l.
Proof.
  induction l as [|x l IH]; cbn [filter]; [apply Permutation_refl|].
  destruct (p x); cbn [negb app].
  - now apply perm_skip.
  - apply Permutation_sym, Permutation_cons_app, Permutation_sym, IH.
Qed.

(** [Object.entries] lists every own property once. *)
Lemma Object_entries_perm {A} (o : object A) : Permutation (Object_entries o) o.
Proof.
  unfold Object_entries.
  apply Permutation_trans
    with (filter (fun e => is_index (fst e)) o
          ++ filter (fun e => negb (is_index (fst e))) o)%list.
  - apply Permutation_app_tail, index_entries_perm.
  - apply (filter_split_perm (fun e => is_index (fst e))).
Qed.

Lemma Object_entries_NoDup {A} (o : object A) :
  NoDup (map fst o) -> NoDup (map fst (Object_entries o)).
Proof.
  apply Permutation_NoDup, Permutation_map, Permutation_sym, Object_entries_perm.
Qed.

Lemma Object_entries_In {A} (o : object A) (e : string * A) :
  In e (Object_entries o) <-> In e o.
Proof.
  split; apply Permutation_in;
    [apply Object_entries_perm | apply Permutation_sym, Object_entries_perm].
Qed.

(** ** Batches by invoice date *)

Lemma toQBDate_has_slash (h : Host) (v : value) :
  exists a b, toQBDate h v = a ++ String "/" b.
Proof. unfold toQBDate, try_catch. eexists _, _. reflexivity. Qed.

Lemma eqb_no_slash (a b name : string) :
  all_chars not_slash name = true -> String.eqb (a ++ String "/" b) name = false.
Proof.
  intros H. destruct (String.eqb_spec (a ++ String "/" b) name) as [E|]; [|reflexivity].
  rewrite <- E, all_chars_append in H. cbn in H. now rewrite andb_false_r in H.
Qed.

(** A formatted date is never the name of an inherited property. *)
Lemma toQBDate_not_inherited (h : Host) (v : value) : inherited (toQBDate h v) = false.
Proof.
  destruct (toQBDate_has_slash h v) as (a & b & ->).
  unfold inherited, Object_prototype_names. cbn [existsb].
  rewrite !eqb_no_slash by reflexivity. reflexivity.
Qed.

Lemma batch_sizes_define {A} (o : object (list A)) (k : string) :
  batch_sizes (define o k []) = batch_sizes o.
Proof.
  unfold define, batch_sizes. induction o as [|e o IH]; cbn; [reflexivity|].
  cbn in IH. now rewrite IH.
Qed.

Lemma batch_sizes_push {A} (o : object (list A)) (k : string) (x : A) (b : list A) :
  own o k = Some b ->
  batch_sizes (update o k (fun dayLoads => dayLoads ++ [x])%list) = S (batch_sizes o).
Proof.
  unfold batch_sizes. induction o as [|[j y] o IH]; cbn [own update]; [discriminate|].
  destruct (String.eqb j k); cbn [fold_right snd].
  - intros _. rewrite length_app. cbn. lia.
  - intros H. rewrite (IH H). lia.
Qed.

(** One call of the reducer by date: it never throws, and it appends the
    load to the batch of its date, which it creates when there is none. *)
Lemma byDate_step_ok (h : Host) (acc : object (list Canonical.load)) (l : Canonical.load) :
  exists acc',
    byDate_step h acc l = Ok acc'
    /\ (forall key,
          own acc' key
          = if String.eqb (toQBDate h (Canonical.date l)) key then
              Some (match own acc key with Some b => b | None => [] end ++ [l])%list
            else own acc key)
    /\ (map fst acc' = map fst acc
        \/ (own acc (toQBDate h (Canonical.date l)) = None
            /\ map fst acc' = (map fst acc ++ [toQBDate h (Canonical.date l)])%list))
    /\ batch_sizes acc' = S (batch_sizes acc).
Proof.
  unfold byDate_step. set (key := toQBDate h (Canonical.date l)).
  pose proof (toQBDate_not_inherited h (Canonical.date l)) as Hni. fold key in Hni.
  destruct (lookup_cases acc key) as [(b & Eo & El)|[(Eo & Hi & El)|(Eo & Hi & El)]].
  - rewrite El, El. eexists. split; [reflexivity|]. split; [|split].
    + intros k. rewrite own_update.
      destruct (String.eqb_spec key k) as [<-|]; [now rewrite Eo | reflexivity].
    + left. apply keys_update.
    + now apply batch_sizes_push with b.
  - congruence.
  - rewrite El.
    assert (Eo' : own (define acc key []) key = Some (@nil Canonical.load))
      by now rewrite own_define, Eo, String.eqb_refl.
    assert (El' : lookup (define acc key []) key = Own (@nil Canonical.load))
      by (unfold lookup; now rewrite Eo').
    rewrite El'. eexists. split; [reflexivity|]. split; [|split].
    + intros k. rewrite own_update, own_define.
      destruct (String.eqb_spec key k) as [<-|]; [now rewrite Eo|].
      now destruct (own acc k).
    + right. split; [exact Eo|].
      rewrite keys_update. unfold define. now rewrite map_app.
    + rewrite (batch_sizes_push _ _ _ _ Eo'). now rewrite batch_sizes_define.
Qed.

Lemma byDate_from (h : Host) (loads seen : list Canonical.load)
  (acc : object (list Canonical.load)) :
  batches_of h acc seen ->
  exists dates,
    foldM (byDate_step h) loads acc = Ok dates
    /\ batches_of h dates (seen ++ loads)
    /\ batch_sizes dates = (batch_sizes acc + List.length loads)%nat.
Proof.
  revert seen acc. induction loads as [|l loads IH]; intros seen acc Hacc.
  - exists acc. rewrite app_nil_r, Nat.add_0_r. repeat split; try apply Hacc.
  - destruct (byDate_step_ok h acc l) as (acc' & Estep & Hown & Hkeys & Hsize).
    cbn [foldM]. rewrite Estep. cbn [bind].
    replace (seen ++ l :: loads)%list with ((seen ++ [l]) ++ loads)%list
      by (rewrite <- app_assoc; reflexivity).
    destruct (IH (seen ++ [l])%list acc') as (dates & E & Hd & Hs).
    + destruct Hacc as [Hnd Hcls]. split.
      * destruct Hkeys as [->|[Enone ->]]; [assumption|].
        apply NoDup_app; [assumption | repeat constructor; intros [] | ].
        intros x Hx [<-|[]]. exact (own_None_not_key _ _ Enone Hx).
      * intros key. rewrite Hown, filter_snoc.
        change (on_date h key l) with (String.eqb (toQBDate h (Canonical.date l)) key).
        specialize (Hcls key). revert Hcls.
        destruct (String.eqb (toQBDate h (Canonical.date l)) key).
        -- destruct (own acc key) as [b|]; intros Hcls.
           ++ destruct Hcls as [-> _]. split; [reflexivity|].
              intros H. apply app_eq_nil in H as [_ H]. discriminate.
           ++ rewrite Hcls. cbn [app]. split; [reflexivity | discriminate].
        -- rewrite app_nil_r. auto.
    + exists dates. split; [exact E|]. split; [exact Hd|].
      rewrite Hs, Hsize. cbn [List.length]. lia.
Qed.

(** The grouping by date never throws; the batch under a date holds exactly
    the loads of that date, in their order; no batch is empty; and the
    batches hold as many loads as there are. *)
Lemma byDate_ok (h : Host) (loads : list Canonical.load) :
  exists dates,
    byDate h loads = Ok dates
    /\ batches_of h dates loads
    /\ batch_sizes dates = List.length loads.
Proof.
  unfold byDate. destruct (byDate_from h loads [] []) as (dates & E & Hd & Hs).
  - split; [constructor | intros key; reflexivity].
  - exists dates. auto.
Qed.

(** ** When a loop completes *)

Lemma foldM_ok {A S} (P : A -> bool) (step : S -> A -> result S) :
  (forall st a, P a = true -> exists st', step st a = Ok st') ->
  forall xs st, forallb P xs = true -> exists st', foldM step xs st = Ok st'.
Proof.
  intros Hok. induction xs as [|x xs IH]; intros st H; cbn [foldM forallb] in *.
  - eauto.
  - apply andb_true_iff in H as [Hx Hxs].
    destruct (Hok st x Hx) as (st1 & ->). cbn [bind]. now apply IH.
Qed.

Lemma foldM_throws {A S} (P : A -> bool) (step : S -> A -> result S) :
  (forall st a, P a = false -> exists e, step st a = Throw e) ->
  forall xs st, forallb P xs = false -> exists e, foldM step xs st = Throw e.
Proof.
  intros Hthrow. induction xs as [|x xs IH]; intros st H; cbn [foldM forallb] in *.
  - discriminate.
  - destruct (step st x) as [st1|e] eqn:E; cbn [bind]; [|eauto].
    destruct (P x) eqn:Hx.
    + now apply IH.
    + destruct (Hthrow st x Hx) as (e & E'). congruence.
Qed.

Lemma foldM_ok_iff {A S} (P : A -> bool) (step : S -> A -> result S) :
  (forall st a, P a = true -> exists st', step st a = Ok st') ->
  (forall st a, P a = false -> exists e, step st a = Throw e) ->
  forall xs st, (exists st', foldM step xs st = Ok st') <-> forallb P xs = true.
Proof.
  intros Hok Hthrow xs st. split.
  - intros (st' & E). destruct (forallb P xs) eqn:H; [reflexivity|].
    destruct (foldM_throws P step Hthrow xs st H) as (e & E'). congruence.
  - now apply foldM_ok.
Qed.


Lemma is_text_as_string (what : string) (v : value) :
  (is_text v = true -> exists s, v = VString s /\ as_string what v = Ok s)
  /\ (is_text v = false -> exists e, as_string what v = Throw e).
Proof.
  destruct v; cbn; split; intros H; try discriminate; eauto.
Qed.

(** ** When Format B completes *)

Lemma csv_invoices_ok h projectId projectName qbClass entries st :
  exists st', foldM (csv_invoice h projectId projectName qbClass) entries st = Ok st'.
Proof.
  apply (foldM_ok (fun _ => true)); [|now induction entries].
  intros [[n rows] issued] [invoiceDate dayLoads] _. unfold csv_invoice. eauto.
Qed.

Lemma csv_project_ok h st entry :
  (named entry = true -> exists st', csv_project h st entry = Ok st')
  /\ (named entry = false -> exists e, csv_project h st entry = Throw e).
Proof.
  destruct entry as [projectId group]. unfold named, csv_project. cbn [snd].
  destruct (is_text_as_string "projectName.replace" (Group.projectName group)) as [Hy Hn].
  split; intros H.
  - destruct (Hy H) as (s & _ & ->). cbn [bind].
    destruct (byDate_ok h (map (normalizeLoad h) (Group.loads group))) as (dates & -> & _).
    cbn [bind]. apply csv_invoices_ok.
  - destruct (Hn H) as (e & ->). cbn [bind]. eauto.
Qed.


(** ** When Format A completes *)







(** ** How many lines the documents have *)

Lemma batch_sizes_perm {A} (l l' : list (string * list A)) :
  Permutation l l' -> batch_sizes l = batch_sizes l'.
Proof. unfold batch_sizes. induction 1; cbn [fold_right]; lia. Qed.

Lemma group_sizes_perm (l l' : list (string * Group.t)) :
  Permutation l l' -> group_sizes l = group_sizes l'.
Proof. unfold group_sizes. induction 1; cbn [fold_right]; lia. Qed.

Lemma csv_invoices_count h projectId projectName qbClass entries :
  forall n rows issued n' rows' issued',
    foldM (csv_invoice h projectId projectName qbClass) entries (n, rows, issued)
    = Ok (n', rows', issued') ->
    List.length rows' = (List.length rows + batch_sizes entries)%nat
    /\ List.length issued' = (List.length issued + List.length entries)%nat.
Proof.
  induction entries as [|[invoiceDate dayLoads] entries IH];
    intros n rows issued n' rows' issued' E; cbn [foldM] in E.
  - injection E as <- <- <-. cbn. lia.
  - rewrite csv_invoice_rows in E. cbn [bind] in E.
    apply IH in E as [Hr Hi]. rewrite Hr, Hi, !length_app, length_map.
    cbn [batch_sizes fold_right snd List.length]. unfold batch_sizes. lia.
Qed.

Lemma csv_project_count h projectId group n rows issued n' rows' issued' :
  csv_project h (n, rows, issued) (projectId, group) = Ok (n', rows', issued') ->
  List.length rows' = (List.length rows + List.length (Group.loads group))%nat.
Proof.
  unfold csv_project. intros E.
  apply bind_Ok in E as (projectName & _ & E).
  destruct (byDate_ok h (map (normalizeLoad h) (Group.loads group)))
    as (dates & Ed & _ & Hs).
  rewrite Ed in E. cbn [bind] in E.
  apply csv_invoices_count in E as [-> _].
  rewrite (batch_sizes_perm _ _ (Object_entries_perm dates)), Hs, length_map.
  reflexivity.
Qed.

Lemma csv_projects_count h entries :
  forall n rows issued n' rows' issued',
    foldM (csv_project h) entries (n, rows, issued) = Ok (n', rows', issued') ->
    List.length rows' = (List.length rows + group_sizes entries)%nat.
Proof.
  induction entries as [|[projectId group] entries IH];
    intros n rows issued n' rows' issued' E; cbn [foldM] in E.
  - injection E as _ <- _. cbn. lia.
  - apply bind_Ok in E as ([[n1 rows1] issued1] & E1 & E).
    apply csv_project_count in E1. apply IH in E. rewrite E, E1.
    cbn [group_sizes fold_right snd]. unfold group_sizes. lia.
Qed.

Lemma iif_invoices_count projectId projectName qbClass entries :
  forall n lines issued n' lines' issued',
    foldM (iif_invoice projectId projectName qbClass) entries (n, lines, issued)
    = Ok (n', lines', issued') ->
    (List.length lines' + 2 * List.length issued
     = List.length lines + 2 * List.length issued' + batch_sizes entries)%nat
    /\ List.length issued' = (List.length issued + List.length entries)%nat.
Proof.
  induction entries as [|[invoiceDate dayLoads] entries IH];
    intros n lines issued n' lines' issued' E; cbn [foldM] in E.
  - injection E as <- <- <-. cbn. lia.
  - apply bind_Ok in E as (st1 & E1 & E).
    apply iif_invoice_lines in E1 as (spl & -> & Hspl).
    apply IH in E as [Hl Hi]. apply Forall2_length in Hspl.
    rewrite !length_app in *. cbn [List.length] in *. rewrite !length_app in *.
    cbn [List.length batch_sizes fold_right snd] in *. unfold batch_sizes in *. lia.
Qed.

Lemma iif_project_count h projectId group n lines issued n' lines' issued' :
  iif_project h (n, lines, issued) (projectId, group) = Ok (n', lines', issued') ->
  (List.length lines' + 2 * List.length issued
   = List.length lines + 2 * List.length issued' + List.length (Group.loads group))%nat
  /\ (List.length issued <= List.length issued')%nat.
Proof.
  unfold iif_project. intros E.
  apply bind_Ok in E as (projectName & _ & E).
  destruct (byDate_ok h (map (normalizeLoad h) (Group.loads group)))
    as (dates & Ed & _ & Hs).
  rewrite Ed in E. cbn [bind] in E.
  apply iif_invoices_count in E as [Hl Hi].
  rewrite (batch_sizes_perm _ _ (Object_entries_perm dates)), Hs, length_map in Hl.
  split; [exact Hl | lia].
Qed.

Lemma iif_projects_count h entries :
  forall n lines issued n' lines' issued',
    foldM (iif_project h) entries (n, lines, issued) = Ok (n', lines', issued') ->
    (List.length lines' + 2 * List.length issued
     = List.length lines + 2 * List.length issued' + group_sizes entries)%nat
    /\ (List.length issued <= List.length issued')%nat.
Proof.
  induction entries as [|[projectId group] entries IH];
    intros n lines issued n' lines' issued' E; cbn [foldM] in E.
  - injection E as _ <- <-. cbn. lia.
  - apply bind_Ok in E as ([[n1 lines1] issued1] & E1 & E).
    apply iif_project_count in E1 as [H1 L1]. apply IH in E as [H2 L2].
    cbn [group_sizes fold_right snd]. unfold group_sizes in *. lia.
Qed.

(** ** One invoice and one number for each project and day *)
















(** ** What a canonical load always holds *)

Lemma or_else_default_truthy (a b : value) :
  ToBoolean b = true -> ToBoolean (a || b)%js = true.
Proof. unfold or_else. intros H. destruct (ToBoolean a) eqn:E; assumption. Qed.

Lemma or_else_default_empty (a b : value) :
  present_or_empty b = true -> present_or_empty (a || b)%js = true.
Proof.
  unfold or_else, present_or_empty. intros H.
  destruct (ToBoolean a) eqn:E; [now rewrite E | assumption].
Qed.

Lemma toISOString_not_empty (t : Z) : toISOString t <> EmptyString.
Proof.
  unfold toISOString. destruct (civil_from_days (Day t)) as [[y m] d].
  apply append_not_empty_r. discriminate.
Qed.

(** The normalizer leaves no field undefined.  The identifier, the date, the
    material, the project identifier and the project name are always truthy
    (a value of the record or the default); the ticket number, the hauler,
    the vehicle, the hash and the notes are truthy or the empty text. *)
Theorem normalizeLoad_leaves_no_gap (h : Host) (r : record) :
  let l := normalizeLoad h r in
  ToBoolean (Canonical.id l) = true
  /\ ToBoolean (Canonical.date l) = true
  /\ ToBoolean (Canonical.materialType l) = true
  /\ ToBoolean (Canonical.projectId l) = true
  /\ ToBoolean (Canonical.projectName l) = true
  /\ present_or_empty (Canonical.ticketNumber l) = true
  /\ present_or_empty (Canonical.hauler l) = true
  /\ present_or_empty (Canonical.truckId l) = true
  /\ present_or_empty (Canonical.hash l) = true
  /\ present_or_empty (Canonical.notes l) = true.
Proof.
  cbn zeta. unfold normalizeLoad.
  cbn [Canonical.id Canonical.date Canonical.materialType Canonical.projectId
       Canonical.projectName Canonical.ticketNumber Canonical.hauler Canonical.truckId
       Canonical.hash Canonical.notes].
  repeat split;
    try (apply or_else_default_truthy; reflexivity);
    try (apply or_else_default_empty; reflexivity).
  apply or_else_default_truthy. cbn [ToBoolean].
  pose proof (toISOString_not_empty (Date_now h)).
  destruct (toISOString (Date_now h)); [congruence | reflexivity].
Qed.

(** ** Weights and amounts are never NaN *)

Lemma scaled_nonneg (f : nat) (n : Z) : 0 <= n -> (0 <= scaled f n)%Q.
Proof.
  intros H. rewrite scaled_eq. apply Qle_shift_div_l; [apply Qpow10_pos|].
  rewrite Qmult_0_l. change 0%Q with (inject_Z 0). now rewrite <- Zle_Qle.
Qed.

Lemma round_half_even_le (x : Q) (N : Z) :
  (x <= inject_Z N)%Q -> round_half_even x <= N.
Proof.
  intros H. unfold round_half_even.
  assert (Hf : Qfloor x <= N) by (rewrite <- (Qfloor_Z N); now apply Qfloor_resp_le).
  destruct (Z.eq_dec (Qfloor x) N) as [E|E].
  - assert (Ex : (x - inject_Z (Qfloor x) == 0)%Q).
    { apply Qle_antisym.
      - rewrite E. apply Qle_minus_iff in H. apply Qle_minus_iff.
        setoid_replace (0 + - (x - inject_Z N))%Q with (inject_Z N + - x)%Q by ring.
        exact H.
      - pose proof (Qfloor_le x) as L. apply Qle_minus_iff in L.
        setoid_replace (x - inject_Z (Qfloor x))%Q with (x + - inject_Z (Qfloor x))%Q by ring.
        exact L. }
    assert (Ec : ((x - inject_Z (Qfloor x) ?= 1 # 2) = Lt)%Q)
      by (apply Qlt_alt; rewrite Ex; reflexivity).
    rewrite Ec. lia.
  - destruct (_ ?= _)%Q; [destruct (Z.even _)| |]; lia.
Qed.

(** Below 10^21, which is a binary64 value, rounding stays at or below
    10^21. *)
Lemma round64_below (q : Q) :
  (0 <= q)%Q -> (q < inject_Z (10 ^ 21))%Q ->
  exists v, round64 q = Fin v /\ (0 <= v)%Q
            /\ ((v < inject_Z (10 ^ 21))%Q \/ v = inject_Z (10 ^ 21)).
Proof.
  intros H0 Hlt. unfold round64.
  destruct (Qsign q) as [|s|s] eqn:Es.
  - exists 0%Q. split; [reflexivity|]. split; [discriminate | left; reflexivity].
  - assert (Hq : (0 < q)%Q).
    { apply Qpos_num. unfold Qsign in Es. destruct (Qnum q); try discriminate. reflexivity. }
    unfold round64_pos.
    destruct (binary_exponent_spec q Hq) as [Blo _].
    set (e := binary_exponent q) in *.
    assert (He : e < 70).
    { apply Qpow2_lt_inv. apply Qle_lt_trans with q; [exact Blo|].
      apply Qlt_trans with (inject_Z (10 ^ 21)); [exact Hlt | reflexivity]. }
    set (p := Z.max (e - 52) (-1074)).
    assert (Hp : p <= 17) by (unfold p; lia).
    assert (Hp' : -1074 <= p) by (unfold p; lia).
    pose proof (Qpow2_pos p) as Hpos.
    assert (Hne : ~ (Qpow2 p == 0)%Q) by (intros E; rewrite E in Hpos; discriminate).
    assert (EN : (inject_Z (10 ^ 21) == inject_Z (5 ^ 21 * 2 ^ (21 - p)) * Qpow2 p)%Q).
    { rewrite inject_Z_mult, <- Qpow2_nonneg, <- Qmult_assoc, <- Qpow2_add by lia.
      replace (21 - p + p) with 21 by lia. reflexivity. }
    set (m := round_half_even (q / Qpow2 p)).
    assert (Hm : m <= 5 ^ 21 * 2 ^ (21 - p)).
    { apply round_half_even_le. apply Qle_shift_div_r; [exact Hpos|].
      rewrite <- EN. now apply Qlt_le_weak. }
    assert (Hm0 : 0 <= m).
    { apply round_half_even_nonneg. apply Qle_shift_div_l; [exact Hpos|].
      now rewrite Qmult_0_l. }
    assert (Hv : (inject_Z m * Qpow2 p <= inject_Z (10 ^ 21))%Q).
    { rewrite EN. apply Qmult_le_compat_r; [|now apply Qlt_le_weak].
      now rewrite <- Zle_Qle. }
    destruct (Qle_bool (Qpow2 1024) (inject_Z m * Qpow2 p)) eqn:Eo.
    { exfalso. apply Qle_bool_iff in Eo.
      assert (L : (Qpow2 1024 <= inject_Z (10 ^ 21))%Q) by (eapply Qle_trans; eassumption).
      revert L. vm_compute. intros L. now apply L. }
    eexists. split; [reflexivity|]. split.
    + rewrite Qred_correct. apply Qmult_le_0_compat; [|now apply Qlt_le_weak].
      change 0%Q with (inject_Z 0). now rewrite <- Zle_Qle.
    + destruct (Qlt_le_dec (inject_Z m * Qpow2 p) (inject_Z (10 ^ 21))) as [L|L].
      * left. now rewrite Qred_correct.
      * right. rewrite (Qred_complete _ (inject_Z (10 ^ 21))); [reflexivity|].
        now apply Qle_antisym.
  - exfalso. unfold Qsign in Es. unfold Qle in H0. cbn in H0.
    destruct (Qnum q); try discriminate. lia.
Qed.

(** The resolved weight of a load is a number that is not negative, or
    +Infinity, and never NaN, whatever the two weight fields hold (for
    pounds below 2 * 10^24); so is the amount of its line. *)
Theorem resolved_weight_is_a_weight (load : Canonical.load) :
  (forall lbs, Canonical.weightLbs load = Fin lbs ->
               (lbs / 2000 < inject_Z (10 ^ 21))%Q) ->
  is_weight (resolveWeightTons load) = true /\ is_weight (line_value load) = true.
Proof.
  intros Hbig.
  assert (H : is_weight (resolveWeightTons load) = true).
  { unfold resolveWeightTons.
    destruct (num_gt (Canonical.weightTons load) (Fin 0)) eqn:Et.
    - destruct (Canonical.weightTons load) as [| | |q]; try discriminate; [reflexivity|].
      apply num_gt_zero in Et. cbn [is_weight]. apply Qle_bool_iff. now apply Qlt_le_weak.
    - destruct (num_gt (Canonical.weightLbs load) (Fin 0)) eqn:El; [|reflexivity].
      destruct (Canonical.weightLbs load) as [| | |q] eqn:Eq; try discriminate;
        [reflexivity|].
      apply num_gt_zero in El.
      assert (H0 : (0 <= q / 2000)%Q).
      { apply Qlt_le_weak, Qlt_shift_div_l; [reflexivity | now rewrite Qmult_0_l]. }
      rewrite num_div_2000.
      destruct (round64_below _ H0 (Hbig q eq_refl)) as (v & -> & Hv0 & [Hv | ->]).
      + rewrite (toFixed_nonneg 4 _ Hv0 Hv).
        rewrite Number_of_fixed by (try lia; now apply nearest_scaled_nonneg).
        destruct (round64_nonneg (scaled 4 (nearest_scaled 4 v))) as [->|(w & -> & Hw)].
        * apply scaled_nonneg. now apply nearest_scaled_nonneg.
        * reflexivity.
        * cbn [is_weight]. now apply Qle_bool_iff.
      + vm_compute. reflexivity. }
  split; [exact H|]. unfold line_value.
  destruct (resolveWeightTons load) as [| | |q]; try discriminate H; [reflexivity|].
  cbn [num_mul CONFIG.RATE_PER_TON is_weight] in *.
  apply Qle_bool_iff in H.
  destruct (round64_nonneg (q * 125)) as [->|(w & -> & Hw)].
  - apply Qmult_le_0_compat; [assumption | discriminate].
  - reflexivity.
  - cbn [is_weight]. now apply Qle_bool_iff.
Qed.

Lemma resolved_weight_is_a_weight_witness :
  is_weight (resolveWeightTons (Sample.weighing NaN (Fin (-5)))) = true
  /\ is_weight (line_value (Sample.weighing NaN (Fin (-5)))) = true.
Proof.
  apply (resolved_weight_is_a_weight (Sample.weighing NaN (Fin (-5)))).
  intros lbs E. injection E as <-. reflexivity.
Defined.

(** ** The characters of a printed number *)

Lemma digit_number_char (c : ascii) : is_digit c = true -> number_char c = true.
Proof. unfold number_char. now intros ->. Qed.

Lemma N_digits_number_chars (n : N) : all_chars number_char (N_digits n) = true.
Proof.
  destruct (N_digits_spec n) as (H & _). revert H.
  apply all_chars_weaken, digit_number_char.
Qed.

Ltac number_chars :=
  repeat (rewrite all_chars_append || rewrite all_chars_substring
          || rewrite all_chars_repeat || rewrite N_digits_number_chars
          || cbn [all_chars]);
  repeat match goal with
    | H : all_chars number_char ?s = true |- context [all_chars number_char ?s] =>
        rewrite H
    end;
  try reflexivity.

Lemma positive_to_string_number_chars (q : Q) :
  all_chars number_char (positive_to_string q) = true.
Proof.
  unfold positive_to_string, exponent_suffix. destruct (scientific q) as [[s k] n].
  pose proof (N_digits_number_chars s) as H.
  repeat match goal with |- context [if ?b then _ else _] => destruct b end;
    number_chars.
Qed.

Lemma Number_toString_number_chars (x : number) :
  all_chars number_char (Number_toString x) = true.
Proof.
  destruct x as [| | |q]; cbn [Number_toString]; try reflexivity.
  pose proof (positive_to_string_number_chars q) as H1.
  pose proof (positive_to_string_number_chars (- q)) as H2.
  destruct (Qsign q); number_chars.
Qed.

Lemma fixed_digits_number_chars (f : nat) (n : Z) :
  all_chars number_char (fixed_digits f n) = true.
Proof.
  unfold fixed_digits. destruct f as [|f]; [apply N_digits_number_chars|].
  set (m' := repeat_string _ _ ++ _).
  assert (Hm : all_chars number_char m' = true) by (unfold m'; number_chars).
  number_chars.
Qed.

(** What [toFixed] prints holds digits, a point, a sign and the letters of
    an exponent, of Infinity and of NaN only. *)
Lemma toFixed_number_chars (f : nat) (x : number) :
  all_chars number_char (toFixed f x) = true.
Proof.
  destruct x as [| | |q]; try exact (Number_toString_number_chars _).
  unfold toFixed.
  destruct (Qle_bool _ _); [exact (Number_toString_number_chars _)|].
  pose proof (fixed_digits_number_chars f (nearest_scaled f (- q))) as H.
  destruct (Qsign q <? 0); [number_chars | apply fixed_digits_number_chars].
Qed.

(** ** Reading a CSV row back *)

Lemma number_char_plain (c : ascii) :
  number_char c = true -> is_comma c = false /\ is_dquote c = false.
Proof. each_ascii c; intros H; try discriminate H; split; reflexivity. Qed.

Lemma is_dquote_eq (c : ascii) : is_dquote c = true -> String c EmptyString = DQUOTE.
Proof. each_ascii c; intros H; try discriminate H; reflexivity. Qed.

Lemma unquote_body_escaped (text rest : string) :
  no_quote_ahead rest = true ->
  unquote_body (replace_class (fun c => (nat_of_ascii c =? 34)%nat) (DQUOTE ++ DQUOTE) text
                ++ DQUOTE ++ rest)
  = Some (text, rest).
Proof.
  intros Hrest. induction text as [|c text IH]; cbn [replace_class].
  - cbn [append]. change (DQUOTE ++ rest) with (String (ascii_of_nat 34) rest).
    cbn [unquote_body]. change (is_dquote (ascii_of_nat 34)) with true. cbn iota.
    destruct rest as [|d rest]; [reflexivity|].
    cbn [no_quote_ahead] in Hrest. apply negb_true_iff in Hrest. now rewrite Hrest.
  - fold (is_dquote c). destruct (is_dquote c) eqn:Ec.
    + rewrite append_assoc.
      change (DQUOTE ++ DQUOTE) with (String (ascii_of_nat 34) (String (ascii_of_nat 34) EmptyString)).
      cbn [append unquote_body].
      change (is_dquote (ascii_of_nat 34)) with true. cbn iota.
      change (String (ascii_of_nat 34) (String (ascii_of_nat 34) EmptyString))
        with (DQUOTE ++ DQUOTE).
      rewrite IH. apply is_dquote_eq in Ec. unfold DQUOTE, chr in Ec.
      injection Ec as <-. reflexivity.
    + cbn [append unquote_body]. now rewrite Ec, IH.
Qed.

(** A text written by [safe] reads back as it was, whatever it holds, and
    the reader stops right after the closing quote. *)
Lemma read_field_safe (v : value) (rest : string) :
  no_quote_ahead rest = true ->
  read_field (safe v ++ rest)
  = Some (ToString (nullish_else v (VString EmptyString)), rest).
Proof.
  intros Hrest. unfold safe. rewrite !append_assoc.
  change (DQUOTE ++ ?x) with (String (ascii_of_nat 34) x) at 1.
  cbn [read_field append]. change (is_dquote (ascii_of_nat 34)) with true. cbn iota.
  now apply unquote_body_escaped.
Qed.

Lemma read_plain_number (s rest : string) :
  all_chars number_char s = true ->
  match rest with String c _ => is_comma c | EmptyString => true end = true ->
  read_plain (s ++ rest) = (s, rest).
Proof.
  intros Hs Hrest. induction s as [|c s IH]; cbn [append].
  - destruct rest as [|c rest]; [reflexivity|]. cbn [read_plain]. now rewrite Hrest.
  - cbn [all_chars] in Hs. apply andb_true_iff in Hs as [Hc Hs].
    destruct (number_char_plain c Hc) as [Hcomma _].
    cbn [read_plain]. now rewrite Hcomma, (IH Hs).
Qed.

Lemma read_field_cell (c : cell) (rest : string) :
  cell_ok c = true ->
  match rest with String c _ => is_comma c | EmptyString => true end = true ->
  read_field (write_cell c ++ rest) = Some (cell_text c, rest).
Proof.
  intros Hok Hrest. destruct c as [v|s]; cbn [write_cell cell_text cell_ok] in *.
  - apply read_field_safe. destruct rest as [|d rest]; [reflexivity|].
    cbn [no_quote_ahead]. revert Hrest. each_ascii d; intros H; try discriminate H;
      reflexivity.
  - destruct s as [|d s]; cbn [append].
    + destruct rest as [|d rest]; [reflexivity|]. cbn [read_field].
      replace (is_dquote d) with false
        by (revert Hrest; each_ascii d; intros H; try discriminate H; reflexivity).
      change (String d rest) with (EmptyString ++ String d rest).
      now rewrite read_plain_number.
    + cbn [read_field]. cbn [all_chars] in Hok. apply andb_true_iff in Hok as [Hd Hs].
      destruct (number_char_plain d Hd) as [_ Hq]. rewrite Hq.
      change (String d (s ++ rest)) with (String d s ++ rest).
      rewrite read_plain_number; [reflexivity | cbn [all_chars]; now rewrite Hd, Hs
                                 | assumption].
Qed.

Lemma read_row_cells (cells : list cell) :
  cells <> [] ->
  forallb cell_ok cells = true ->
  read_row (List.length cells) (join "," (map write_cell cells))
  = Some (map cell_text cells).
Proof.
  induction cells as [|c cells IH]; [congruence|]. intros _ Hok.
  cbn [forallb] in Hok. apply andb_true_iff in Hok as [Hc Hcs].
  destruct cells as [|c' cells].
  - cbn [map join String.concat List.length read_row].
    rewrite <- (append_nil_r (write_cell c)).
    rewrite (read_field_cell c EmptyString Hc eq_refl). reflexivity.
  - change (join "," (map write_cell (c :: c' :: cells)))
      with (write_cell c ++ String "," (join "," (map write_cell (c' :: cells)))).
    change (List.length (c :: c' :: cells)) with (S (List.length (c' :: cells))).
    cbn [read_row].
    rewrite (read_field_cell c (String "," (join "," (map write_cell (c' :: cells)))) Hc eq_refl).
    change (is_comma ",") with true. cbn iota.
    rewrite IH by (discriminate || assumption). reflexivity.
Qed.

(** A row of the CSV document always splits into the eighteen columns of
    the header, and every text reads back as it was, whatever commas, quotes
    or line breaks the names, tickets, haulers and hashes hold. *)
Theorem csv_row_reads_back (h : Host)
  (projectName qbClass invoiceDate dueDate docNum : string) (load : Canonical.load) :
  read_row 18 (csv_row h projectName qbClass invoiceDate dueDate docNum load)
  = Some (map cell_text
            (csv_cells h projectName qbClass invoiceDate dueDate docNum load)).
Proof.
  change (csv_row h projectName qbClass invoiceDate dueDate docNum load)
    with (join "," (map write_cell
                      (csv_cells h projectName qbClass invoiceDate dueDate docNum load))).
  apply (read_row_cells
           (csv_cells h projectName qbClass invoiceDate dueDate docNum load)).
  - discriminate.
  - unfold csv_cells. cbn [forallb cell_ok]. now rewrite !toFixed_number_chars.
Qed.

(** ** File names *)

Lemma get_replace_class_one (cls : ascii -> bool) (by_ : ascii) (s : string) (i : nat) :
  String.get i (replace_class cls (String by_ EmptyString) s)
  = option_map (fun c => if cls c then by_ else c) (String.get i s).
Proof.
  revert i. induction s as [|c s IH]; intros i; cbn [replace_class String.get option_map].
  - reflexivity.
  - destruct (cls c) eqn:Ec; cbn [append String.get]; destruct i as [|i];
      cbn [option_map]; rewrite ?Ec; try reflexivity; apply IH.
Qed.

Lemma replace_class_one (cls : ascii -> bool) (by_ : ascii) (s : string) :
  String.length (replace_class cls (String by_ EmptyString) s) = String.length s
  /\ (forall p : ascii -> bool,
        p by_ = true -> (forall c, cls c = false -> p c = true) ->
        all_chars p (replace_class cls (String by_ EmptyString) s) = true)
  /\ (all_chars (fun c => negb (cls c)) s = true ->
      replace_class cls (String by_ EmptyString) s = s).
Proof.
  induction s as [|c s (IHl & IHp & IHe)]; cbn [replace_class].
  - repeat split.
  - destruct (cls c) eqn:Ec; cbn [append String.length all_chars negb andb].
    + split; [now rewrite IHl|]. split; [|rewrite Ec; discriminate].
      intros p Hby Hp. now rewrite Hby, IHp.
    + rewrite Ec. cbn [negb andb]. split; [now rewrite IHl|]. split.
      * intros p Hby Hp. now rewrite (Hp c Ec), IHp.
      * intros H. now rewrite IHe.
Qed.

(** The file name of an export.  Without a project name it is that of all
    projects; with a text as name, each character that is not a letter, a
    digit or a hyphen becomes an underscore and every other character stays
    in its place, so the name part holds letters, digits, hyphens and
    underscores only; any other truthy name (a number, an object) makes the
    builder throw. *)
Theorem buildFilename_cases (h : Host) (projectName : value) (ext : string) :
  let date := before_T (toISOString (Date_now h)) in
  (ToBoolean projectName = false ->
   buildFilename h projectName ext
   = Ok ("DivertScan_QB_AllProjects_" ++ date ++ "." ++ ext))
  /\ (forall s, projectName = VString s -> s <> EmptyString ->
        exists cleaned,
          buildFilename h projectName ext
          = Ok ("DivertScan_QB_" ++ cleaned ++ "_" ++ date ++ "." ++ ext)
          /\ (forall i,
                String.get i cleaned
                = option_map
                    (fun c => if is_alpha c || is_digit c || Ascii.eqb c "-"
                              then c else "_"%char)
                    (String.get i s))
          /\ all_chars filename_char cleaned = true
          /\ String.length cleaned = String.length s
          /\ (all_chars (fun c => negb (filename_replaced c)) s = true -> cleaned = s))
  /\ (ToBoolean projectName = true -> is_text projectName = false ->
      exists e, buildFilename h projectName ext = Throw e).
Proof.
  cbn zeta. unfold buildFilename. repeat split.
  - intros H. now rewrite (or_else_false _ _ H).
  - intros s -> Hs.
    assert (Ht : ToBoolean (VString s) = true) by (destruct s; [congruence | reflexivity]).
    rewrite (or_else_true _ _ Ht). cbn [as_string bind].
    destruct (replace_class_one filename_replaced "_" s) as (Hl & Hp & He).
    eexists. split; [reflexivity|]. split.
    { intros i. rewrite get_replace_class_one. unfold filename_replaced.
      destruct (String.get i s) as [c|]; cbn [option_map]; [|reflexivity].
      now destruct (is_alpha c || is_digit c || Ascii.eqb c "-"). }
    split; [|split; assumption].
    apply Hp; [reflexivity|].
    intros c Hc. unfold filename_replaced in Hc. apply negb_false_iff in Hc.
    unfold filename_char. now rewrite Hc.
  - intros Ht Hn. rewrite (or_else_true _ _ Ht).
    destruct projectName; try discriminate Hn; cbn [as_string bind]; eauto.
Qed.

Lemma buildFilename_cases_witness :
  buildFilename Sample.host VNull "iif" = Ok "DivertScan_QB_AllProjects_2026-11-01.iif"
  /\ (exists cleaned,
        buildFilename Sample.host (VString "Alpha Tower #2") "csv"
        = Ok ("DivertScan_QB_" ++ cleaned ++ "_"
                ++ before_T (toISOString (Date_now Sample.host)) ++ "." ++ "csv")
        /\ (forall i,
              String.get i cleaned
              = option_map
                  (fun c => if is_alpha c || is_digit c || Ascii.eqb c "-"
                            then c else "_"%char)
                  (String.get i "Alpha Tower #2"))
        /\ all_chars filename_char cleaned = true
        /\ String.length cleaned = 14%nat
        /\ (all_chars (fun c => negb (filename_replaced c)) "Alpha Tower #2" = true ->
            cleaned = "Alpha Tower #2"))
  /\ exists e, buildFilename Sample.host (VNumber (Fin 7)) "csv" = Throw e.
Proof.
  split; [|split].
  - apply (proj1 (buildFilename_cases Sample.host VNull "iif")). reflexivity.
  - apply (proj1 (proj2 (buildFilename_cases Sample.host (VString "Alpha Tower #2") "csv"))
             "Alpha Tower #2" eq_refl).
    discriminate.
  - apply (proj2 (proj2 (buildFilename_cases Sample.host (VNumber (Fin 7)) "csv")));
      reflexivity.
Defined.

(** ** Summaries *)

Lemma group_sizes_define (o : object Group.t) (k : string) (g : Group.t) :
  Group.loads g = [] -> group_sizes (define o k g) = group_sizes o.
Proof.
  intros Hg. unfold define, group_sizes.
  induction o as [|e o IH]; cbn [app fold_right snd]; [now rewrite Hg | now rewrite IH].
Qed.

Lemma group_sizes_push (o : object Group.t) (k : string) (l : record) (g : Group.t) :
  own o k = Some g ->
  group_sizes (update o k (Group.push l)) = S (group_sizes o).
Proof.
  unfold group_sizes. induction o as [|[j x] o IH]; cbn [own update]; [discriminate|].
  destruct (String.eqb j k); cbn [fold_right snd Group.push Group.loads].
  - intros _. rewrite length_app. cbn. lia.
  - intros H. rewrite (IH H). lia.
Qed.

Lemma groupByProject_step_size (acc acc' : object Group.t) (load : record) :
  groupByProject_step acc load = Ok acc' -> group_sizes acc' = S (group_sizes acc).
Proof.
  unfold groupByProject_step.
  set (key := project_key load). set (name := ToString key).
  destruct (lookup_cases acc name) as [(g & Eo & El)|[(Eo & Hi & El)|(Eo & Hi & El)]].
  - rewrite El, El. intros E. injection E as <-. now apply group_sizes_push with g.
  - rewrite El, El. discriminate.
  - rewrite El. set (fresh := {| Group.projectId := key |}).
    assert (Eo' : own (define acc name fresh) name = Some fresh)
      by now rewrite own_define, Eo, String.eqb_refl.
    assert (El' : lookup (define acc name fresh) name = Own fresh)
      by (unfold lookup; now rewrite Eo').
    rewrite El'. intros E. injection E as <-.
    rewrite (group_sizes_push _ _ _ _ Eo'). now rewrite group_sizes_define.
Qed.

(** What holds of the groups whenever the grouping completes. *)
Lemma groupByProject_completed (loads : list record) (groups : object Group.t) :
  groupByProject loads = Ok groups ->
  NoDup (map fst groups)
  /\ no_inherited_key groups
  /\ group_sizes groups = List.length loads.
Proof.
  unfold groupByProject.
  assert (H : forall loads acc groups,
             NoDup (map fst acc) -> no_inherited_key acc ->
             foldM groupByProject_step loads acc = Ok groups ->
             NoDup (map fst groups) /\ no_inherited_key groups
             /\ group_sizes groups = (group_sizes acc + List.length loads)%nat).
  { clear. induction loads as [|l loads IH]; intros acc groups Hnd Hni E; cbn [foldM] in E.
    - injection E as <-. cbn. repeat split; auto.
    - apply bind_Ok in E as (acc' & E1 & E).
      destruct (inherited (ToString (project_key l))) eqn:Hi.
      + rewrite (groupByProject_step_inherited acc l Hni Hi) in E1. discriminate.
      + pose proof (groupByProject_step_size _ _ _ E1) as Hs.
        destruct (groupByProject_step_ok acc l Hi) as (acc2 & E2 & Hown & Hkeys).
        rewrite E1 in E2. injection E2 as <-.
        destruct (IH acc' groups) as (H1 & H2 & H3); [| |exact E|].
        * destruct Hkeys as [->|[Enone ->]]; [assumption|].
          apply NoDup_app; [assumption | repeat constructor; intros [] | ].
          intros x Hx [<-|[]]. exact (own_None_not_key _ _ Enone Hx).
        * intros name Hn. rewrite Hown.
          destruct (String.eqb_spec (ToString (project_key l)) name) as [<-|];
            [congruence | now apply Hni].
        * repeat split; auto. rewrite H3, Hs. cbn [List.length]. lia. }
  intros E. destruct (H loads [] groups) as (H1 & H2 & H3); auto.
  - constructor.
  - intros name _. reflexivity.
Qed.

Lemma own_In_key {A} (o : object A) (k : string) :
  In k (map fst o) -> exists a, own o k = Some a.
Proof.
  induction o as [|[j x] o IH]; cbn [map fst In own]; [tauto|].
  destruct (String.eqb_spec j k) as [->|Hjk]; [eauto|].
  intros [E|Hin]; [congruence | now apply IH].
Qed.

Lemma buildSummary_from (h : Host) (entries : list (string * Group.t)) :
  forall summary,
    NoDup (map fst summary ++ map fst entries) ->
    ~ In "__proto__" (map fst entries) ->
    fold_left (fun summary entry => assign summary (fst entry) (summarize h (snd entry)))
      entries summary
    = (summary ++ map (fun e => (fst e, summarize h (snd e))) entries)%list.
Proof.
  induction entries as [|[k g] entries IH]; intros summary Hnd Hp; cbn [fold_left map].
  - now rewrite app_nil_r.
  - cbn [fst snd map In] in *.
    assert (Hk : String.eqb k "__proto__" = false).
    { apply String.eqb_neq. intros ->. apply Hp. now left. }
    assert (Ho : own summary k = None).
    { destruct (own summary k) as [a|] eqn:Eo; [|reflexivity].
      exfalso. apply NoDup_remove_2 in Hnd. apply Hnd. apply in_or_app. left.
      clear - Eo. induction summary as [|[j x] s IH]; [discriminate|].
      cbn [own map fst In] in *. destruct (String.eqb_spec j k); [now left|].
      right. now apply IH. }
    unfold assign at 2. rewrite Hk, Ho. unfold define.
    rewrite IH.
    + now rewrite <- app_assoc.
    + rewrite map_app, <- app_assoc. exact Hnd.
    + intros H. apply Hp. now right.
Qed.

(** The summary of groups that a grouping produced has one entry for each
    group, under the same key and in the order of Object.entries, and its
    load counts add up to the count of the records that were grouped: the
    totals of a preview count every resolved load once. *)
Theorem summary_counts_every_load (h : Host) (loads : list record)
  (groups : object Group.t) :
  groupByProject loads = Ok groups ->
  buildSummary h groups
  = map (fun e => (fst e, summarize h (snd e))) (Object_entries groups)
  /\ counted (buildSummary h groups) = List.length loads.
Proof.
  intros E. destruct (groupByProject_completed loads groups E) as (Hnd & Hni & Hs).
  assert (Eq : buildSummary h groups
               = map (fun e => (fst e, summarize h (snd e))) (Object_entries groups)).
  { unfold buildSummary. rewrite buildSummary_from; [reflexivity| |].
    - cbn [map app]. now apply Object_entries_NoDup.
    - intros Hin.
      assert (Hin' : In "__proto__" (map fst groups)).
      { revert Hin. apply Permutation_in, Permutation_map, Object_entries_perm. }
      apply own_In_key in Hin' as (a & Ea).
      rewrite (Hni "__proto__" eq_refl) in Ea. discriminate. }
  split; [exact Eq|]. rewrite Eq, <- Hs.
  rewrite <- (group_sizes_perm _ _ (Object_entries_perm groups)).
  unfold counted, group_sizes. clear.
  induction (Object_entries groups) as [|e es IH]; cbn [map fold_right snd]; [reflexivity|].
  rewrite IH. unfold summarize. cbn [Summary.loadCount]. now rewrite length_map.
Qed.

Lemma summary_counts_every_load_witness :
  counted (buildSummary Sample.host site_groups) = 5%nat
  /\ map fst (buildSummary Sample.host site_groups) = ["7"; "Beta"; "Alpha"].
Proof.
  destruct (summary_counts_every_load Sample.host site_loads site_groups eq_refl)
    as [Eq Hc].
  split; [exact Hc|]. rewrite Eq. reflexivity.
Defined.

(** ** The public operations *)

Lemma export_body_returns h build format ext mime projectId outcome :
  let run := export_body h build format ext mime projectId outcome in
  match snd run with
  | Failure message =>
      fst run = [] /\ forall e, outcome = Throw e -> message = error_message e
  | Success summary format' name =>
      exists loads groups document,
        outcome = Ok loads
        /\ groupByProject loads = Ok groups
        /\ build h groups = Ok document
        /\ summary = buildSummary h groups
        /\ format' = format
        /\ buildFilename h (export_name projectId groups) ext = Ok name
        /\ fst run = [{| content := document; filename := name; mimeType := mime |}]
  end.
Proof.
  cbn zeta. unfold export_body.
  destruct outcome as [loads|e]; cbn [bind fst snd];
    [|split; [reflexivity | now intros e' [= <-]]].
  destruct (groupByProject loads) as [groups|e] eqn:Eg; cbn [bind fst snd];
    [|split; [reflexivity | discriminate]].
  destruct (build h groups) as [document|e] eqn:Ed; cbn [bind fst snd];
    [|split; [reflexivity | discriminate]].
  destruct (buildFilename h (export_name projectId groups) ext) as [name|e] eqn:Ef;
    cbn [bind fst snd]; [|split; [reflexivity | discriminate]].
  rewrite Ef. cbn [fst snd]. exists loads, groups, document. auto 10.
Qed.

(** An export downloads at most once.  When it reports a failure nothing was
    downloaded, and the failure of the resolver is reported with its own
    message.  When it reports a success exactly one file was downloaded: its
    content is the document of the resolved loads, grouped, its name is the
    name returned, and the summary returned is the summary of those groups.
    The queries are those of the resolver. *)
Theorem export_downloads_once (h : Host) (src : Sources) (projectId : value)
  (log : list event) :
  let resolved := resolveLoads src projectId log in
  forall run build format ext mime,
    (run = generateIIF h src projectId log /\ build = buildIIF /\ format = "IIF"
     /\ ext = "iif" /\ mime = "text/plain;charset=utf-8")
    \/ (run = generateCSV h src projectId log /\ build = buildCSV /\ format = "CSV"
        /\ ext = "csv" /\ mime = "text/csv;charset=utf-8") ->
    fst (fst run) = fst resolved
    /\ match snd run with
       | Failure message =>
           snd (fst run) = []
           /\ forall e, snd resolved = Throw e -> message = error_message e
       | Success summary format' name =>
           exists loads groups document,
             snd resolved = Ok loads
             /\ groupByProject loads = Ok groups
             /\ build h groups = Ok document
             /\ summary = buildSummary h groups
             /\ format' = format
             /\ snd (fst run)
                = [{| content := document; filename := name; mimeType := mime |}]
       end.
Proof.
  cbn zeta. intros run build format ext mime H.
  assert (E : run = (fst (resolveLoads src projectId log),
                     fst (export_body h build format ext mime projectId
                            (snd (resolveLoads src projectId log))),
                     snd (export_body h build format ext mime projectId
                            (snd (resolveLoads src projectId log))))).
  { destruct H as [(-> & -> & -> & -> & ->)|(-> & -> & -> & -> & ->)];
      unfold generateIIF, generateCSV;
      destruct (resolveLoads src projectId log) as [log' outcome]; cbn [fst snd];
      now destruct (export_body _ _ _ _ _ _ _). }
  rewrite E. cbn [fst snd]. split; [reflexivity|].
  pose proof (export_body_returns h build format ext mime projectId
                (snd (resolveLoads src projectId log))) as Hb.
  cbn zeta in Hb.
  destruct (snd (export_body h build format ext mime projectId
                   (snd (resolveLoads src projectId log)))) as [summary format' name|message].
  - destruct Hb as (loads & groups & document & H1 & H2 & H3 & H4 & H5 & _ & H7).
    exists loads, groups, document. auto 10.
  - exact Hb.
Qed.

Lemma export_downloads_once_witness :
  generateIIF Sample.host only_a_draft_offline VNull []
  = ([LocalQuery], [], Failure NO_DATA)
  /\ exists document name summary,
       generateCSV Sample.host three_and_two (VString "B") []
       = ([LocalQuery],
          [{| content := document; filename := name;
              mimeType := "text/csv;charset=utf-8" |}],
          Success summary "CSV" name)
       /\ name = "DivertScan_QB_B_2026-11-01.csv".
Proof.
  split.
  - pose proof (export_downloads_once Sample.host only_a_draft_offline VNull []) as H.
    cbn zeta in H.
    specialize (H _ buildIIF "IIF" "iif" "text/plain;charset=utf-8"
                  (or_introl (conj eq_refl (conj eq_refl (conj eq_refl
                                (conj eq_refl eq_refl)))))).
    destruct H as [Hq Hr].
    destruct (generateIIF Sample.host only_a_draft_offline VNull [])
      as [[queries downloads] returned] eqn:E.
    cbn [fst snd] in *. destruct returned as [s f n|message].
    + vm_compute in E. discriminate E.
    + destruct Hr as [-> Hm]. rewrite Hq, (Hm (Error NO_DATA) eq_refl). reflexivity.
  - pose proof (export_downloads_once Sample.host three_and_two (VString "B") []) as H.
    cbn zeta in H.
    specialize (H _ buildCSV "CSV" "csv" "text/csv;charset=utf-8"
                  (or_intror (conj eq_refl (conj eq_refl (conj eq_refl
                                (conj eq_refl eq_refl)))))).
    destruct H as [Hq Hr].
    destruct (generateCSV Sample.host three_and_two (VString "B") [])
      as [[queries downloads] returned] eqn:E.
    cbn [fst snd] in *. destruct returned as [s f n|message].
    + destruct Hr as (loads & groups & document & _ & _ & _ & _ & -> & ->).
      exists document, n, s. rewrite Hq. split; [reflexivity|].
      vm_compute in E. now injection E as _ _ _ <-.
    + vm_compute in E. discriminate E.
Defined.





(** ** The batches of a day *)

(** The grouping by invoice date never throws.  Every load is in the batch
    of its formatted date; a batch holds exactly the loads of its date, in
    their order, and is never empty; the loop over the batches meets each
    date once and meets as many loads as there are. *)
Theorem byDate_batches_by_day (h : Host) (loads : list Canonical.load) :
  exists dates,
    byDate h loads = Ok dates
    /\ (forall l, In l loads ->
          exists batch, own dates (toQBDate h (Canonical.date l)) = Some batch
                        /\ In l batch)
    /\ (forall key batch, own dates key = Some batch ->
          batch <> [] /\ batch = filter (on_date h key) loads)
    /\ NoDup (map fst (Object_entries dates))
    /\ batch_sizes (Object_entries dates) = List.length loads.
Proof.
  destruct (byDate_ok h loads) as (dates & E & [Hnd Hcls] & Hs).
  exists dates. split; [exact E|]. split; [|split; [|split]].
  - intros l Hin. specialize (Hcls (toQBDate h (Canonical.date l))).
    assert (Hf : In l (filter (on_date h (toQBDate h (Canonical.date l))) loads)).
    { apply filter_In. split; [exact Hin|]. unfold on_date. apply String.eqb_refl. }
    destruct (own dates (toQBDate h (Canonical.date l))) as [batch|].
    + exists batch. destruct Hcls as [-> _]. split; [reflexivity | exact Hf].
    + rewrite Hcls in Hf. destruct Hf.
  - intros key batch Eo. specialize (Hcls key). rewrite Eo in Hcls.
    destruct Hcls as [-> Hne]. split; [exact Hne | reflexivity].
  - now apply Object_entries_NoDup.
  - rewrite (batch_sizes_perm _ _ (Object_entries_perm dates)). exact Hs.
Qed.

(** ** The head of a group *)

Lemma groupByProject_heads_from (loads seen : list record) (acc groups : object Group.t) :
  no_inherited_key acc ->
  (forall name,
     match own acc name with
     | Some g => headed_by g (filter (has_key name) seen)
     | None => filter (has_key name) seen = []
     end) ->
  foldM groupByProject_step loads acc = Ok groups ->
  forall name,
    match own groups name with
    | Some g => headed_by g (filter (has_key name) (seen ++ loads))
    | None => filter (has_key name) (seen ++ loads) = []
    end.
Proof.
  revert seen acc. induction loads as [|l loads IH]; intros seen acc Hni Hacc E;
    cbn [foldM] in E.
  - injection E as <-. rewrite app_nil_r. exact Hacc.
  - apply bind_Ok in E as (acc' & E1 & E).
    destruct (inherited (ToString (project_key l))) eqn:Hi.
    { rewrite (groupByProject_step_inherited acc l Hni Hi) in E1. discriminate. }
    destruct (groupByProject_step_ok acc l Hi) as (acc2 & E2 & Hown & _).
    rewrite E1 in E2. injection E2 as <-.
    replace (seen ++ l :: loads)%list with ((seen ++ [l]) ++ loads)%list
      by (rewrite <- app_assoc; reflexivity).
    apply (IH (seen ++ [l])%list acc'); [| |exact E].
    + intros name Hn. rewrite Hown.
      destruct (String.eqb_spec (ToString (project_key l)) name) as [<-|];
        [congruence | now apply Hni].
    + intros name. rewrite Hown, filter_snoc.
      change (has_key name l) with (String.eqb (ToString (project_key l)) name).
      specialize (Hacc name).
      destruct (String.eqb_spec (ToString (project_key l)) name) as [Ek|Ek].
      * revert Hacc. destruct (own acc name) as [g|]; intros Hacc.
        -- unfold headed_by in *.
           destruct (filter (has_key name) seen) as [|first rest]; [destruct Hacc|].
           destruct Hacc as (H1 & H2 & H3). cbn [app Group.push Group.projectId
             Group.projectName Group.loads]. rewrite H3. auto.
        -- rewrite Hacc. cbn [app]. unfold headed_by, display_name.
           cbn [Group.push Group.projectId Group.projectName Group.loads app]. auto.
      * rewrite app_nil_r. exact Hacc.
Qed.

(** Whenever the grouping completes, a group has the identifier and the
    display name of the first record of its key, whatever the later records
    of that key say, and holds the records of its key in their order; a key
    without a group has no record. *)
Theorem group_named_by_first_record (loads : list record) (groups : object Group.t) :
  groupByProject loads = Ok groups ->
  forall name,
    match own groups name with
    | Some g => headed_by g (filter (has_key name) loads)
    | None => filter (has_key name) loads = []
    end.
Proof.
  intros E. apply (groupByProject_heads_from loads [] [] groups); [| |exact E].
  - intros name _. reflexivity.
  - intros name. reflexivity.
Qed.

Lemma group_named_by_first_record_witness :
  match own site_groups "7" with
  | Some g => headed_by g (filter (has_key "7") site_loads)
  | None => filter (has_key "7") site_loads = []
  end.
Proof. exact (group_named_by_first_record site_loads site_groups eq_refl "7"). Defined.

(** ** Records that name their project under an alias *)

(** The query of the store for one project compares [projectId] alone.  A
    record that names its project under [project_id] only is a record of
    that project for the normalizer and for the grouping, and it is never
    part of what the store contributes to a call for that project, nor of
    what the resolver returns when the store contributes anything. *)
Theorem scoped_query_reads_projectId_only (h : Host) (src : Sources) (p : string)
  (l : record) :
  p <> EmptyString -> p <> "undefined" ->
  get l "projectId" = VUndefined ->
  get l "project_id" = VString p ->
  Canonical.projectId (normalizeLoad h l) = VString p
  /\ project_key l = VString p
  /\ ~ In l (local_confirmed src (VString p))
  /\ forall log loads,
       local_confirmed src (VString p) <> [] ->
       snd (resolveLoads src (VString p) log) = Ok loads -> ~ In l loads.
Proof.
  intros Hp Hu E1 E2.
  assert (Ht : ToBoolean (VString p) = true) by (destruct p; [congruence | reflexivity]).
  assert (Hk : project_key l = VString p).
  { unfold project_key. rewrite E1, E2.
    rewrite (or_else_false VUndefined) by reflexivity.
    now rewrite or_else_true by exact Ht. }
  assert (Hout : ~ In l (local_confirmed src (VString p))).
  { unfold local_confirmed, scoped. rewrite Ht.
    destruct (local src) as [| | |all]; try (intros []).
    intros Hin. apply filter_In in Hin as [Hin _]. apply filter_In in Hin as [_ Hs].
    unfold in_scope in Hs. rewrite E1 in Hs. cbn [ToString] in Hs.
    apply String.eqb_eq in Hs. congruence. }
  split; [exact Hk|]. split; [exact Hk|]. split; [exact Hout|].
  intros log loads Hne. rewrite resolveLoads_run. cbn zeta. cbn [snd].
  destruct (local_confirmed src (VString p)) as [|x found]; [congruence|].
  cbn [is_empty andb]. intros [= <-]. exact Hout.
Qed.

Lemma scoped_query_reads_projectId_only_witness :
  project_key legacy_record = VString "A"
  /\ resolveLoads legacy_store (VString "A") []
     = ([LocalQuery], Ok [load_with "A" "confirmed"])
  /\ ~ In legacy_record [load_with "A" "confirmed"].
Proof.
  destruct (scoped_query_reads_projectId_only Sample.host legacy_store "A" legacy_record)
    as (_ & Hk & _ & Hr); try reflexivity; try discriminate.
  split; [exact Hk|]. split; [reflexivity|].
  apply (Hr [] _); [discriminate | reflexivity].
Defined.

(** ** The batches of an export *)

Lemma own_omap {A B} (f : A -> B) (o : object A) (k : string) :
  own (omap f o) k = option_map f (own o k).
Proof.
  induction o as [|[j a] o IH]; cbn [omap map own fst snd option_map]; [reflexivity|].
  destruct (String.eqb j k); [reflexivity | exact IH].
Qed.

Lemma update_omap {A B} (f : A -> B) (g : A -> A) (g' : B -> B) (o : object A) (k : string) :
  (forall a, g' (f a) = f (g a)) ->
  update (omap f o) k g' = omap f (update o k g).
Proof.
  intros H. induction o as [|[j a] o IH]; cbn [omap map update fst snd]; [reflexivity|].
  destruct (String.eqb j k); cbn [map fst snd].
  - now rewrite H.
  - f_equal. exact IH.
Qed.

Lemma update_define_fresh {A} (o : object A) (k : string) (a : A) (g : A -> A) :
  own o k = None -> update (define o k a) k g = define o k (g a).
Proof.
  unfold define. induction o as [|[j x] o IH]; cbn [app update own].
  - intros _. now rewrite String.eqb_refl.
  - destruct (String.eqb j k); [discriminate|]. intros H. now rewrite IH.
Qed.

Lemma insert_index_omap {A B} (f : A -> B) (i : N) (e : string * A) l :
  insert_index i (fst e, f (snd e)) (map (fun x => (fst x, (fst (snd x), f (snd (snd x))))) l)
  = map (fun x => (fst x, (fst (snd x), f (snd (snd x))))) (insert_index i e l).
Proof.
  induction l as [|[j e'] l IH]; cbn [map insert_index fst snd]; [reflexivity|].
  destruct (i <? j)%N; cbn [map fst snd]; [reflexivity|]. f_equal. exact IH.
Qed.

Lemma index_entries_omap {A B} (f : A -> B) (o : object A) :
  index_entries (omap f o)
  = map (fun x => (fst x, (fst (snd x), f (snd (snd x))))) (index_entries o).
Proof.
  induction o as [|e o IH]; cbn [omap map index_entries fst snd]; [reflexivity|].
  fold (omap f o). rewrite IH.
  destruct (array_index (fst e)); [|reflexivity].
  apply (insert_index_omap f n e).
Qed.

Lemma Object_entries_omap {A B} (f : A -> B) (o : object A) :
  Object_entries (omap f o) = omap f (Object_entries o).
Proof.
  unfold Object_entries, omap at 3. rewrite map_app, index_entries_omap, !map_map.
  f_equal. unfold omap. induction o as [|e o IH]; cbn [map filter fst snd]; [reflexivity|].
  destruct (negb (is_index (fst e))); cbn [map]; now rewrite IH.
Qed.

(** The grouping by date in the serializers is the grouping of the raw
    records by their invoice date, normalized. *)
Lemma byDate_step_raw (h : Host) (raw : object (list record)) (r : record) :
  byDate_step h (omap (map (normalizeLoad h)) raw) (normalizeLoad h r)
  = Ok (omap (map (normalizeLoad h)) (group_step (date_key h) raw r)).
Proof.
  unfold byDate_step, group_step. fold (date_key h r).
  set (key := date_key h r).
  assert (Hi : inherited key = false) by apply toQBDate_not_inherited.
  unfold lookup. rewrite own_omap.
  destruct (own raw key) as [rs|] eqn:Eo; cbn [option_map].
  - rewrite own_omap, Eo. cbn [option_map]. f_equal.
    apply update_omap. intros a. now rewrite map_app.
  - rewrite Hi.
    assert (Eo' : own (omap (map (normalizeLoad h)) raw) key = None)
      by (rewrite own_omap, Eo; reflexivity).
    rewrite own_define, Eo', String.eqb_refl. f_equal.
    rewrite (update_define_fresh _ _ _ _ Eo'). cbn [app].
    unfold define, omap. rewrite map_app. reflexivity.
Qed.

Lemma byDate_raw_from (h : Host) (rs : list record) (raw : object (list record)) :
  foldM (byDate_step h) (map (normalizeLoad h) rs) (omap (map (normalizeLoad h)) raw)
  = Ok (omap (map (normalizeLoad h)) (fold_left (group_step (date_key h)) rs raw)).
Proof.
  revert raw. induction rs as [|r rs IH]; intros raw; cbn [map foldM fold_left].
  - reflexivity.
  - rewrite byDate_step_raw. cbn [bind]. apply IH.
Qed.

Lemma byDate_raw (h : Host) (rs : list record) :
  byDate h (map (normalizeLoad h) rs)
  = Ok (omap (map (normalizeLoad h)) (group_raw (date_key h) rs)).
Proof. exact (byDate_raw_from h rs []). Qed.

Lemma numbered_from_cons (k : nat) (b : Batch.t) (bs : list Batch.t) :
  numbered_from k (b :: bs) = (k, b) :: numbered_from (S k) bs.
Proof. reflexivity. Qed.

Lemma numbered_from_app (k : nat) (a b : list Batch.t) :
  numbered_from k (a ++ b)
  = (numbered_from k a ++ numbered_from (k + List.length a) b)%list.
Proof.
  revert k. induction a as [|x a IH]; intros k.
  - cbn [app List.length]. now rewrite Nat.add_0_r.
  - cbn [app List.length]. rewrite !numbered_from_cons, IH. cbn [app].
    now rewrite Nat.add_succ_r.
Qed.

Lemma spl_lines_memo a b c d (loads : list Canonical.load) (spl : list string) :
  Forall2 (fun load line =>
             exists memo, iif_memo load = Ok memo /\ line = spl_line a b c d load memo)
    loads spl ->
  spl = map (fun load => spl_line a b c d load (memo_text load)) loads.
Proof.
  induction 1 as [|load line loads spl (memo & Em & ->) _ IH]; cbn [map]; [reflexivity|].
  unfold memo_text at 1. rewrite Em. now rewrite IH.
Qed.

(** Format A, the loop over the dates of one project: each batch gives its
    block of lines under the next number. *)
Lemma iif_invoices_blocks (h : Host) (projectId name : string)
  (entries : list (string * list record)) :
  forall (k : nat) (lines : list string) (issued : list issue) (st' : builder),
    foldM (iif_invoice projectId name (iif_class name))
      (omap (map (normalizeLoad h)) entries) (1000 + Z.of_nat k, lines, issued) = Ok st' ->
    fst (fst st') = 1000 + Z.of_nat (k + List.length entries)
    /\ snd (fst st')
       = (lines ++ flat_map (iif_block h)
                     (numbered_from k (map (batch_of projectId name) entries)))%list.
Proof.
  induction entries as [|[date rs] entries IH]; intros k lines issued st' E;
    cbn [omap map foldM fst snd] in E.
  - injection E as <-. cbn [fst snd List.length map numbered_from flat_map].
    rewrite Nat.add_0_r, app_nil_r. split; reflexivity.
  - apply bind_Ok in E as (st1 & E1 & E).
    apply iif_invoice_lines in E1 as (spl & -> & Hspl).
    apply spl_lines_memo in Hspl. subst spl.
    replace (1000 + Z.of_nat k + 1) with (1000 + Z.of_nat (S k)) in E by lia.
    fold (omap (map (normalizeLoad h)) entries) in E.
    apply IH in E as [En El]. split.
    + rewrite En. cbn [List.length]. f_equal. lia.
    + rewrite El. cbn [map]. rewrite numbered_from_cons. cbn [flat_map].
      rewrite <- !app_assoc. reflexivity.
Qed.

Lemma iif_project_blocks (h : Host) (entry : string * Group.t)
  (k : nat) (lines : list string) (issued : list issue) (st' : builder) :
  iif_project h (1000 + Z.of_nat k, lines, issued) entry = Ok st' ->
  named entry = true
  /\ fst (fst st') = 1000 + Z.of_nat (k + List.length (group_batches h entry))
  /\ snd (fst st')
     = (lines ++ flat_map (iif_block h) (numbered_from k (group_batches h entry)))%list.
Proof.
  destruct entry as [projectId group]. unfold iif_project, named, group_batches.
  cbn [fst snd]. intros E.
  apply bind_Ok in E as (name & En & E).
  destruct (Group.projectName group) as [| | | |s|]; try discriminate En.
  injection En as <-. rewrite byDate_raw in E. cbn [bind] in E.
  rewrite Object_entries_omap in E.
  apply iif_invoices_blocks in E as [E1 E2].
  rewrite length_map. split; [reflexivity|]. split; assumption.
Qed.

Lemma iif_projects_blocks (h : Host) (entries : list (string * Group.t)) :
  forall (k : nat) (lines : list string) (issued : list issue) (st' : builder),
    foldM (iif_project h) entries (1000 + Z.of_nat k, lines, issued) = Ok st' ->
    forallb named entries = true
    /\ snd (fst st')
       = (lines ++ flat_map (iif_block h)
                     (numbered_from k (flat_map (group_batches h) entries)))%list.
Proof.
  induction entries as [|entry entries IH]; intros k lines issued st' E; cbn [foldM] in E.
  - injection E as <-. cbn. now rewrite app_nil_r.
  - apply bind_Ok in E as ([[n1 lines1] issued1] & E1 & E).
    apply iif_project_blocks in E1 as (Hn & En & El). cbn [fst snd] in En, El. subst n1 lines1.
    apply IH in E as [Hns E]. split.
    + cbn [forallb]. now rewrite Hn, Hns.
    + rewrite E. cbn [flat_map]. rewrite numbered_from_app, flat_map_app, <- app_assoc.
      reflexivity.
Qed.

(** Format B, the same loops: each batch gives its rows under the next
    number. *)
Lemma csv_invoices_blocks (h : Host) (projectId name : string)
  (entries : list (string * list record)) :
  forall (k : nat) (rows : list string) (issued : list issue),
    exists issued',
      foldM (csv_invoice h projectId name (csv_class name))
        (omap (map (normalizeLoad h)) entries) (1000 + Z.of_nat k, rows, issued)
      = Ok (1000 + Z.of_nat (k + List.length entries),
            (rows ++ flat_map (csv_block h)
                       (numbered_from k (map (batch_of projectId name) entries)))%list,
            issued').
Proof.
  induction entries as [|[date rs] entries IH]; intros k rows issued;
    cbn [omap map foldM fst snd].
  - exists issued. cbn [List.length numbered_from flat_map].
    now rewrite Nat.add_0_r, app_nil_r.
  - rewrite csv_invoice_rows. cbn [bind].
    change ("DS-" ++ Z_to_string (1000 + Z.of_nat k)) with (nth_docNum k).
    replace (1000 + Z.of_nat k + 1) with (1000 + Z.of_nat (S k)) by lia.
    fold (omap (map (normalizeLoad h)) entries).
    destruct (IH (S k)
                (rows ++ map (csv_row h name (csv_class name) date (csv_dueDate h date)
                                (nth_docNum k))
                           (map (normalizeLoad h) rs))%list
                (issued ++ [(projectId, date, nth_docNum k)])%list)
      as (issued' & ->).
    exists issued'.
    replace (k + List.length ((date, rs) :: entries))%nat
      with (S k + List.length entries)%nat by (cbn [List.length]; lia).
    cbn [map]. rewrite numbered_from_cons. cbn [flat_map].
    unfold csv_block at 3. cbn [batch_of Batch.customer Batch.date Batch.records fst snd].
    rewrite map_map, <- app_assoc. reflexivity.
Qed.

Lemma csv_projects_blocks (h : Host) (entries : list (string * Group.t)) :
  forallb named entries = true ->
  forall (k : nat) (rows : list string) (issued : list issue),
    exists n' issued',
      foldM (csv_project h) entries (1000 + Z.of_nat k, rows, issued)
      = Ok (n',
            (rows ++ flat_map (csv_block h)
                       (numbered_from k (flat_map (group_batches h) entries)))%list,
            issued').
Proof.
  induction entries as [|[projectId group] entries IH]; intros Hn k rows issued;
    cbn [foldM forallb] in *.
  - exists (1000 + Z.of_nat k), issued. cbn. now rewrite app_nil_r.
  - apply andb_true_iff in Hn as [Hg Hn]. unfold named in Hg. cbn [snd] in Hg.
    unfold csv_project at 1.
    destruct (Group.projectName group) as [| | | |name|] eqn:Ename; try discriminate Hg.
    cbn [as_string bind]. rewrite byDate_raw. cbn [bind]. rewrite Object_entries_omap.
    destruct (csv_invoices_blocks h projectId name
                (Object_entries (group_raw (date_key h) (Group.loads group))) k rows issued)
      as (issued1 & ->). cbn [bind].
    destruct (IH Hn (k + List.length (Object_entries (group_raw (date_key h) (Group.loads group))))%nat
                (rows ++ flat_map (csv_block h)
                           (numbered_from k
                              (map (batch_of projectId name)
                                 (Object_entries (group_raw (date_key h) (Group.loads group))))))%list
                issued1)
      as (n' & issued' & ->).
    exists n', issued'. f_equal. f_equal. f_equal.
    cbn [flat_map]. rewrite numbered_from_app, flat_map_app, <- app_assoc.
    unfold group_batches. cbn [fst snd]. rewrite Ename. cbn [ToString].
    rewrite length_map. reflexivity.
Qed.







(** C10, counterexample.  One group with a record without a date and a
    record dated 2 November 2026.  Format A, run on 1 November, dates the
    first record that day: the batch of 2 November is its second invoice,
    DS-1001.  Format B, run on 2 November, puts both records in the batch
    of 2 November, its first invoice, DS-1000. *)
Lemma numbers_differ_across_days :
  let second := {| Batch.project := "P"; Batch.customer := "P";
                   Batch.date := "11/02/2026"; Batch.records := [dated_record] |} in
  let both := {| Batch.project := "P"; Batch.customer := "P";
                 Batch.date := "11/02/2026";
                 Batch.records := [undated_record; dated_record] |} in
  let first := {| Batch.project := "P"; Batch.customer := "P";
                  Batch.date := "11/01/2026"; Batch.records := [undated_record] |} in
  buildIIF Sample.host undated_groups
  = Ok (join CRLF (IIF_HEADER
                   ++ flat_map (iif_block Sample.host) [(0%nat, first); (1%nat, second)])%list)
  /\ buildCSV a_day_later undated_groups
     = Ok (join CRLF (CSV_HEADER :: flat_map (csv_block a_day_later) [(0%nat, both)]))
  /\ In (iif_trns "P" "LEED-P" "11/02/2026" "DS-1001" "125.00")
       (flat_map (iif_block Sample.host) [(0%nat, first); (1%nat, second)])
  /\ map (fun row => option_map (firstn 3) (read_row 18 row))
       (flat_map (csv_block a_day_later) [(0%nat, both)])
     = [ Some ["DS-1000"; "P"; "11/02/2026"]; Some ["DS-1000"; "P"; "11/02/2026"] ].
Proof.
  cbn zeta. split; [vm_compute; reflexivity|]. split; [vm_compute; reflexivity|].
  split.
  - vm_compute. right. right. right. left. reflexivity.
  - vm_compute. reflexivity.
Qed.

(** ** Every record has its line *)

Lemma update_push_perm (acc : object (list record)) (k : string) (r : record) :
  own acc k <> None ->
  Permutation (flat_map snd (update acc k (fun rs => rs ++ [r])%list))
    (flat_map snd acc ++ [r]).
Proof.
  induction acc as [|[j rs] acc IH]; cbn [own update flat_map snd]; [congruence|].
  destruct (String.eqb j k).
  - intros _. cbn [flat_map snd]. rewrite <- !app_assoc.
    apply Permutation_app_head, Permutation_app_comm.
  - intros H. cbn [flat_map snd]. rewrite <- app_assoc.
    apply Permutation_app_head. now apply IH.
Qed.

Lemma group_step_perm (key : record -> string) (acc : object (list record)) (r : record) :
  Permutation (flat_map snd (group_step key acc r)) (flat_map snd acc ++ [r]).
Proof.
  unfold group_step. destruct (own acc (key r)) eqn:E.
  - apply update_push_perm. congruence.
  - unfold define. rewrite flat_map_app. cbn [flat_map snd app]. reflexivity.
Qed.

(** The grouping of raw records keeps every record, once. *)
Lemma group_raw_perm (key : record -> string) (rs : list record) :
  Permutation (flat_map snd (group_raw key rs)) rs.
Proof.
  unfold group_raw.
  assert (H : forall acc, Permutation (flat_map snd (fold_left (group_step key) rs acc))
                            (flat_map snd acc ++ rs)).
  { induction rs as [|r rs IH]; intros acc; cbn [fold_left].
    - now rewrite app_nil_r.
    - rewrite IH, (group_step_perm key acc r), <- app_assoc. reflexivity. }
  exact (H []).
Qed.

Lemma group_batches_records (h : Host) (entry : string * Group.t) :
  Permutation (flat_map Batch.records (group_batches h entry)) (Group.loads (snd entry)).
Proof.
  unfold group_batches. rewrite flat_map_concat_map, map_map. cbn [Batch.records].
  rewrite <- flat_map_concat_map.
  rewrite (Permutation_flat_map snd (Object_entries_perm _)).
  apply group_raw_perm.
Qed.

(** The batches of an export hold every record of the groups, once. *)
Lemma batches_records (h : Host) (projectGroups : object Group.t) :
  Permutation (flat_map Batch.records (batches h projectGroups))
    (flat_map (fun entry => Group.loads (snd entry)) projectGroups).
Proof.
  unfold batches.
  rewrite <- (Permutation_flat_map (fun entry => Group.loads (snd entry))
                (Object_entries_perm projectGroups)).
  induction (Object_entries projectGroups) as [|e es IH]; cbn [flat_map]; [reflexivity|].
  rewrite flat_map_app. apply Permutation_app; [apply group_batches_records | exact IH].
Qed.

Lemma csv_run_named (h : Host) (entries : list (string * Group.t)) (st st' : builder) :
  foldM (csv_project h) entries st = Ok st' -> forallb named entries = true.
Proof.
  intros E.
  apply (foldM_ok_iff named (csv_project h)
           (fun s a => proj1 (csv_project_ok h s a))
           (fun s a => proj2 (csv_project_ok h s a)) entries st).
  eauto.
Qed.

(** A CSV document is its header row and, batch by batch, one row for each
    record of the batch; the batches hold every record of the groups once,
    so no load is left out and none is written twice. *)
Theorem csv_one_row_per_load (h : Host) (projectGroups : object Group.t)
  (document : string) :
  buildCSV h projectGroups = Ok document ->
  document
  = join CRLF (CSV_HEADER
               :: flat_map (csv_block h) (numbered_from 0 (batches h projectGroups)))
  /\ Permutation (flat_map Batch.records (batches h projectGroups))
       (flat_map (fun entry => Group.loads (snd entry)) projectGroups).
Proof.
  intros E. split; [|apply batches_records].
  unfold buildCSV in E. apply bind_Ok in E as ([[n rows] issued] & Erun & E).
  injection E as <-. unfold buildCSV_run in Erun.
  pose proof (csv_run_named h _ _ _ Erun) as Hn.
  destruct (csv_projects_blocks h (Object_entries projectGroups) Hn 0 [CSV_HEADER] [])
    as (n' & issued' & E').
  change (1000 + Z.of_nat 0) with 1000 in E'. rewrite E' in Erun.
  injection Erun as _ <- _. reflexivity.
Qed.

(** An IIF document is its three header lines and, batch by batch, a TRNS
    line, one SPL line for each record of the batch and an ENDTRNS line;
    the batches hold every record of the groups once. *)
Theorem iif_one_line_per_load (h : Host) (projectGroups : object Group.t)
  (document : string) :
  buildIIF h projectGroups = Ok document ->
  document
  = join CRLF (IIF_HEADER
               ++ flat_map (iif_block h) (numbered_from 0 (batches h projectGroups)))%list
  /\ Permutation (flat_map Batch.records (batches h projectGroups))
       (flat_map (fun entry => Group.loads (snd entry)) projectGroups).
Proof.
  intros E. split; [|apply batches_records].
  unfold buildIIF in E. apply bind_Ok in E as ([[n lines] issued] & Erun & E).
  injection E as <-. unfold buildIIF_run in Erun.
  apply (iif_projects_blocks h _ 0 IIF_HEADER []) in Erun as [_ El].
  cbn [fst snd] in El. now subst lines.
Qed.

Lemma csv_one_row_per_load_witness :
  exists document,
    buildCSV Sample.host site_groups = Ok document
    /\ document
       = join CRLF (CSV_HEADER
                    :: flat_map (csv_block Sample.host)
                         (numbered_from 0 (batches Sample.host site_groups)))
    /\ List.length (flat_map Batch.records (batches Sample.host site_groups)) = 5%nat.
Proof.
  destruct (buildCSV Sample.host site_groups) as [document|e] eqn:E;
    [|vm_compute in E; discriminate E].
  exists document. split; [reflexivity|].
  split; [exact (proj1 (csv_one_row_per_load Sample.host site_groups document E))|].
  reflexivity.
Defined.

Lemma iif_one_line_per_load_witness :
  exists document,
    buildIIF Sample.host site_groups = Ok document
    /\ document
       = join CRLF (IIF_HEADER
                    ++ flat_map (iif_block Sample.host)
                         (numbered_from 0 (batches Sample.host site_groups)))%list
    /\ List.length (flat_map Batch.records (batches Sample.host site_groups)) = 5%nat.
Proof.
  destruct (buildIIF Sample.host site_groups) as [document|e] eqn:E;
    [|vm_compute in E; discriminate E].
  exists document. split; [reflexivity|].
  split; [exact (proj1 (iif_one_line_per_load Sample.host site_groups document E))|].
  reflexivity.
Defined.
